(** * cos_log: the source-scoped logging core of [src/log.c], embedded in Rocq

    The development follows [log.c] function by function.

    - Severities ([log_level_t]) are the integer values of the C enumeration.
    - A C string is represented by the sequence of its characters before the
      terminating NUL, as a [string]; character buffers that are written
      through a moving pointer ([compose_hexdump_line]) are lists of
      characters with the terminator written out.
    - The registry is uthash's doubly linked application-order list of heap
      allocated elements: a list of addresses into a heap of elements.
    - Every entry point is a computation in a small state-and-fault monad over
      the process state. *)

From Stdlib Require Import ZArith String Ascii List Bool Lia.
From stdpp Require Import base option list gmap strings.

Local Open Scope Z_scope.

(** ** Severities ([log.h]) *)

Module Level.

Definition log_level_t := Z.

Definition LL_INVALID : log_level_t := 0.
Definition LL_RAW     : log_level_t := 1.
Definition LL_TRACE   : log_level_t := 2.
Definition LL_DEBUG   : log_level_t := 3.
Definition LL_INFO    : log_level_t := 4.
Definition LL_WARNING : log_level_t := 5.
Definition LL_ERROR   : log_level_t := 6.
Definition LL_NONE    : log_level_t := 7.
Definition LL_CNT     : log_level_t := 8.

(** [static const char * const log_level_map[LL_CNT]] *)
Definition log_level_map : list string :=
  ["INVALID"; "RAW"; "TRACE"; "DEBUG"; "INFO"; "WARNING"; "ERROR"; "NONE"]%string.

(** [log_level_map[ll]] for an index inside the table. *)
Definition log_level_map_at (ll : log_level_t) : string :=
  nth (Z.to_nat ll) log_level_map ""%string.

(** libc [tolower] in the C locale. *)
Definition tolower (c : ascii) : ascii :=
  let n := N_of_ascii c in
  if ((65 <=? n) && (n <=? 90))%N then ascii_of_N (n + 32) else c.

(** libc [strcasecmp]: the difference of the first pair of characters that
    differ after case folding, the end of a string reading as 0. *)
Fixpoint strcasecmp (s1 s2 : string) : Z :=
  match s1, s2 with
  | EmptyString, EmptyString => 0
  | EmptyString, String c2 _ => 0 - Z.of_N (N_of_ascii (tolower c2))
  | String c1 _, EmptyString => Z.of_N (N_of_ascii (tolower c1))
  | String c1 r1, String c2 r2 =>
      let d := Z.of_N (N_of_ascii (tolower c1)) - Z.of_N (N_of_ascii (tolower c2)) in
      if d =? 0 then strcasecmp r1 r2 else d
  end.

(** The loop of [log_str_to_ll], [n] iterations left:
    [for (ll = ...; ll < LL_CNT; ll++) if (!strcasecmp(...)) return ll;]
    followed by [return LL_INVALID]. *)
Fixpoint log_str_to_ll_from (str : string) (ll : log_level_t) (n : nat) : log_level_t :=
  match n with
  | O => LL_INVALID
  | S n' =>
      if ll <? LL_CNT then
        if strcasecmp str (log_level_map_at ll) =? 0 then ll
        else log_str_to_ll_from str (ll + 1) n'
      else LL_INVALID
  end.

Definition log_str_to_ll (str : string) : log_level_t :=
  log_str_to_ll_from str LL_INVALID (Z.to_nat (LL_CNT - LL_INVALID)).

Definition log_ll_to_str (log_level : log_level_t) : string :=
  if (log_level >=? LL_INVALID) && (log_level <? LL_CNT)
  then log_level_map_at log_level
  else log_level_map_at LL_INVALID.

(** The parameter check shared by [log_init], [log_set_log_level] and
    [log_register]: [(l <= LL_INVALID) || (l >= LL_CNT)]. *)
Definition invalid_level (l : log_level_t) : bool :=
  (l <=? LL_INVALID) || (l >=? LL_CNT).

End Level.
Export Level.

(** ** Process memory and the logging context *)

Definition addr := positive.

(** [#define LOG_SRC_STORED_MAX_SIZE 128] *)
Definition LOG_SRC_STORED_MAX_SIZE : Z := 128.

(** [log_source_hm_elt_t].  The [hh] handle is the element's place in the
    registry list; [source] is the NUL-terminated content of
    [char source[LOG_SRC_STORED_MAX_SIZE]]. *)
Record log_source_hm_elt_t := {
  source : string;
  min_log_level : log_level_t
}.

(** A [const char *]: either a string owned by the caller, or the address of
    the [source] array inside the registry element allocated at [a]. *)
Inductive char_ptr :=
  | CallerString (s : string)
  | ElementSource (a : addr).

(** [log_src_descr_t] *)
Record log_src_descr_t := {
  descr_source : char_ptr;
  descr_min_log_level : log_level_t
}.

(** [log_src_dump_t], with its flexible array member as a list. *)
Record log_src_dump_t := {
  global_level : log_level_t;
  num_log_src_descr : nat;
  log_src_descrs : list log_src_descr_t
}.

(** What [calloc]/[malloc] handed out: a registry element or a dump. *)
Inductive block :=
  | ElementBlock (e : log_source_hm_elt_t)
  | DumpBlock (d : log_src_dump_t).

(** A [pthread_mutex_t]: statically zeroed and never initialised, initialised
    and free, held, or destroyed. *)
Inductive mutex_t := MutexUninit | MutexUnlocked | MutexLocked | MutexDestroyed.

(** [log_ctx_t].  [source_hm] is the uthash table seen through its
    application-order list, head first ([hh.next] walks it); the empty list is
    the NULL head. *)
Record log_ctx_t := {
  source_hm : list addr;
  ctx_min_log_level : log_level_t;
  mutex : mutex_t;
  use_mutex : bool;
  initialized : bool
}.

(** The process: the allocator's heap, the static [log_ctx], the outcomes of
    the allocation requests still to come ([None] is a NULL return, [Some a]
    is a block at [a]; when the script is used up the allocator returns NULL),
    and what has been written to [stderr], one entry per [fprintf]. *)
Record process := {
  heap : gmap addr block;
  log_ctx : log_ctx_t;
  allocator : list (option addr);
  stderr : list string
}.

(** [static log_ctx_t log_ctx;] is zero-initialised. *)
Definition log_ctx_zero : log_ctx_t :=
  {| source_hm := []; ctx_min_log_level := 0; mutex := MutexUninit;
     use_mutex := false; initialized := false |}.

Definition process_start (script : list (option addr)) : process :=
  {| heap := ∅; log_ctx := log_ctx_zero; allocator := script; stderr := [] |}.

Definition set_log_ctx (c : log_ctx_t) (p : process) : process :=
  {| heap := heap p; log_ctx := c; allocator := allocator p; stderr := stderr p |}.
Definition set_heap (h : gmap addr block) (p : process) : process :=
  {| heap := h; log_ctx := log_ctx p; allocator := allocator p; stderr := stderr p |}.
Definition set_allocator (al : list (option addr)) (p : process) : process :=
  {| heap := heap p; log_ctx := log_ctx p; allocator := al; stderr := stderr p |}.
Definition set_stderr (out : list string) (p : process) : process :=
  {| heap := heap p; log_ctx := log_ctx p; allocator := allocator p; stderr := out |}.

Definition set_source_hm (v : list addr) (c : log_ctx_t) : log_ctx_t :=
  {| source_hm := v; ctx_min_log_level := ctx_min_log_level c; mutex := mutex c;
     use_mutex := use_mutex c; initialized := initialized c |}.
Definition set_ctx_min_log_level (v : log_level_t) (c : log_ctx_t) : log_ctx_t :=
  {| source_hm := source_hm c; ctx_min_log_level := v; mutex := mutex c;
     use_mutex := use_mutex c; initialized := initialized c |}.
Definition set_mutex (v : mutex_t) (c : log_ctx_t) : log_ctx_t :=
  {| source_hm := source_hm c; ctx_min_log_level := ctx_min_log_level c; mutex := v;
     use_mutex := use_mutex c; initialized := initialized c |}.
Definition set_use_mutex (v : bool) (c : log_ctx_t) : log_ctx_t :=
  {| source_hm := source_hm c; ctx_min_log_level := ctx_min_log_level c; mutex := mutex c;
     use_mutex := v; initialized := initialized c |}.
Definition set_initialized (v : bool) (c : log_ctx_t) : log_ctx_t :=
  {| source_hm := source_hm c; ctx_min_log_level := ctx_min_log_level c; mutex := mutex c;
     use_mutex := use_mutex c; initialized := v |}.

(** ** The monad of entry points *)

(** Why a run has no result: an [assert] failed, the run is undefined in C
    (locking a mutex that is not an initialised free mutex, reading or freeing
    memory that is not allocated), the allocation script names memory that
    is still in use, which no allocator does, or a loop was given too few
    turns. *)
Inductive fault := AssertionFailed | Undefined | ImpossibleAllocation | OutOfFuel.

Inductive outcome (A : Type) :=
  | Ok (a : A) (p : process)
  | Fault (f : fault).
Arguments Ok {A} a p.
Arguments Fault {A} f.

Definition M (A : Type) : Type := process -> outcome A.

Definition ret {A} (a : A) : M A := fun p => Ok a p.
Definition bind {A B} (m : M A) (k : A -> M B) : M B :=
  fun p => match m p with
           | Ok a p' => k a p'
           | Fault f => Fault f
           end.
Definition raise {A} (f : fault) : M A := fun _ => Fault f.
Definition get_ctx : M log_ctx_t := fun p => Ok (log_ctx p) p.
Definition put_ctx (c : log_ctx_t) : M unit := fun p => Ok tt (set_log_ctx c p).
Definition get_heap : M (gmap addr block) := fun p => Ok (heap p) p.
Definition put_heap (h : gmap addr block) : M unit := fun p => Ok tt (set_heap h p).

Declare Scope log_scope.
Delimit Scope log_scope with log.
Notation "'let!' x ':=' c 'in' k" := (bind c (fun x => k))
  (at level 10, x name, c at level 100, k at level 200) : log_scope.
Notation "c '>>' k" := (bind c (fun _ => k))
  (at level 60, right associativity) : log_scope.
Local Open Scope log_scope.

(** *** libc and pthread *)

(** [calloc]/[malloc]: the next outcome of the script. *)
Definition alloc (b : block) : M (option addr) :=
  fun p => match allocator p with
           | [] => Ok None p
           | None :: rest => Ok None (set_allocator rest p)
           | Some a :: rest =>
               match heap p !! a with
               | None => Ok (Some a) (set_heap (<[a := b]> (heap p)) (set_allocator rest p))
               | Some _ => Fault ImpossibleAllocation
               end
           end.

Definition free (a : addr) : M unit :=
  fun p => match heap p !! a with
           | Some _ => Ok tt (set_heap (delete a (heap p)) p)
           | None => Fault Undefined
           end.

(** Reading and writing a registry element through its address. *)
Definition load_elt (a : addr) : M log_source_hm_elt_t :=
  fun p => match heap p !! a with
           | Some (ElementBlock e) => Ok e p
           | _ => Fault Undefined
           end.

Definition store_elt (a : addr) (e : log_source_hm_elt_t) : M unit :=
  fun p => match heap p !! a with
           | Some (ElementBlock _) => Ok tt (set_heap (<[a := ElementBlock e]> (heap p)) p)
           | _ => Fault Undefined
           end.

(** Reading the string a [const char *] points to. *)
Definition load_str (s : char_ptr) : M string :=
  match s with
  | CallerString s => ret s
  | ElementSource a => let! e := load_elt a in ret (source e)
  end.

Definition pthread_mutex_init (ok : bool) : M bool :=
  if ok then
    let! c := get_ctx in put_ctx (set_mutex MutexUnlocked c) >> ret true
  else ret false.

Definition pthread_mutex_lock : M unit :=
  let! c := get_ctx in
  match mutex c with
  | MutexUnlocked => put_ctx (set_mutex MutexLocked c)
  | _ => raise Undefined
  end.

Definition pthread_mutex_unlock : M unit :=
  let! c := get_ctx in
  match mutex c with
  | MutexLocked => put_ctx (set_mutex MutexUnlocked c)
  | _ => raise Undefined
  end.

Definition pthread_mutex_destroy (ok : bool) : M bool :=
  let! c := get_ctx in
  match mutex c with
  | MutexUnlocked =>
      if ok then put_ctx (set_mutex MutexDestroyed c) >> ret true else ret false
  | _ => raise Undefined
  end.

(** [strlen] of a C string. *)
Definition strlen (s : string) : Z := Z.of_nat (String.length s).

(** [strncpy(dst, src, n); dst[n] = 0] into a zeroed array of [n + 1]
    characters: the first [n] characters of [src]. *)
Definition strncpy_terminated (src : string) (n : Z) : string :=
  substring 0 (Z.to_nat n) src.

(** *** uthash, through the application-order list *)

(** [HASH_FIND_STR(head, findstr, out)]: the element whose key, the string in
    its [source] field, equals [findstr].  uthash adds at the front of a
    bucket's chain and searches the chain from the front, so among elements
    with one key the newest is found; the model searches the whole list newest
    first.  With unique keys the order is immaterial. *)
Definition key_matches (h : gmap addr block) (findstr : string) (a : addr) : bool :=
  match h !! a with
  | Some (ElementBlock e) => String.eqb (source e) findstr
  | _ => false
  end.

Definition hash_find (h : gmap addr block) (head : list addr) (findstr : string) : option addr :=
  find (key_matches h findstr) (rev head).

Definition HASH_FIND_STR (findstr : string) : M (option addr) :=
  fun p => Ok (hash_find (heap p) (source_hm (log_ctx p)) findstr) p.

(** [HASH_ADD_STR(head, source, add)]: appended to the list, keyed by the
    string in the element's [source] field; uthash does not look for an
    element that already has the key.  (uthash ends the process when one of
    its own allocations fails; such runs are left out.) *)
Definition HASH_ADD_STR (add : addr) : M unit :=
  let! c := get_ctx in put_ctx (set_source_hm (source_hm c ++ [add]) c).

(** [HASH_DEL(head, delptr)] *)
Definition HASH_DEL (delptr : addr) : M unit :=
  let! c := get_ctx in
  put_ctx (set_source_hm (filter (fun a => a ≠ delptr) (source_hm c)) c).

(** [HASH_COUNT(head)] *)
Definition HASH_COUNT : M nat :=
  let! c := get_ctx in ret (length (source_hm c)).

(** ** The entry points of [log.c] *)

Definition lock_mutex_if_it_needs : M unit :=
  let! c := get_ctx in
  if use_mutex c then pthread_mutex_lock else ret tt.

Definition unlock_mutex_if_it_needs : M unit :=
  let! c := get_ctx in
  if use_mutex c then pthread_mutex_unlock else ret tt.

Definition check_log_level (requested current : log_level_t) : bool :=
  requested >=? current.

Definition assert (b : bool) : M unit :=
  if b then ret tt else raise AssertionFailed.

Definition is_log_allowed (src : string) (log_level : log_level_t) : M bool :=
  assert (log_level >? LL_INVALID) >>
  assert (log_level <? LL_CNT) >>
  let! c := get_ctx in
  if check_log_level log_level (ctx_min_log_level c) then
    let! elt := HASH_FIND_STR src in
    match elt with
    | Some a =>
        let! e := load_elt a in
        if check_log_level log_level (min_log_level e) then ret true else ret false
    | None => ret false
    end
  else ret false.

(** [log_init]; [mutex_init_ok] is whether [pthread_mutex_init] returns 0. *)
Definition log_init (min_level : log_level_t) (is_thread_safe : bool)
    (mutex_init_ok : bool) : M bool :=
  let! c := get_ctx in
  if negb (initialized c) then
    if invalid_level min_level then ret false else
    put_ctx (set_use_mutex is_thread_safe (set_ctx_min_log_level min_level c)) >>
    let! armed :=
      (if is_thread_safe then pthread_mutex_init mutex_init_ok else ret true) in
    if armed then
      let! c := get_ctx in
      put_ctx (set_initialized true c) >> ret true
    else ret false
  else ret false.

Definition log_set_log_level (min_level : log_level_t) : M bool :=
  if invalid_level min_level then ret false else
  let! c := get_ctx in
  if negb (initialized c) then ret false else
  lock_mutex_if_it_needs >>
  let! c := get_ctx in
  put_ctx (set_ctx_min_log_level min_level c) >>
  unlock_mutex_if_it_needs >>
  ret true.

Definition log_register (src : string) (min_level : log_level_t) : M bool :=
  if invalid_level min_level then ret false else
  let! c := get_ctx in
  if negb (initialized c) then ret false else
  if strlen src >? LOG_SRC_STORED_MAX_SIZE then ret false else
  lock_mutex_if_it_needs >>
  let! existing := HASH_FIND_STR src in
  let! result :=
    match existing with
    | Some a =>
        let! e := load_elt a in
        store_elt a {| source := source e; min_log_level := min_level |} >>
        ret true
    | None =>
        let! source_hm_elt :=
          alloc (ElementBlock {| source := ""; min_log_level := 0 |}) in
        match source_hm_elt with
        | Some a =>
            store_elt a
              {| source := strncpy_terminated src (LOG_SRC_STORED_MAX_SIZE - 1);
                 min_log_level := min_level |} >>
            HASH_ADD_STR a >>
            ret true
        | None => ret false
        end
    end in
  unlock_mutex_if_it_needs >>
  ret result.

(** The loop of [log_register_ex] over [descr[i]], [i < num_descrs]. *)
Fixpoint log_register_ex_loop (descr : list log_src_descr_t) (num_descrs : nat)
    {struct num_descrs} : M bool :=
  match num_descrs with
  | O => ret true
  | S n =>
      match descr with
      | [] => raise Undefined
      | d :: rest =>
          let! src := load_str (descr_source d) in
          let! ok := log_register src (descr_min_log_level d) in
          if ok then log_register_ex_loop rest n else ret false
      end
  end.

(** [log_register_ex]; [descr = None] is the NULL array. *)
Definition log_register_ex (descr : option (list log_src_descr_t)) (num_descrs : nat) : M bool :=
  let! c := get_ctx in
  if negb (initialized c) then ret false else
  match descr with
  | None => if (0 <? num_descrs)%nat then ret false else ret true
  | Some ds => log_register_ex_loop ds num_descrs
  end.

Definition log_unregister (src : string) : M unit :=
  let! c := get_ctx in
  if negb (initialized c) then ret tt else
  lock_mutex_if_it_needs >>
  let! elt := HASH_FIND_STR src in
  match elt with
  | Some a => HASH_DEL a >> free a
  | None => ret tt
  end >>
  unlock_mutex_if_it_needs.

(** [HASH_ITER(hh, log_ctx.source_hm, elt, tmp) { HASH_DEL(...); free(elt); }] *)
Fixpoint destroy_iter (elts : list addr) : M unit :=
  match elts with
  | [] => ret tt
  | elt :: tmp => HASH_DEL elt >> free elt >> destroy_iter tmp
  end.

(** [log_destroy]; [mutex_destroy_ok] is whether [pthread_mutex_destroy]
    returns 0. *)
Definition log_destroy (mutex_destroy_ok : bool) : M bool :=
  let! c := get_ctx in
  if initialized c then
    lock_mutex_if_it_needs >>
    let! c := get_ctx in
    destroy_iter (source_hm c) >>
    let! c := get_ctx in
    put_ctx (set_source_hm [] c) >>
    let! c := get_ctx in
    if use_mutex c then
      pthread_mutex_unlock >>
      let! gone := pthread_mutex_destroy mutex_destroy_ok in
      if gone then ret true else ret false
    else ret true
  else ret true.

Definition log_will_be_printed (src : string) (log_level : log_level_t) : M bool :=
  lock_mutex_if_it_needs >>
  let! res := is_log_allowed src log_level in
  unlock_mutex_if_it_needs >>
  ret res.

Definition log_get_src_level (src : string) : M log_level_t :=
  lock_mutex_if_it_needs >>
  let! elt := HASH_FIND_STR src in
  let! res :=
    match elt with
    | Some a => let! e := load_elt a in ret (min_log_level e)
    | None => ret LL_INVALID
    end in
  unlock_mutex_if_it_needs >>
  ret res.

Definition log_get_global_level : M log_level_t :=
  lock_mutex_if_it_needs >>
  let! c := get_ctx in
  unlock_mutex_if_it_needs >>
  ret (ctx_min_log_level c).

(** The copy loop of [log_src_dump]:
    [for (i = 0; i < sz && elt; i++) { ...; elt = elt->hh.next; }]. *)
Fixpoint dump_loop (sz : nat) (elt : list addr) : M (list log_src_descr_t) :=
  match sz, elt with
  | S n, a :: next =>
      let! e := load_elt a in
      let! rest := dump_loop n next in
      ret ({| descr_source := ElementSource a;
              descr_min_log_level := min_log_level e |} :: rest)
  | _, _ => ret []
  end.

(** [log_src_dump]: the address of the dump block, or [None] for NULL.  The
    block is allocated first and filled afterwards. *)
Definition log_src_dump : M (option addr) :=
  let! c := get_ctx in
  if negb (initialized c) then ret None else
  lock_mutex_if_it_needs >>
  let! sz := HASH_COUNT in
  let! res := alloc (DumpBlock {| global_level := 0; num_log_src_descr := 0;
                                  log_src_descrs := [] |}) in
  match res with
  | None => unlock_mutex_if_it_needs >> ret None
  | Some r =>
      let! c := get_ctx in
      let! descrs := dump_loop sz (source_hm c) in
      let! h := get_heap in
      put_heap (<[r := DumpBlock {| global_level := ctx_min_log_level c;
                                    num_log_src_descr := sz;
                                    log_src_descrs := descrs |}]> h) >>
      unlock_mutex_if_it_needs >>
      ret (Some r)
  end.

(** [log_src_dump_delete]: its argument is NULL or a result of
    [log_src_dump]; handing [free] anything else is outside its contract. *)
Definition log_src_dump_delete (dump : option addr) : M unit :=
  match dump with
  | Some d =>
      let! h := get_heap in
      match h !! d with
      | Some (DumpBlock _) => free d
      | _ => raise Undefined
      end
  | None => ret tt
  end.

(** ** The formatter *)

Module Hexdump.

Definition NUL : ascii := Ascii.zero.
Definition SP : ascii := " "%char.
Definition LF : string := String "010"%char EmptyString.

(** [#define LOG_RAW_ADDR_FIELD_WIDTH 8] *)
Definition LOG_RAW_ADDR_FIELD_WIDTH : nat := 8.

(** [size_t] arithmetic is modulo 2^64. *)
Definition size_t_wrap (z : Z) : Z := z mod 2 ^ 64.

Definition hex_digit (d : Z) : ascii :=
  nth (Z.to_nat d) (list_ascii_of_string "0123456789ABCDEF") "0"%char.

(** The hexadecimal digits of [n], most significant first, none for 0. *)
Fixpoint hex_digits (fuel : nat) (n : Z) (acc : list ascii) : list ascii :=
  match fuel with
  | O => acc
  | S fuel' =>
      if n =? 0 then acc
      else hex_digits fuel' (n / 16) (hex_digit (n mod 16) :: acc)
  end.

(** printf's [%.<prec>X] of an unsigned value below 2^64: its digits, filled
    with zeros on the left up to [prec] digits. *)
Definition fmt_X (prec : nat) (n : Z) : list ascii :=
  let ds := hex_digits 16 n [] in
  repeat "0"%char (prec - length ds) ++ ds.

(** [%.2hhX] of an [unsigned char]. *)
Definition fmt_hhX (b : ascii) : list ascii :=
  fmt_X 2 (Z.of_N (N_of_ascii b)).

(** libc [isprint] in the C locale. *)
Definition isprint (c : ascii) : bool :=
  let n := N_of_ascii c in ((32 <=? n) && (n <=? 126))%N.

(** Writing the characters [cs] from [buf_out[pos]] on; [None] when a write
    falls outside the array. *)
Fixpoint poke (buf : list ascii) (pos : nat) (cs : list ascii) : option (list ascii) :=
  match cs with
  | [] => Some buf
  | c :: cs' =>
      if decide (pos < length buf)%nat then poke (<[pos := c]> buf) (S pos) cs'
      else None
  end.

(** [sprintf(buf_out + pos, ...)] writes the text and a terminating NUL. *)
Definition sprintf (buf : list ascii) (pos : nat) (text : list ascii) : option (list ascii) :=
  poke buf pos (text ++ [NUL]).

(** The C string held in an array: its characters up to the first NUL. *)
Fixpoint c_str (buf : list ascii) : option string :=
  match buf with
  | [] => None
  | c :: rest =>
      if Ascii.eqb c NUL then Some EmptyString
      else String c <$> c_str rest
  end.

(** The hex loop: for [i] from 0 below [limit], [sprintf] of the byte at [ptr]
    with a space and [%.2hhX]; [ptr] advances by one and [buf_out] by 3.
    [n] iterations are left. *)
Fixpoint hex_loop (buf_in : list ascii) (ptr : nat) (n : nat)
    (out : list ascii) (pos : nat) : option (list ascii * nat) :=
  match n with
  | O => Some (out, pos)
  | S n' =>
      b ← buf_in !! ptr;
      out' ← sprintf out pos (SP :: fmt_hhX b);
      hex_loop buf_in (S ptr) n' out' (pos + 3)
  end.

(** The padding loop: for [j] from [i] below 16, three spaces are stored and
    [buf_out] advances by 3. *)
Fixpoint pad_loop (n : nat) (out : list ascii) (pos : nat) : option (list ascii * nat) :=
  match n with
  | O => Some (out, pos)
  | S n' =>
      out' ← poke out pos [SP; SP; SP];
      pad_loop n' out' (pos + 3)
  end.

(** The text loop: for [i] from 0 below [limit], the character at [cptr] is
    written if [isprint] accepts it and a dot otherwise; [cptr] and [buf_out]
    advance by one. *)
Fixpoint text_loop (buf_in : list ascii) (cptr : nat) (n : nat)
    (out : list ascii) (pos : nat) : option (list ascii * nat) :=
  match n with
  | O => Some (out, pos)
  | S n' =>
      c ← buf_in !! cptr;
      out' ← poke out pos [if isprint c then c else "."%char];
      text_loop buf_in (S cptr) n' out' (pos + 1)
  end.

(** [compose_hexdump_line]: the content of the array [buf_out] afterwards, or
    [None] when the run reads outside [buf_in] or writes outside [buf_out].
    The closing [assert(strlen(buf_out) < 100)] looks at the terminator just
    written, where the length is 0, and cannot fail. *)
Definition compose_hexdump_line (buf_in : list ascii) (buf_in_size offset : Z)
    (buf_out : list ascii) : option (list ascii) :=
  let first := size_t_wrap (offset * 16) in
  out ← sprintf buf_out 0 (fmt_X LOG_RAW_ADDR_FIELD_WIDTH first ++ [SP; SP]);
  let pos := (LOG_RAW_ADDR_FIELD_WIDTH + 2)%nat in
  let limit :=
    if size_t_wrap (buf_in_size - first) >? 16 then 16
    else size_t_wrap (buf_in_size - first) in
  '(out, pos) ← hex_loop buf_in (Z.to_nat first) (Z.to_nat limit) out pos;
  '(out, pos) ← pad_loop (Z.to_nat (16 - limit)) out pos;
  out ← poke out pos [SP; "|"%char; SP];
  let pos := (pos + 3)%nat in
  '(out, pos) ← text_loop buf_in (Z.to_nat first) (Z.to_nat limit) out pos;
  poke out pos [NUL].

End Hexdump.
Export Hexdump.

Arguments compose_hexdump_line : simpl never.

Module Prefix.

Local Open Scope string_scope.
Local Open Scope Z_scope.

(** [#define LOG_SRC_MAX_SIZE 16], [LOG_FUNCTION_NAME_MAX_SIZE 20],
    [LOG_FILE_NAME_MAX_SIZE 20] *)
Definition LOG_SRC_MAX_SIZE : nat := 16.
Definition LOG_FUNCTION_NAME_MAX_SIZE : nat := 20.
Definition LOG_FILE_NAME_MAX_SIZE : nat := 20.

(** The two build switches of [CMakeLists.txt]. *)
Record build_config := {
  DO_LOG_FUNCTION_NAME : bool;
  DO_LOG_CURRENT_TIME : bool
}.

(** [struct tag_log_datetime] *)
Record tag_log_datetime := {
  year : Z; month : Z; day : Z; hour : Z; min : Z; sec : Z; usec : Z
}.

Definition spaces (n : nat) : string := string_of_list_ascii (repeat SP n).

(** printf's [%-W.Ps]: at most [P] characters, filled with spaces on the
    right up to [W]. *)
Definition fmt_s_left (w prec : nat) (s : string) : string :=
  let t := substring 0 prec s in t +:+ spaces (w - String.length t).

(** printf's [%Ws]: filled with spaces on the left up to [W]. *)
Definition fmt_s_right (w : nat) (s : string) : string :=
  spaces (w - String.length s) +:+ s.

(** [snprintf(buf, size, ...)] keeps at most [size - 1] characters. *)
Definition snprintf (size : nat) (text : string) : string :=
  substring 0 (size - 1) text.

Fixpoint dec_digits (fuel : nat) (n : Z) (acc : list ascii) : list ascii :=
  match fuel with
  | O => acc
  | S fuel' =>
      if n =? 0 then acc
      else dec_digits fuel' (n / 10) (ascii_of_N (48 + Z.to_N (n mod 10)) :: acc)
  end.

(** printf's [%.<prec>d] of an [int]. *)
Definition fmt_d (prec : nat) (z : Z) : string :=
  let ds := dec_digits 10 (Z.abs z) [] in
  (if z <? 0 then "-" else "") +:+
  string_of_list_ascii (repeat "0"%char (prec - length ds) ++ ds)%list.

(** The text after the last [c] in [s]: [strrchr(s, c) + 1]. *)
Fixpoint after_last (c : ascii) (s : string) : option string :=
  match s with
  | EmptyString => None
  | String x rest =>
      match after_last c rest with
      | Some t => Some t
      | None => if Ascii.eqb x c then Some rest else None
      end
  end.

Definition extract_file_name (file_path : string) : string :=
  match after_last "/"%char file_path with
  | Some t => t
  | None =>
      match after_last "\"%char file_path with
      | Some t => t
      | None => file_path
      end
  end.

(** [print_current_time]: ["%.4d.%.2d.%.2d-%.2d:%.2d:%.2d:%-4.3d"]. *)
Definition print_current_time (dt : tag_log_datetime) (result_max_size : nat) : string :=
  let ms := fmt_d 3 (Z.quot (usec dt) 1000) in
  snprintf result_max_size
    (fmt_d 4 (year dt) +:+ "." +:+ fmt_d 2 (month dt) +:+ "." +:+ fmt_d 2 (day dt) +:+ "-" +:+
     fmt_d 2 (hour dt) +:+ ":" +:+ fmt_d 2 (min dt) +:+ ":" +:+ fmt_d 2 (sec dt) +:+ ":" +:+
     ms +:+ spaces (4 - String.length ms)).

(** [compose_log_prefix]; [dt] is what [get_current_time] read from the
    clock. *)
Definition compose_log_prefix (cfg : build_config) (dt : tag_log_datetime)
    (prefix_buf_size : nat) (src file line function : string)
    (log_level : log_level_t) : string :=
  snprintf prefix_buf_size
    ((if DO_LOG_CURRENT_TIME cfg then print_current_time dt 32 +:+ ":" else "") +:+
     "[" +:+ fmt_s_left 1 1 (log_level_map_at log_level) +:+ "]" +:+
     "[" +:+ fmt_s_left LOG_SRC_MAX_SIZE LOG_SRC_MAX_SIZE src +:+ "]" +:+
     "[" +:+ fmt_s_left LOG_FILE_NAME_MAX_SIZE LOG_FILE_NAME_MAX_SIZE (extract_file_name file)
         +:+ ":" +:+ fmt_s_right 5 line +:+ "]" +:+
     (if DO_LOG_FUNCTION_NAME cfg
      then " in " +:+ fmt_s_left LOG_FUNCTION_NAME_MAX_SIZE LOG_FUNCTION_NAME_MAX_SIZE function +:+ "()"
      else "")).

End Prefix.
Export Prefix.

(** [fprintf(stderr, ...)] with the text already rendered. *)
Definition fprintf_stderr (text : string) : M unit :=
  fun p => Ok tt (set_stderr (stderr p ++ [text]) p).

(** The loop of [log_raw]: [for (i = 0; i < length; i += 16)], one dump line per
    turn through the array [hexdump_line]. *)
Fixpoint log_raw_loop (buffer : list ascii) (length i : Z) (hexdump_line : list ascii)
    (fuel : nat) : M unit :=
  match fuel with
  | O => raise OutOfFuel
  | S fuel' =>
      if i <? length then
        match compose_hexdump_line buffer length (i / 16) hexdump_line with
        | Some hexdump_line' =>
            match c_str hexdump_line' with
            | Some text =>
                fprintf_stderr (text +:+ LF) >>
                log_raw_loop buffer length (size_t_wrap (i + 16)) hexdump_line' fuel'
            | None => raise Undefined
            end
        | None => raise Undefined
        end
      else ret tt
  end.

(** [log_raw].  [dt] is the clock reading, [hexdump_line] the content the
    uninitialised local array [char hexdump_line[100]] happens to have, and
    [buffer = None] the NULL buffer.  The loop is given one turn more than
    [length / 16 + 1], which it needs at most. *)
Definition log_raw (cfg : build_config) (dt : tag_log_datetime) (hexdump_line : list ascii)
    (src file line function : string) (buffer : option (list ascii)) (length : Z) : M unit :=
  let! c := get_ctx in
  if negb (initialized c) then ret tt else
  lock_mutex_if_it_needs >>
  let! allowed := is_log_allowed src LL_RAW in
  (if allowed then
     fprintf_stderr
       (snprintf (Z.to_nat 8192) (compose_log_prefix cfg dt 128 src file line function LL_RAW +:+ LF)) >>
     match buffer with
     | Some buf => log_raw_loop buf length 0 hexdump_line (S (Z.to_nat (length / 16 + 1)))
     | None => fprintf_stderr ("NULL" +:+ LF)
     end
   else ret tt) >>
  unlock_mutex_if_it_needs.

(** [log_log].  The variadic arguments stay with the caller: [render] is what
    [vfprintf] makes of a format string with them.  The format handed to
    [vfprintf] is the content of [log_buf]: the prefix, [" | "], the caller's
    format and a line feed. *)
Definition log_log (cfg : build_config) (dt : tag_log_datetime) (render : string -> string)
    (src file line function : string) (log_level : log_level_t) (fmt : string) : M unit :=
  assert (log_level >? LL_INVALID) >>
  assert (log_level <? LL_CNT) >>
  let! c := get_ctx in
  if negb (initialized c) then ret tt else
  lock_mutex_if_it_needs >>
  let! allowed := is_log_allowed src log_level in
  (if allowed then
     fprintf_stderr
       (render (snprintf (Z.to_nat 8192)
                  (compose_log_prefix cfg dt 128 src file line function log_level
                   +:+ " | " +:+ fmt +:+ LF)))
   else ret tt) >>
  unlock_mutex_if_it_needs.

(** ** The registry seen as a whole *)

Arguments hash_find : simpl never.

(** The lock can be taken: the context does not use the mutex, or the mutex is
    initialised and free. *)
Definition mutex_usable (p : process) : Prop :=
  use_mutex (log_ctx p) = true -> mutex (log_ctx p) = MutexUnlocked.

(** The level stored for [src], if the lookup finds an element. *)
Definition registered_level (p : process) (src : string) : option log_level_t :=
  match hash_find (heap p) (source_hm (log_ctx p)) src with
  | Some a =>
      match heap p !! a with
      | Some (ElementBlock e) => Some (min_log_level e)
      | _ => None
      end
  | None => None
  end.

(** Some element of the registry carries the name [src]. *)
Definition registered (p : process) (src : string) : Prop :=
  exists a e, a ∈ source_hm (log_ctx p) /\ heap p !! a = Some (ElementBlock e) /\ source e = src.

(** The elements of the registry with the name [src]. *)
Definition entries_named (p : process) (src : string) : list addr :=
  List.filter (key_matches (heap p) src) (source_hm (log_ctx p)).

Definition valid_level (l : log_level_t) : Prop := LL_INVALID < l < LL_CNT.

(** Every address of the registry list is a live element with a real level,
    and no address occurs twice. *)
Definition registry_ok (p : process) : Prop :=
  NoDup (source_hm (log_ctx p)) /\
  forall a, a ∈ source_hm (log_ctx p) ->
    exists e, heap p !! a = Some (ElementBlock e) /\ valid_level (min_log_level e).

(** What a call of [log_register] that returns can have done. *)
Inductive register_effect (src : string) (lvl : log_level_t) (p : process) :
    bool -> process -> Prop :=
  | register_refused : register_effect src lvl p false p
  | register_no_memory rest :
      allocator p = None :: rest ->
      register_effect src lvl p false (set_allocator rest p)
  | register_overwrite a e :
      invalid_level lvl = false ->
      hash_find (heap p) (source_hm (log_ctx p)) src = Some a ->
      heap p !! a = Some (ElementBlock e) ->
      register_effect src lvl p true
        (set_heap (<[a := ElementBlock {| source := source e; min_log_level := lvl |}]> (heap p)) p)
  | register_insert a rest :
      invalid_level lvl = false ->
      strlen src <= LOG_SRC_STORED_MAX_SIZE ->
      hash_find (heap p) (source_hm (log_ctx p)) src = None ->
      allocator p = Some a :: rest ->
      heap p !! a = None ->
      register_effect src lvl p true
        {| heap := <[a := ElementBlock
                      {| source := strncpy_terminated src (LOG_SRC_STORED_MAX_SIZE - 1);
                         min_log_level := lvl |}]> (heap p);
           log_ctx := set_source_hm (source_hm (log_ctx p) ++ [a]) (log_ctx p);
           allocator := rest;
           stderr := stderr p |}.

(** *** Calls and runs *)

Inductive api_call :=
  | Call_log_init (min_level : log_level_t) (is_thread_safe mutex_init_ok : bool)
  | Call_log_set_log_level (min_level : log_level_t)
  | Call_log_register (src : string) (min_level : log_level_t)
  | Call_log_register_ex (descr : option (list log_src_descr_t)) (num_descrs : nat)
  | Call_log_unregister (src : string)
  | Call_log_destroy (mutex_destroy_ok : bool)
  | Call_log_will_be_printed (src : string) (log_level : log_level_t)
  | Call_log_get_src_level (src : string)
  | Call_log_get_global_level
  | Call_log_src_dump
  | Call_log_src_dump_delete (dump : option addr)
  | Call_log_log (cfg : build_config) (dt : tag_log_datetime) (render : string -> string)
      (src file line function : string) (log_level : log_level_t) (fmt : string)
  | Call_log_raw (cfg : build_config) (dt : tag_log_datetime) (hexdump_line : list ascii)
      (src file line function : string) (buffer : option (list ascii)) (length : Z).

Definition forget {A} (m : M A) : M unit := let! _ := m in ret tt.

Definition exec (c : api_call) : M unit :=
  match c with
  | Call_log_init l ts ok => forget (log_init l ts ok)
  | Call_log_set_log_level l => forget (log_set_log_level l)
  | Call_log_register src l => forget (log_register src l)
  | Call_log_register_ex ds n => forget (log_register_ex ds n)
  | Call_log_unregister src => log_unregister src
  | Call_log_destroy ok => forget (log_destroy ok)
  | Call_log_will_be_printed src l => forget (log_will_be_printed src l)
  | Call_log_get_src_level src => forget (log_get_src_level src)
  | Call_log_get_global_level => forget log_get_global_level
  | Call_log_src_dump => forget log_src_dump
  | Call_log_src_dump_delete d => log_src_dump_delete d
  | Call_log_log cfg dt render src file line function l fmt =>
      log_log cfg dt render src file line function l fmt
  | Call_log_raw cfg dt hexdump_line src file line function buffer len =>
      log_raw cfg dt hexdump_line src file line function buffer len
  end.

Fixpoint exec_all (cs : list api_call) : M unit :=
  match cs with
  | [] => ret tt
  | c :: rest => exec c >> exec_all rest
  end.

(** The states a program can bring the process to. *)
Inductive reachable : process -> Prop :=
  | reachable_start script : reachable (process_start script)
  | reachable_call p c p' : reachable p -> exec c p = Ok tt p' -> reachable p'.

(** ** Proof automation for runs *)

Ltac unfold_prims :=
  unfold lock_mutex_if_it_needs, unlock_mutex_if_it_needs,
    pthread_mutex_lock, pthread_mutex_unlock, pthread_mutex_init, pthread_mutex_destroy,
    HASH_FIND_STR, HASH_ADD_STR, HASH_DEL, HASH_COUNT, load_str, load_elt, store_elt,
    alloc, free, assert, forget, get_ctx, put_ctx, get_heap, put_heap, raise, bind, ret in *.

Ltac unfold_setters :=
  unfold set_log_ctx, set_heap, set_allocator, set_stderr, set_source_hm,
    set_ctx_min_log_level, set_mutex, set_use_mutex, set_initialized in *.

(** Inversion of a run: unfold the monad, split on every test. *)
Ltac run_inv :=
  repeat (cbn in *; unfold_prims; cbn in *; simplify_eq; case_match);
  cbn in *; unfold_prims; cbn in *; simplify_eq;
  unfold_setters; cbn in *.

(** Evaluation of a run whose tests are decided by the hypotheses. *)
Ltac run_fwd :=
  repeat (unfold_prims; unfold_setters; cbn;
          try match goal with
              | H : ?x = _ |- context [?x] => rewrite H
              end).

Ltac open_process p :=
  let h := fresh "h" in let hm := fresh "hm" in let g := fresh "g" in
  let m := fresh "m" in let um := fresh "um" in let ini := fresh "ini" in
  let al := fresh "al" in let err := fresh "err" in
  destruct p as [h [hm g m um ini] al err];
  unfold mutex_usable, registered_level in *; cbn in *.

Ltac split_mutex :=
  match goal with
  | Hm : ?um = true -> ?m = MutexUnlocked |- _ =>
      destruct um; [rewrite (Hm eq_refl) in *; clear Hm | clear Hm]
  end.

(** ** Sample states *)

(** The process after [log_init(LL_INFO, false)] and
    [log_register("NET", LL_DEBUG)], two more allocations to come. *)
Definition process_net : process :=
  {| heap := {[ 1%positive := ElementBlock {| source := "NET"; min_log_level := LL_DEBUG |} ]};
     log_ctx := {| source_hm := [1%positive]; ctx_min_log_level := LL_INFO;
                   mutex := MutexUninit; use_mutex := false; initialized := true |};
     allocator := [Some 2%positive; Some 1%positive];
     stderr := [] |}.

(** A name of exactly [LOG_SRC_STORED_MAX_SIZE] characters, and the 127 it
    is cut down to. *)
Definition name128 : string := string_of_list_ascii (repeat "a"%char 128).
Definition name127 : string := string_of_list_ascii (repeat "a"%char 127).

(** The dump entry [d] points at the element at [a] and carries the level
    that element has in the heap [h]. *)
Definition describes (h : gmap addr block) (a : addr) (d : log_src_descr_t) : Prop :=
  descr_source d = ElementSource a /\
  exists e, h !! a = Some (ElementBlock e) /\ descr_min_log_level d = min_log_level e.

(** One turn of the loop of [log_register_ex]: the entry's name is read and
    handed to [log_register] with the entry's level. *)
Definition register_descr (d : log_src_descr_t) : M bool :=
  let! src := load_str (descr_source d) in
  log_register src (descr_min_log_level d).

(** The entries of a batch registered one after the other, each with
    success. *)
Inductive registered_in_order : list log_src_descr_t -> process -> process -> Prop :=
  | in_order_nil p : registered_in_order [] p p
  | in_order_cons d ds p q q' :
      register_descr d p = Ok true q ->
      registered_in_order ds q q' ->
      registered_in_order (d :: ds) p q'.

(** A batch entry for a caller's string. *)
Definition descr_of (name : string) (lvl : log_level_t) : log_src_descr_t :=
  {| descr_source := CallerString name; descr_min_log_level := lvl |}.

(** *** Reading a dump *)

(** The names and levels a reader of the entries [ds] sees, each name read
    through the entry's [source] pointer. *)
Fixpoint read_entries (ds : list log_src_descr_t) : M (list (string * log_level_t)) :=
  match ds with
  | [] => ret []
  | d :: rest =>
      let! name := load_str (descr_source d) in
      let! others := read_entries rest in
      ret ((name, descr_min_log_level d) :: others)
  end.

(** What a reader of the dump at [d] sees: its global level, its entry count
    and its (name, level) pairs. *)
Definition read_dump (d : addr) : M (log_level_t * nat * list (string * log_level_t)) :=
  let! h := get_heap in
  match h !! d with
  | Some (DumpBlock D) =>
      let! entries := read_entries (log_src_descrs D) in
      ret (global_level D, num_log_src_descr D, entries)
  | _ => raise Undefined
  end.

(** The calls that register, unregister or change a level. *)
Definition registry_call (c : api_call) : Prop :=
  match c with
  | Call_log_register _ _ | Call_log_register_ex _ _
  | Call_log_unregister _ | Call_log_set_log_level _ => True
  | _ => False
  end.

(** The dump as a copy that later registry calls cannot affect: what is read
    from it stays what was read right after the dump. *)
Definition snapshot_is_independent : Prop :=
  forall p d p1 cs p2 v,
    reachable p ->
    log_src_dump p = Ok (Some d) p1 ->
    Forall registry_call cs ->
    exec_all cs p1 = Ok tt p2 ->
    read_dump d p1 = Ok v p1 ->
    read_dump d p2 = Ok v p2.

(** The element at [a] is live and carries the name [name]. *)
Definition names (a : addr) (name : string) (p : process) : Prop :=
  exists e, heap p !! a = Some (ElementBlock e) /\ source e = name.

(** The (name, level) pair of the element at [a]. *)
Definition entry_of (h : gmap addr block) (a : addr) : string * log_level_t :=
  match h !! a with
  | Some (ElementBlock e) => (source e, min_log_level e)
  | _ => (EmptyString, LL_INVALID)
  end.

(** Reading the entry [x] in the process [q] yields the pair [e]. *)
Definition reads (q : process) (x : log_src_descr_t) (e : string * log_level_t) : Prop :=
  load_str (descr_source x) q = Ok e.1 q /\ e.2 = descr_min_log_level x.

(** Calls made after a dump of [process_net]: the level of ["NET"] and the
    global level change, and a source that is not registered is
    unregistered. *)
Definition calls_after_dump : list api_call :=
  [Call_log_register "NET" LL_ERROR; Call_log_set_log_level LL_NONE;
   Call_log_unregister "DISK"].

(** A string with every letter in lower case. *)
Fixpoint fold_case (s : string) : string :=
  match s with
  | EmptyString => EmptyString
  | String c rest => String (tolower c) (fold_case rest)
  end.

(** ** The layout of a dump line *)

(** Two upper-case hexadecimal digits for a byte. *)
Definition hex_pair (b : ascii) : list ascii :=
  let n := Z.of_N (N_of_ascii b) in [hex_digit (n / 16); hex_digit (n mod 16)].

(** A byte as text: itself when printable, a dot otherwise. *)
Definition text_char (c : ascii) : ascii := if isprint c then c else "."%char.

(** The hex field of a row: a space and two digits per byte. *)
Definition hex_groups (row : list ascii) : list ascii :=
  concat (map (fun b => SP :: hex_pair b) row).

(** The line for the bytes [row] that start at byte [first] of the buffer:
    the ten characters of the offset field, the hex groups, three blanks
    for each byte missing from sixteen, the separator, and the text. *)
Definition line_text (first : Z) (row : list ascii) : list ascii :=
  take 10 (fmt_X LOG_RAW_ADDR_FIELD_WIDTH first ++ [SP; SP]) ++
  hex_groups row ++
  repeat SP (3 * (16 - length row)) ++
  [SP; "|"%char; SP] ++
  map text_char row.

(** The bytes of row [offset] of a buffer of [buf_in_size] bytes. *)
Definition row_bytes (buf_in : list ascii) (buf_in_size offset : Z) : list ascii :=
  take (Z.to_nat (Z.min 16 (buf_in_size - offset * 16))) (drop (Z.to_nat (offset * 16)) buf_in).

(** Twenty bytes to dump: printable text, a control character at the end. *)
Definition buffer20 : list ascii :=
  list_ascii_of_string "Hello, world! 12345" ++ ["001"%char].

(** The two build switches off, midnight on the clock, and an array
    [hexdump_line] that holds a hundred times the letter x. *)
Definition build_plain : build_config :=
  {| DO_LOG_FUNCTION_NAME := false; DO_LOG_CURRENT_TIME := false |}.
Definition midnight : tag_log_datetime :=
  {| year := 2000; month := 1; day := 1; hour := 0; min := 0; sec := 0; usec := 0 |}.
Definition stale_line : list ascii := repeat "x"%char 100.

(** [process_net] with the global level and the level of ["NET"] lowered to
    [LL_RAW]. *)
Definition process_raw : process :=
  {| heap := {[ 1%positive := ElementBlock {| source := "NET"; min_log_level := LL_RAW |} ]};
     log_ctx := {| source_hm := [1%positive]; ctx_min_log_level := LL_RAW;
                   mutex := MutexUninit; use_mutex := false; initialized := true |};
     allocator := [];
     stderr := [] |}.

(** The process after [log_init(LL_INFO, true)]: the mutex armed, nothing
    registered, one allocation to come. *)
Definition process_thread_safe : process :=
  {| heap := ∅;
     log_ctx := {| source_hm := []; ctx_min_log_level := LL_INFO;
                   mutex := MutexUnlocked; use_mutex := true; initialized := true |};
     allocator := [Some 1%positive];
     stderr := [] |}.

(** The shape of the context between two calls: the lock is not held; a
    context that was never initialised has an empty registry; an initialised
    one has a real global level and, where it is thread-safe, a mutex that
    has been initialised. *)
Definition context_ok (p : process) : Prop :=
  mutex (log_ctx p) <> MutexLocked /\
  (initialized (log_ctx p) = false -> source_hm (log_ctx p) = []) /\
  (initialized (log_ctx p) = true -> valid_level (ctx_min_log_level (log_ctx p))) /\
  (initialized (log_ctx p) = true -> use_mutex (log_ctx p) = true ->
     mutex (log_ctx p) <> MutexUninit).

(** What the gate answers for a request of level [s] from [src]. *)
Definition gate (p : process) (src : string) (s : log_level_t) : bool :=
  match registered_level p src with
  | Some lvl => check_log_level s (ctx_min_log_level (log_ctx p)) && check_log_level s lvl
  | None => false
  end.

(** The rows of the dump of the first [len] bytes of [buf], as [log_raw]
    writes them: one line for every 16 bytes begun. *)
Definition dump_row (buf : list ascii) (len : Z) (k : nat) : string :=
  string_of_list_ascii (line_text (Z.of_nat k * 16) (row_bytes buf len (Z.of_nat k))) +:+ LF.

Definition dump_rows (buf : list ascii) (len : Z) : list string :=
  map (dump_row buf len) (seq 0 (Z.to_nat ((len + 15) / 16))).

(** Splitting a goal into its conjuncts, definitions left folded. *)
Ltac split_ands := repeat match goal with |- _ /\ _ => split end.

(** The process with ["NET"] at [LL_DEBUG] and ["DISK"] at [LL_TRACE]
    registered, one allocation to come. *)
Definition process_net_disk : process :=
  {| heap := {[ 1%positive := ElementBlock {| source := "NET"; min_log_level := LL_DEBUG |};
                2%positive := ElementBlock {| source := "DISK"; min_log_level := LL_TRACE |} ]};
     log_ctx := {| source_hm := [1%positive; 2%positive]; ctx_min_log_level := LL_INFO;
                   mutex := MutexUninit; use_mutex := false; initialized := true |};
     allocator := [Some 3%positive];
     stderr := [] |}.

(** Calls made after a dump of [process_net_disk]: the level of ["DISK"] and
    the global level change, and ["NET"] is unregistered. *)
Definition calls_after_dump_of_two : list api_call :=
  [Call_log_register "DISK" LL_ERROR; Call_log_set_log_level LL_NONE;
   Call_log_unregister "NET"].

(** What the entry [x] of a dump still gives in the process [q] that the
    calls [cs] led to, against the pair [e] it gave at the dump: the level
    stored in the entry, and the name read through its [source] pointer if no
    call of [cs] unregisters that name. *)
Definition entry_kept (cs : list api_call) (q : process)
    (x : log_src_descr_t) (e : string * log_level_t) : Prop :=
  descr_min_log_level x = e.2 /\
  (Forall (fun c => c <> Call_log_unregister e.1) cs ->
   load_str (descr_source x) q = Ok e.1 q).

(** * Properties *)

(** ** Lemmas on the model *)

Lemma hash_find_Some h hm key a :
  hash_find h hm key = Some a ->
  a ∈ hm /\ exists e, h !! a = Some (ElementBlock e) /\ source e = key.
Proof.
  unfold hash_find. intros H. apply find_some in H as [Hin Hk].
  split.
  - apply list_elem_of_In. by apply in_rev.
  - unfold key_matches in Hk. destruct (h !! a) as [[e|d]|]; try discriminate.
    exists e. split; [done|]. by apply String.eqb_eq.
Qed.

Lemma hash_find_None h hm key :
  hash_find h hm key = None <->
  forall a e, a ∈ hm -> h !! a = Some (ElementBlock e) -> source e <> key.
Proof.
  unfold hash_find. split.
  - intros H a e Hin Ha Heq.
    eapply find_none in H; [|apply in_rev; rewrite rev_involutive; apply list_elem_of_In, Hin].
    unfold key_matches in H. rewrite Ha in H. apply String.eqb_neq in H. done.
  - intros H. destruct (find _ _) as [a|] eqn:Hf; [|done].
    apply find_some in Hf as [Hin Hk]. unfold key_matches in Hk.
    destruct (h !! a) as [[e|d]|] eqn:Ha; try discriminate.
    apply String.eqb_eq in Hk. exfalso. eapply H; [|exact Ha|exact Hk].
    apply list_elem_of_In. by apply in_rev.
Qed.

Lemma registered_level_None p src :
  registered_level p src = None <-> ~ registered p src.
Proof.
  unfold registered_level, registered. split.
  - intros H (a & e & Hin & Ha & Hs).
    destruct (hash_find _ _ _) as [b|] eqn:Hf.
    + apply hash_find_Some in Hf as (_ & e' & Hb & _). by rewrite Hb in H.
    + rewrite hash_find_None in Hf. by eapply Hf.
  - intros H. destruct (hash_find _ _ _) as [b|] eqn:Hf; [|done].
    apply hash_find_Some in Hf as (Hin & e & Hb & Hs). exfalso. apply H. eauto.
Qed.

Lemma entries_named_same_keys p p' src :
  source_hm (log_ctx p') = source_hm (log_ctx p) ->
  (forall a, a ∈ source_hm (log_ctx p) ->
     key_matches (heap p') src a = key_matches (heap p) src a) ->
  entries_named p' src = entries_named p src.
Proof.
  unfold entries_named. intros -> H. apply filter_ext_in.
  intros a Ha. apply H. by apply list_elem_of_In.
Qed.

Lemma hash_find_entries p src :
  match hash_find (heap p) (source_hm (log_ctx p)) src with
  | Some a => a ∈ entries_named p src
  | None => entries_named p src = []
  end.
Proof.
  unfold entries_named. destruct (hash_find _ _ _) as [a|] eqn:Hf.
  - unfold hash_find in Hf. apply find_some in Hf as [Hin Hk].
    apply list_elem_of_In, filter_In. split; [by apply in_rev|done].
  - unfold hash_find in Hf.
    assert (forall a, In a (source_hm (log_ctx p)) -> key_matches (heap p) src a = false) as Hno.
    { intros a Ha. exact (find_none _ _ Hf a (proj1 (in_rev _ _) Ha)). }
    clear Hf. revert Hno. generalize (source_hm (log_ctx p)). intros l.
    induction l as [|a l IH]; intros Hno; [done|]. cbn.
    rewrite Hno by (by left). apply IH. intros b Hb. apply Hno. by right.
Qed.

(** *** [log_register] *)

Lemma log_register_effect src lvl p r p' :
  log_register src lvl p = Ok r p' -> register_effect src lvl p r p'.
Proof.
  destruct p as [h [hm g m um ini] al err]. unfold log_register. intros H.
  run_inv; subst; try (constructor; fail).
  all: try (eapply register_overwrite; eauto; fail).
  all: try (eapply (register_no_memory _ _ (Build_process _ _ _ _)); cbn; eauto; fail).
  all: rewrite insert_insert_eq;
    match goal with
    | Ha : _ !! ?a = None |- register_effect _ _ ?P true _ =>
        let R := fresh in
        pose proof (register_insert src lvl P a) as R;
        unfold set_source_hm in R; cbn in R; eapply R; eauto
    end.
  all: by rewrite Z.gtb_ltb, Z.ltb_ge in *.
Qed.

Lemma log_register_overwrite_run src lvl p a e :
  mutex_usable p -> initialized (log_ctx p) = true ->
  invalid_level lvl = false -> strlen src <= LOG_SRC_STORED_MAX_SIZE ->
  hash_find (heap p) (source_hm (log_ctx p)) src = Some a ->
  heap p !! a = Some (ElementBlock e) ->
  log_register src lvl p =
    Ok true (set_heap (<[a := ElementBlock {| source := source e; min_log_level := lvl |}]> (heap p)) p).
Proof.
  intros Hm Hi Hl Hs Hf Ha. open_process p. subst.
  apply Z.ltb_ge in Hs. rewrite <- Z.gtb_ltb in Hs.
  unfold log_register. split_mutex; run_fwd; done.
Qed.

Lemma log_register_insert_run src lvl p a rest :
  mutex_usable p -> initialized (log_ctx p) = true ->
  invalid_level lvl = false -> strlen src <= LOG_SRC_STORED_MAX_SIZE ->
  hash_find (heap p) (source_hm (log_ctx p)) src = None ->
  allocator p = Some a :: rest -> heap p !! a = None ->
  log_register src lvl p =
    Ok true
      {| heap := <[a := ElementBlock
                    {| source := strncpy_terminated src (LOG_SRC_STORED_MAX_SIZE - 1);
                       min_log_level := lvl |}]> (heap p);
         log_ctx := set_source_hm (source_hm (log_ctx p) ++ [a]) (log_ctx p);
         allocator := rest;
         stderr := stderr p |}.
Proof.
  intros Hm Hi Hl Hs Hf Hal Ha. open_process p. subst.
  apply Z.ltb_ge in Hs. rewrite <- Z.gtb_ltb in Hs.
  unfold log_register. split_mutex; run_fwd.
  all: rewrite lookup_insert_eq; cbn; by rewrite insert_insert_eq.
Qed.

Lemma log_get_src_level_run src p :
  mutex_usable p ->
  log_get_src_level src p = Ok (default LL_INVALID (registered_level p src)) p.
Proof.
  intros Hm. open_process p. unfold log_get_src_level.
  split_mutex; run_fwd.
  all: destruct (hash_find h hm src) as [a|] eqn:Hf; cbn; [|done].
  all: apply hash_find_Some in Hf as (_ & e & Ha & _); rewrite Ha; done.
Qed.

(** *** The gate *)

Lemma is_log_allowed_run src s p :
  LL_INVALID < s < LL_CNT ->
  is_log_allowed src s p =
    Ok (match registered_level p src with
        | Some lvl => check_log_level s (ctx_min_log_level (log_ctx p)) && check_log_level s lvl
        | None => false
        end) p.
Proof.
  intros [Hlo Hhi]. open_process p. unfold is_log_allowed.
  apply Z.gt_lt_iff, Z.gtb_gt in Hlo. apply Z.ltb_lt in Hhi.
  rewrite Hlo, Hhi. run_fwd.
  destruct (check_log_level s g) eqn:Hg; cbn.
  - destruct (hash_find h hm src) as [a|] eqn:Hf; cbn; [|done].
    apply hash_find_Some in Hf as (_ & e & Ha & _). rewrite Ha.
    by destruct (check_log_level s (min_log_level e)).
  - by repeat case_match.
Qed.

Lemma log_will_be_printed_run src s p :
  mutex_usable p -> LL_INVALID < s < LL_CNT ->
  log_will_be_printed src s p = is_log_allowed src s p.
Proof.
  intros Hm Hs. unfold log_will_be_printed.
  open_process p. split_mutex; run_fwd.
  all: rewrite !is_log_allowed_run by done; cbn; done.
Qed.

Lemma registered_level_single_entry p src a e :
  entries_named p src = [a] -> heap p !! a = Some (ElementBlock e) ->
  registered_level p src = Some (min_log_level e).
Proof.
  intros Hone Ha. pose proof (hash_find_entries p src) as Hf. unfold registered_level.
  destruct (hash_find _ _ _) as [b|]; [|congruence].
  rewrite Hone in Hf. apply list_elem_of_singleton in Hf as ->. by rewrite Ha.
Qed.

(** C1. For a severity [s] with [LL_INVALID < s < LL_NONE] and global
    threshold [g]: a source on which the lookup finds the level [lvl], in
    particular a source with a single element [e] in the registry and
    [lvl] the level of [e], is let through by [is_log_allowed] exactly when
    [s >= max(g, lvl)]; a source that is not registered is denied whatever
    [g] and [s] are; and [log_will_be_printed] gives the answer of
    [is_log_allowed]. *)
Theorem gate_effective_threshold p src s g :
  LL_INVALID < s < LL_NONE ->
  ctx_min_log_level (log_ctx p) = g ->
  (forall lvl, registered_level p src = Some lvl ->
     is_log_allowed src s p = Ok (s >=? Z.max g lvl) p) /\
  (forall a e, entries_named p src = [a] -> heap p !! a = Some (ElementBlock e) ->
     is_log_allowed src s p = Ok (s >=? Z.max g (min_log_level e)) p) /\
  (~ registered p src -> is_log_allowed src s p = Ok false p) /\
  (mutex_usable p -> log_will_be_printed src s p = is_log_allowed src s p).
Proof.
  intros Hs <-.
  assert (LL_INVALID < s < LL_CNT) as Hs' by (unfold LL_NONE, LL_CNT in *; lia).
  assert (forall lvl, registered_level p src = Some lvl ->
            is_log_allowed src s p = Ok (s >=? Z.max (ctx_min_log_level (log_ctx p)) lvl) p)
    as Hfound.
  { intros lvl Hl. rewrite is_log_allowed_run, Hl by done. f_equal.
    unfold check_log_level. rewrite !Z.geb_leb.
    destruct (Z.leb_spec (ctx_min_log_level (log_ctx p)) s),
             (Z.leb_spec lvl s), (Z.leb_spec (Z.max (ctx_min_log_level (log_ctx p)) lvl) s);
      try done; lia. }
  split; [exact Hfound|]. split; [|split].
  - intros a e Hone Ha. apply Hfound. by eapply registered_level_single_entry.
  - intros Hn. apply registered_level_None in Hn.
    by rewrite is_log_allowed_run, Hn.
  - intros Hm. by apply log_will_be_printed_run.
Qed.

Lemma gate_effective_threshold_witness :
  is_log_allowed "NET" LL_WARNING process_net = Ok true process_net /\
  is_log_allowed "NET" LL_DEBUG process_net = Ok false process_net /\
  is_log_allowed "UNKNOWN" LL_ERROR process_net = Ok false process_net.
Proof.
  assert (LL_INVALID < LL_WARNING < LL_NONE) as H5 by (unfold LL_INVALID, LL_WARNING, LL_NONE; lia).
  assert (LL_INVALID < LL_DEBUG < LL_NONE) as H3 by (unfold LL_INVALID, LL_DEBUG, LL_NONE; lia).
  assert (LL_INVALID < LL_ERROR < LL_NONE) as H6 by (unfold LL_INVALID, LL_ERROR, LL_NONE; lia).
  split; [|split].
  - exact (proj1 (gate_effective_threshold process_net "NET" LL_WARNING LL_INFO H5 eq_refl)
             LL_DEBUG eq_refl).
  - exact (proj1 (gate_effective_threshold process_net "NET" LL_DEBUG LL_INFO H3 eq_refl)
             LL_DEBUG eq_refl).
  - apply (proj1 (proj2 (proj2
      (gate_effective_threshold process_net "UNKNOWN" LL_ERROR LL_INFO H6 eq_refl)))).
    apply registered_level_None. vm_compute. reflexivity.
Defined.

(** *** [log_init] and [log_destroy] *)

(** [log_init] always returns; it succeeds exactly when the context is not
    yet initialised, the level is a real level, and the mutex, if asked for,
    could be initialised. *)
Lemma log_init_result lvl ts ok p :
  exists p',
    log_init lvl ts ok p =
      Ok (negb (initialized (log_ctx p)) && negb (invalid_level lvl) && (negb ts || ok)) p' /\
    initialized (log_ctx p') =
      initialized (log_ctx p) || (negb (invalid_level lvl) && (negb ts || ok)).
Proof.
  open_process p. unfold log_init.
  destruct ini, (invalid_level lvl), ts, ok; run_fwd; eexists; split; reflexivity.
Qed.

Lemma log_init_fails_iff lvl ts ok p :
  (exists p', log_init lvl ts ok p = Ok false p') <->
  invalid_level lvl = true \/ (ts = true /\ ok = false) \/ initialized (log_ctx p) = true.
Proof.
  destruct (log_init_result lvl ts ok p) as (p' & Hrun & _). rewrite Hrun. split.
  - intros (q & Hq). injection Hq as Hq _.
    destruct (initialized (log_ctx p)), (invalid_level lvl), ts, ok; cbn in Hq; auto; discriminate.
  - intros H. exists p'. f_equal.
    destruct H as [->|[[-> ->]| ->]]; cbn;
      repeat (rewrite ?andb_false_r, ?andb_false_l; cbn); try done.
    all: by destruct (initialized (log_ctx p)), (invalid_level lvl).
Qed.

Lemma destroy_iter_flags l q u q' :
  destroy_iter l q = Ok u q' ->
  initialized (log_ctx q') = initialized (log_ctx q) /\
  use_mutex (log_ctx q') = use_mutex (log_ctx q) /\
  mutex (log_ctx q') = mutex (log_ctx q) /\
  ctx_min_log_level (log_ctx q') = ctx_min_log_level (log_ctx q).
Proof.
  revert q. induction l as [|a l IH]; intros q Hq.
  - by run_inv.
  - destruct q as [qh [qhm qg qm qum qini] qal qerr].
    cbn in Hq. unfold bind at 1 in Hq. unfold HASH_DEL in Hq.
    unfold_prims. cbn in Hq. destruct (qh !! a); [|done].
    apply IH in Hq. exact Hq.
Qed.

(** [log_destroy] leaves the [initialized] flag as it found it. *)
Lemma log_destroy_keeps_initialized ok p r p' :
  log_destroy ok p = Ok r p' ->
  initialized (log_ctx p') = initialized (log_ctx p).
Proof.
  open_process p. unfold log_destroy. intros H.
  destruct ini; [|by run_inv].
  unfold_prims. cbn in H.
  destruct um, m; cbn in H; try done.
  all: destruct (destroy_iter hm _) as [[] q1|] eqn:Hd; [|done].
  all: apply destroy_iter_flags in Hd as (Hi & Hu & Hm & _).
  all: destruct q1 as [qh [qhm qg qm qum qini] qal qerr]; cbn in *; subst.
  all: destruct ok; cbn in H; simplify_eq; reflexivity.
Qed.

(** *** What the other entry points can change *)

Lemma log_init_effect lvl ts ok p r p' :
  log_init lvl ts ok p = Ok r p' ->
  heap p' = heap p /\ source_hm (log_ctx p') = source_hm (log_ctx p) /\
  allocator p' = allocator p /\ stderr p' = stderr p.
Proof. open_process p. unfold log_init. intros H. by run_inv. Qed.

Lemma log_set_log_level_effect lvl p r p' :
  log_set_log_level lvl p = Ok r p' ->
  (r = false /\ p' = p) \/
  (r = true /\ invalid_level lvl = false /\ initialized (log_ctx p) = true /\
   p' = set_log_ctx (set_ctx_min_log_level lvl (log_ctx p)) p).
Proof.
  open_process p. unfold log_set_log_level. intros H.
  run_inv; auto; right; by destruct ini.
Qed.

Lemma log_unregister_effect src p u p' :
  log_unregister src p = Ok u p' ->
  p' = p \/
  exists a, hash_find (heap p) (source_hm (log_ctx p)) src = Some a /\
    p' = set_heap (delete a (heap p))
           (set_log_ctx (set_source_hm (filter (fun x => x ≠ a) (source_hm (log_ctx p)))
                           (log_ctx p)) p).
Proof.
  open_process p. unfold log_unregister. intros H.
  run_inv; auto; right; eauto.
Qed.

Lemma log_will_be_printed_effect src s p r p' :
  log_will_be_printed src s p = Ok r p' -> p' = p.
Proof.
  open_process p. unfold log_will_be_printed, is_log_allowed. intros H. by run_inv.
Qed.

Lemma log_get_src_level_effect src p r p' :
  log_get_src_level src p = Ok r p' -> p' = p.
Proof. open_process p. unfold log_get_src_level. intros H. by run_inv. Qed.

Lemma log_get_global_level_effect p r p' :
  log_get_global_level p = Ok r p' -> p' = p.
Proof. open_process p. unfold log_get_global_level. intros H. by run_inv. Qed.

Lemma log_src_dump_delete_effect d p u p' :
  log_src_dump_delete d p = Ok u p' ->
  p' = p \/
  exists a D, d = Some a /\ heap p !! a = Some (DumpBlock D) /\ p' = set_heap (delete a (heap p)) p.
Proof.
  open_process p. unfold log_src_dump_delete. intros H.
  run_inv; auto; right; eauto.
Qed.

Lemma log_destroy_effect ok p r p' :
  log_destroy ok p = Ok r p' ->
  p' = p \/ source_hm (log_ctx p') = [].
Proof.
  open_process p. unfold log_destroy. intros H.
  destruct ini; [|left; by run_inv]. right.
  unfold_prims. cbn in H.
  destruct um, m; cbn in H; try done.
  all: destruct (destroy_iter hm _) as [[] q1|] eqn:Hd; [|done].
  all: apply destroy_iter_flags in Hd as (Hi & Hu & Hm & _).
  all: destruct q1 as [qh [qhm qg qm qum qini] qal qerr]; cbn in *; subst.
  all: destruct ok; cbn in H; simplify_eq; reflexivity.
Qed.

Lemma log_raw_loop_effect fuel : forall buffer len i hexdump_line q u q',
  log_raw_loop buffer len i hexdump_line fuel q = Ok u q' ->
  heap q' = heap q /\ log_ctx q' = log_ctx q /\ allocator q' = allocator q.
Proof.
  induction fuel as [|fuel IH]; intros buffer len i hexdump_line q u q' H;
    cbn [log_raw_loop] in H; [done|].
  destruct (i <? len); [|unfold ret in H; by simplify_eq].
  destruct (compose_hexdump_line _ _ _ _) as [line'|]; [|done].
  destruct (c_str line') as [text|]; [|done].
  unfold bind at 1 in H. unfold fprintf_stderr at 1 in H.
  apply IH in H. exact H.
Qed.

(** [log_log] and [log_raw] write to [stderr] and change nothing else. *)
Lemma log_raw_effect cfg dt hexdump_line src file line function buffer len p u p' :
  log_raw cfg dt hexdump_line src file line function buffer len p = Ok u p' ->
  heap p' = heap p /\ log_ctx p' = log_ctx p /\ allocator p' = allocator p.
Proof.
  unfold log_raw. intros H.
  set (body := match buffer with Some _ => _ | None => _ end) in H.
  assert (forall q v q', body q = Ok v q' ->
            heap q' = heap q /\ log_ctx q' = log_ctx q /\ allocator q' = allocator q) as Hbody.
  { subst body. destruct buffer as [buf|]; intros q v q' Hq.
    - by eapply log_raw_loop_effect.
    - unfold fprintf_stderr in Hq. by simplify_eq. }
  clearbody body. set (text := snprintf _ _) in H. clearbody text.
  open_process p. unfold is_log_allowed, fprintf_stderr in H.
  run_inv; try done.
  all: match goal with
       | Hq : _ = Ok _ ?p1 |- heap ?p1 = _ /\ _ =>
           apply Hbody in Hq as (Hh & Hc & Ha); destruct p1 as [h1 c1 al1 err1]
       end.
  all: cbn in *; by subst.
Qed.

Lemma log_log_effect cfg dt render src file line function l fmt p u p' :
  log_log cfg dt render src file line function l fmt p = Ok u p' ->
  heap p' = heap p /\ log_ctx p' = log_ctx p /\ allocator p' = allocator p.
Proof.
  unfold log_log. intros H. set (text := render _) in H. clearbody text.
  open_process p. unfold is_log_allowed, fprintf_stderr in H.
  by run_inv.
Qed.

(** *** [log_src_dump] *)

Lemma dump_loop_effect sz l p ds p' :
  dump_loop sz l p = Ok ds p' ->
  p' = p /\ Forall2 (describes (heap p)) (take sz l) ds.
Proof.
  revert l ds p'. induction sz as [|n IH]; intros l ds p' H.
  - destruct l; cbn in H; unfold ret in H; simplify_eq; by split; [|constructor].
  - destruct l as [|a l]; cbn in H.
    + unfold ret in H. simplify_eq. by split; [|constructor].
    + unfold bind at 1 in H. unfold load_elt at 1 in H.
      destruct (heap p !! a) as [[e|?]|] eqn:Ha; try done.
      unfold bind at 1 in H.
      destruct (dump_loop n l p) as [rest q|] eqn:Hr; [|done].
      apply IH in Hr as [-> Hrest]. unfold ret in H. simplify_eq.
      split; [done|]. cbn. constructor; [|done]. split; [done|]. by exists e.
Qed.

Lemma describes_insert_ne h a d x b :
  x ≠ a -> describes (<[x := b]> h) a d -> describes h a d.
Proof.
  intros Hne (Hs & e & Ha & Hl). rewrite lookup_insert_ne in Ha by done.
  split; [done|]. by exists e.
Qed.

Lemma log_src_dump_effect p r p' :
  log_src_dump p = Ok r p' ->
  (r = None /\ (p' = p \/ exists rest, allocator p = None :: rest /\ p' = set_allocator rest p)) \/
  (exists d ds rest,
     r = Some d /\ allocator p = Some d :: rest /\ heap p !! d = None /\
     Forall2 (describes (heap p)) (source_hm (log_ctx p)) ds /\
     p' = set_heap (<[d := DumpBlock {| global_level := ctx_min_log_level (log_ctx p);
                                        num_log_src_descr := length (source_hm (log_ctx p));
                                        log_src_descrs := ds |}]> (heap p))
            (set_allocator rest p)).
Proof.
  open_process p. unfold log_src_dump. intros H.
  destruct ini; [|left; run_inv; auto].
  unfold_prims. cbn in H.
  destruct um, m; cbn in H; try done.
  all: destruct al as [|[d|] rest]; cbn in H; simplify_eq; auto.
  all: try (left; split; [done|]; right; eexists; split; [reflexivity|]; done).
  all: destruct (h !! d) eqn:Hd; cbn in H; try done.
  all: match type of H with
       | context [dump_loop ?n ?l ?q] =>
           destruct (dump_loop n l q) as [ds q'|] eqn:Hl; [|done];
           apply dump_loop_effect in Hl as [-> Hds]
       end.
  all: cbn in *; simplify_eq; right; exists d, ds, rest.
  all: rewrite firstn_all in Hds.
  all: repeat split; try done.
  all: try (eapply Forall2_impl; [exact Hds|]; intros a x Hx;
            destruct (decide (d = a)) as [->|Hne];
            [destruct Hx as (_ & e & He & _); rewrite lookup_insert_eq in He; discriminate
            |by eapply describes_insert_ne]).
  all: unfold_setters; cbn; by rewrite insert_insert_eq.
Qed.

(** *** [log_register_ex] *)

Lemma load_str_effect s p r p' : load_str s p = Ok r p' -> p' = p.
Proof. destruct s; intros H; by run_inv. Qed.

(** Whatever every single registration preserves, a batch preserves. *)
Lemma log_register_ex_loop_preserves (P : process -> Prop) :
  (forall src lvl p r p', register_effect src lvl p r p' -> P p -> P p') ->
  forall n ds p r p', log_register_ex_loop ds n p = Ok r p' -> P p -> P p'.
Proof.
  intros Hstep. induction n as [|n IH]; intros ds p r p' H HP.
  - cbn in H. unfold ret in H. by simplify_eq.
  - destruct ds as [|d ds]; cbn in H; [done|].
    unfold bind at 1 in H.
    destruct (load_str _ p) as [src q|] eqn:Hs; [|done].
    apply load_str_effect in Hs as ->.
    unfold bind at 1 in H.
    destruct (log_register src _ p) as [ok q|] eqn:Hr; [|done].
    apply log_register_effect in Hr. apply Hstep in Hr; [|done].
    destruct ok.
    + by eapply IH.
    + unfold ret in H. by simplify_eq.
Qed.

Lemma log_register_ex_preserves (P : process -> Prop) :
  (forall src lvl p r p', register_effect src lvl p r p' -> P p -> P p') ->
  forall n ds p r p', log_register_ex ds n p = Ok r p' -> P p -> P p'.
Proof.
  intros Hstep n ds p r p' H HP. unfold log_register_ex in H.
  unfold bind at 1 in H. unfold get_ctx in H.
  destruct (negb _); [unfold ret in H; by simplify_eq|].
  destruct ds as [ds|].
  - by eapply log_register_ex_loop_preserves.
  - destruct (0 <? n)%nat; unfold ret in H; by simplify_eq.
Qed.

(** *** The registry invariant *)

Lemma invalid_level_false lvl : invalid_level lvl = false <-> valid_level lvl.
Proof.
  unfold invalid_level, valid_level. rewrite orb_false_iff, Z.leb_gt, Z.geb_leb, Z.leb_gt. lia.
Qed.

Lemma register_effect_registry_ok src lvl p r p' :
  register_effect src lvl p r p' -> registry_ok p -> registry_ok p'.
Proof.
  intros H [Hnd Hlive]. destruct H as [|rest Hal|a e Hl Hf Ha|a rest Hl Hs Hf Hal Ha]; cbn.
  - done.
  - done.
  - split; [done|]. cbn. intros b Hb.
    destruct (decide (a = b)) as [->|Hne].
    + rewrite lookup_insert_eq. eexists. split; [done|]. by apply invalid_level_false.
    + rewrite lookup_insert_ne by done. by apply Hlive.
  - assert (a ∉ source_hm (log_ctx p)) as Hfresh.
    { intros Hin. apply Hlive in Hin as (e & He & _). congruence. }
    split; cbn.
    + apply NoDup_app. split; [done|]. split; [|apply NoDup_singleton].
      intros x Hx Hx'. apply list_elem_of_singleton in Hx'. by subst.
    + intros b Hb. apply elem_of_app in Hb as [Hb|Hb].
      * rewrite lookup_insert_ne by (intros ->; done). by apply Hlive.
      * apply list_elem_of_singleton in Hb as ->. rewrite lookup_insert_eq.
        eexists. split; [done|]. by apply invalid_level_false.
Qed.

Lemma exec_registry_ok c p u p' :
  exec c p = Ok u p' -> registry_ok p -> registry_ok p'.
Proof.
  intros H Hok. destruct c; cbn in H; unfold forget, bind in H.
  - destruct (log_init _ _ _ p) as [r q|] eqn:Hq; [|done]. unfold ret in H. simplify_eq.
    apply log_init_effect in Hq as (Hh & Hs & _). unfold registry_ok. by rewrite Hh, Hs.
  - destruct (log_set_log_level _ p) as [r q|] eqn:Hq; [|done]. unfold ret in H. simplify_eq.
    apply log_set_log_level_effect in Hq as [[_ ->]|(_ & _ & _ & ->)]; done.
  - destruct (log_register _ _ p) as [r q|] eqn:Hq; [|done]. unfold ret in H. simplify_eq.
    eapply register_effect_registry_ok; [|done]. by eapply log_register_effect.
  - destruct (log_register_ex _ _ p) as [r q|] eqn:Hq; [|done]. unfold ret in H. simplify_eq.
    eapply (log_register_ex_preserves registry_ok); [|done..].
    intros. by eapply register_effect_registry_ok.
  - apply log_unregister_effect in H as [->|(a & Hf & ->)]; [done|].
    destruct Hok as [Hnd Hlive]. split; cbn.
    + by apply NoDup_filter.
    + intros b Hb. apply list_elem_of_filter in Hb as [Hne Hb].
      rewrite lookup_delete_ne by done. by apply Hlive.
  - destruct (log_destroy _ p) as [r q|] eqn:Hq; [|done]. unfold ret in H. simplify_eq.
    apply log_destroy_effect in Hq as [->|Hq]; [done|].
    split; rewrite Hq; [apply NoDup_nil_2|]. intros a Ha. by apply elem_of_nil in Ha.
  - destruct (log_will_be_printed _ _ p) as [r q|] eqn:Hq; [|done]. unfold ret in H. simplify_eq.
    by apply log_will_be_printed_effect in Hq as ->.
  - destruct (log_get_src_level _ p) as [r q|] eqn:Hq; [|done]. unfold ret in H. simplify_eq.
    by apply log_get_src_level_effect in Hq as ->.
  - destruct (log_get_global_level p) as [r q|] eqn:Hq; [|done]. unfold ret in H. simplify_eq.
    by apply log_get_global_level_effect in Hq as ->.
  - destruct (log_src_dump p) as [r q|] eqn:Hq; [|done]. unfold ret in H. simplify_eq.
    apply log_src_dump_effect in Hq
      as [(_ & [->|(rest & _ & ->)])|(d & ds & rest & _ & _ & Hd & _ & ->)]; try done.
    destruct Hok as [Hnd Hlive]. split; [done|]. cbn. intros a Ha.
    rewrite lookup_insert_ne; [by apply Hlive|].
    intros ->. apply Hlive in Ha as (e & He & _). congruence.
  - apply log_src_dump_delete_effect in H as [->|(a & D & _ & Ha & ->)]; [done|].
    destruct Hok as [Hnd Hlive]. split; [done|]. cbn. intros b Hb.
    rewrite lookup_delete_ne; [by apply Hlive|].
    intros ->. apply Hlive in Hb as (e & He & _). congruence.
  - apply log_log_effect in H as (Hh & Hc & _). unfold registry_ok. by rewrite Hh, Hc.
  - apply log_raw_effect in H as (Hh & Hc & _). unfold registry_ok. by rewrite Hh, Hc.
Qed.

Lemma reachable_registry_ok p : reachable p -> registry_ok p.
Proof.
  induction 1 as [script|p c p' _ IH H].
  - split; cbn; [apply NoDup_nil_2|]. intros a Ha. by apply elem_of_nil in Ha.
  - by eapply exec_registry_ok.
Qed.

(** C10. In every reachable state each element of the registry is a live heap
    element whose level is strictly between [LL_INVALID] and [LL_CNT]; every
    call keeps it so; and [log_get_src_level], where the lock can be taken,
    returns [LL_INVALID] exactly for the sources that are not registered. *)
Theorem registry_levels_are_real p :
  reachable p ->
  (forall a, a ∈ source_hm (log_ctx p) ->
     exists e, heap p !! a = Some (ElementBlock e) /\
               LL_INVALID < min_log_level e < LL_CNT) /\
  (forall c u p', exec c p = Ok u p' -> registry_ok p') /\
  (forall src, mutex_usable p ->
     exists l, log_get_src_level src p = Ok l p /\
               (l = LL_INVALID <-> ~ registered p src)).
Proof.
  intros Hr. pose proof (reachable_registry_ok p Hr) as Hok.
  split; [exact (proj2 Hok)|]. split.
  - intros c u p' H. by eapply exec_registry_ok.
  - intros src Hm. rewrite log_get_src_level_run by done.
    eexists. split; [done|]. rewrite <- registered_level_None.
    unfold registered_level.
    destruct (hash_find _ _ _) as [a|] eqn:Hf; cbn; [|done].
    apply hash_find_Some in Hf as (Hin & e & Ha & _). rewrite Ha. cbn.
    apply (proj2 Hok) in Hin as (e' & He' & Hv). simplify_eq.
    unfold valid_level, LL_INVALID in *. split; [lia|done].
Qed.

Lemma reachable_process_net : reachable process_net.
Proof.
  eapply (reachable_call _ (Call_log_register "NET" LL_DEBUG)).
  - eapply (reachable_call _ (Call_log_init LL_INFO false true)).
    + apply (reachable_start [Some 1%positive; Some 2%positive; Some 1%positive]).
    + reflexivity.
  - reflexivity.
Qed.

Lemma registry_levels_are_real_witness :
  reachable process_net /\
  exists l, log_get_src_level "UNKNOWN" process_net = Ok l process_net /\
            (l = LL_INVALID <-> ~ registered process_net "UNKNOWN").
Proof.
  split; [exact reachable_process_net|].
  apply (registry_levels_are_real process_net reachable_process_net).
  unfold mutex_usable. cbn. discriminate.
Defined.

(** *** Registration followed by lookup *)

Lemma substring_whole s n : (String.length s <= n)%nat -> substring 0 n s = s.
Proof.
  revert n. induction s as [|c s IH]; intros n Hn.
  - by destruct n.
  - destruct n as [|n]; cbn in *; [lia|]. f_equal. apply IH. lia.
Qed.

Lemma strncpy_terminated_fits src :
  strlen src < LOG_SRC_STORED_MAX_SIZE ->
  strncpy_terminated src (LOG_SRC_STORED_MAX_SIZE - 1) = src.
Proof.
  unfold strlen, LOG_SRC_STORED_MAX_SIZE, strncpy_terminated. intros H.
  apply substring_whole. lia.
Qed.

Lemma register_effect_mutex src lvl p r p' :
  register_effect src lvl p r p' ->
  mutex (log_ctx p') = mutex (log_ctx p) /\ use_mutex (log_ctx p') = use_mutex (log_ctx p) /\
  initialized (log_ctx p') = initialized (log_ctx p) /\
  ctx_min_log_level (log_ctx p') = ctx_min_log_level (log_ctx p).
Proof. by destruct 1. Qed.

Lemma hash_find_same_keys h h' hm key :
  (forall a, a ∈ hm -> key_matches h' key a = key_matches h key a) ->
  hash_find h' hm key = hash_find h hm key.
Proof.
  unfold hash_find. intros H.
  assert (forall a, a ∈ rev hm -> key_matches h' key a = key_matches h key a) as H'.
  { intros a Ha. apply H. apply list_elem_of_In, in_rev. by apply list_elem_of_In. }
  clear H. induction (rev hm) as [|a l IH]; [done|]. cbn.
  rewrite H' by left. destruct (key_matches h key a); [done|].
  apply IH. intros b Hb. apply H'. by right.
Qed.

(** After a successful registration of a name that fits the stored array,
    the lookup of that very name finds the level just given. *)
Lemma register_effect_lookup src lvl p p' :
  strlen src < LOG_SRC_STORED_MAX_SIZE ->
  register_effect src lvl p true p' ->
  registered_level p' src = Some lvl.
Proof.
  intros Hfit H. unfold registered_level.
  inversion H as [|?|a e Hl Hf Ha|a rest Hl Hs Hf Hal Ha]; subst; cbn.
  - erewrite hash_find_same_keys; [rewrite Hf; by rewrite lookup_insert_eq|].
    intros b _. unfold key_matches. destruct (decide (a = b)) as [->|Hne].
    + by rewrite lookup_insert_eq, Ha.
    + by rewrite lookup_insert_ne.
  - unfold hash_find. rewrite rev_app_distr. cbn.
    unfold key_matches at 1. rewrite lookup_insert_eq. cbn.
    rewrite strncpy_terminated_fits by done. rewrite String.eqb_refl.
    by rewrite lookup_insert_eq.
Qed.

Lemma log_register_then_lookup src lvl p p' :
  mutex_usable p -> strlen src < LOG_SRC_STORED_MAX_SIZE ->
  log_register src lvl p = Ok true p' ->
  log_get_src_level src p' = Ok lvl p'.
Proof.
  intros Hm Hfit H. apply log_register_effect in H.
  pose proof (register_effect_mutex _ _ _ _ _ H) as (Hmx & Hum & _).
  rewrite log_get_src_level_run.
  - by erewrite register_effect_lookup.
  - unfold mutex_usable in *. by rewrite Hmx, Hum.
Qed.

(** A name longer than [LOG_SRC_STORED_MAX_SIZE] is refused and nothing
    changes. *)
Lemma log_register_too_long src lvl p :
  strlen src > LOG_SRC_STORED_MAX_SIZE -> log_register src lvl p = Ok false p.
Proof.
  intros H. apply Z.gtb_gt in H. open_process p. unfold log_register.
  destruct (invalid_level lvl), ini; run_fwd; done.
Qed.

Lemma log_register_invalid_level src lvl p :
  invalid_level lvl = true -> log_register src lvl p = Ok false p.
Proof. intros H. unfold log_register. by rewrite H. Qed.

Lemma log_register_initialized src lvl p p' :
  log_register src lvl p = Ok true p' ->
  initialized (log_ctx p) = true /\ initialized (log_ctx p') = true.
Proof.
  intros H.
  assert (initialized (log_ctx p) = true) as Hi.
  { open_process p. unfold log_register in H. destruct ini; [done|]. by run_inv. }
  split; [done|]. apply log_register_effect, register_effect_mutex in H as (_ & _ & -> & _).
  done.
Qed.

Lemma register_descr_initialized d p p' :
  register_descr d p = Ok true p' ->
  initialized (log_ctx p) = true /\ initialized (log_ctx p') = true.
Proof.
  unfold register_descr, bind. intros H.
  destruct (load_str _ p) as [src q|] eqn:Hs; [|done].
  apply load_str_effect in Hs as ->. by eapply log_register_initialized.
Qed.

Lemma log_register_ex_loop_cons d ds n p :
  log_register_ex_loop (d :: ds) (S n) p =
    match register_descr d p with
    | Ok true q => log_register_ex_loop ds n q
    | Ok false q => Ok false q
    | Fault f => Fault f
    end.
Proof.
  cbn. unfold register_descr, bind.
  destruct (load_str _ p) as [src q|]; [|done].
  by destruct (log_register _ _ q) as [[] ?|].
Qed.

Lemma log_register_ex_loop_in_order ds1 p q :
  registered_in_order ds1 p q ->
  log_register_ex_loop ds1 (length ds1) p = Ok true q /\
  forall d ds2 n q',
    register_descr d q = Ok false q' -> (length ds1 < n)%nat ->
    log_register_ex_loop (ds1 ++ d :: ds2) n p = Ok false q'.
Proof.
  induction 1 as [p|d0 ds p q q' Hd _ [IH1 IH2]].
  - split; [done|]. intros d ds2 n q' Hd Hn. destruct n as [|n]; [lia|].
    cbn [app]. by rewrite log_register_ex_loop_cons, Hd.
  - split.
    + cbn [length]. by rewrite log_register_ex_loop_cons, Hd.
    + intros d ds2 n q'' Hq Hn. destruct n as [|n]; [cbn in Hn; lia|].
      cbn [app]. rewrite log_register_ex_loop_cons, Hd. apply IH2; [done|].
      cbn in Hn. lia.
Qed.

(** C6. [log_register_ex] registers the entries in array order: when the
    entries of [ds1] register one after the other, a batch made of them
    reports success in the state they lead to; when the entry after them
    fails, the batch reports failure in the state that failing call leaves,
    whatever follows in the array, so that the registrations made before stay.
    In particular, for the batch [A; B] with [A] a registration that succeeds
    for a name that fits the stored array and [B] of an invalid level, the
    call returns failure, its final state is the one after registering [A]
    alone, and the lookup of [A] yields the level of [A]. *)
Theorem register_ex_stops_at_first_failure :
  (forall ds1 p q, initialized (log_ctx p) = true ->
     registered_in_order ds1 p q ->
     log_register_ex (Some ds1) (length ds1) p = Ok true q /\
     forall d ds2 n q',
       register_descr d q = Ok false q' -> (length ds1 < n)%nat ->
       log_register_ex (Some (ds1 ++ d :: ds2)) n p = Ok false q') /\
  (forall a_name a_lvl b_name b_lvl p p',
     mutex_usable p -> strlen a_name < LOG_SRC_STORED_MAX_SIZE ->
     invalid_level b_lvl = true ->
     log_register a_name a_lvl p = Ok true p' ->
     log_register_ex (Some [descr_of a_name a_lvl; descr_of b_name b_lvl]) 2 p = Ok false p' /\
     log_get_src_level a_name p' = Ok a_lvl p').
Proof.
  assert (forall ds1 p q, initialized (log_ctx p) = true ->
     registered_in_order ds1 p q ->
     log_register_ex (Some ds1) (length ds1) p = Ok true q /\
     forall d ds2 n q',
       register_descr d q = Ok false q' -> (length ds1 < n)%nat ->
       log_register_ex (Some (ds1 ++ d :: ds2)) n p = Ok false q') as Hgen.
  { intros ds1 p q Hi Hord.
    apply log_register_ex_loop_in_order in Hord as [H1 H2].
    unfold log_register_ex, bind, get_ctx. rewrite Hi. cbn. split; [done|].
    intros. by apply H2. }
  split; [exact Hgen|].
  intros a_name a_lvl b_name b_lvl p p' Hm Hfit Hb Ha.
  pose proof (log_register_initialized _ _ _ _ Ha) as [Hi Hi'].
  split; [|by eapply log_register_then_lookup].
  assert (register_descr (descr_of a_name a_lvl) p = Ok true p') as Ha' by exact Ha.
  apply (proj2 (Hgen [descr_of a_name a_lvl] p p' Hi
                  (in_order_cons _ _ _ _ _ Ha' (in_order_nil _))) (descr_of b_name b_lvl) []).
  - unfold register_descr, bind. cbn. by apply log_register_invalid_level.
  - cbn. lia.
Qed.

Lemma register_ex_stops_at_first_failure_witness :
  exists p',
    log_register_ex (Some [descr_of "DISK" LL_TRACE; descr_of "BAD" LL_CNT]) 2 process_net
      = Ok false p' /\
    log_get_src_level "DISK" p' = Ok LL_TRACE p'.
Proof.
  eexists.
  apply (proj2 register_ex_stops_at_first_failure "DISK" LL_TRACE "BAD" LL_CNT process_net).
  - unfold mutex_usable. cbn. discriminate.
  - vm_compute. reflexivity.
  - reflexivity.
  - reflexivity.
Defined.

(** *** Initialisation after teardown *)

(** Once the context is initialised, [log_destroy] does not make a later
    [log_init] possible. *)
Lemma log_init_after_destroy ok p r p' lvl ts mi :
  initialized (log_ctx p) = true ->
  log_destroy ok p = Ok r p' ->
  exists p'', log_init lvl ts mi p' = Ok false p''.
Proof.
  intros Hi Hd. apply log_destroy_keeps_initialized in Hd.
  apply log_init_fails_iff. right. right. congruence.
Qed.

(** No call clears the [initialized] flag. *)
Lemma exec_keeps_initialized c p u p' :
  exec c p = Ok u p' ->
  initialized (log_ctx p) = true -> initialized (log_ctx p') = true.
Proof.
  intros H Hi. destruct c; cbn in H; unfold forget, bind in H.
  - destruct (log_init_result min_level is_thread_safe mutex_init_ok p) as (q & Hq & Hq').
    rewrite Hq in H. unfold ret in H. simplify_eq. by rewrite Hq', Hi.
  - destruct (log_set_log_level _ p) as [r q|] eqn:Hq; [|done]. unfold ret in H. simplify_eq.
    apply log_set_log_level_effect in Hq as [[_ ->]|(_ & _ & _ & ->)]; done.
  - destruct (log_register _ _ p) as [r q|] eqn:Hq; [|done]. unfold ret in H. simplify_eq.
    apply log_register_effect, register_effect_mutex in Hq as (_ & _ & -> & _). done.
  - destruct (log_register_ex _ _ p) as [r q|] eqn:Hq; [|done]. unfold ret in H. simplify_eq.
    eapply (log_register_ex_preserves (fun q => initialized (log_ctx q) = true)); [|done..].
    intros ????? He ?. apply register_effect_mutex in He as (_ & _ & -> & _). done.
  - apply log_unregister_effect in H as [->|(a & _ & ->)]; done.
  - destruct (log_destroy _ p) as [r q|] eqn:Hq; [|done]. unfold ret in H. simplify_eq.
    apply log_destroy_keeps_initialized in Hq. congruence.
  - destruct (log_will_be_printed _ _ p) as [r q|] eqn:Hq; [|done]. unfold ret in H. simplify_eq.
    by apply log_will_be_printed_effect in Hq as ->.
  - destruct (log_get_src_level _ p) as [r q|] eqn:Hq; [|done]. unfold ret in H. simplify_eq.
    by apply log_get_src_level_effect in Hq as ->.
  - destruct (log_get_global_level p) as [r q|] eqn:Hq; [|done]. unfold ret in H. simplify_eq.
    by apply log_get_global_level_effect in Hq as ->.
  - destruct (log_src_dump p) as [r q|] eqn:Hq; [|done]. unfold ret in H. simplify_eq.
    apply log_src_dump_effect in Hq
      as [(_ & [->|(rest & _ & ->)])|(d & ds & rest & _ & _ & _ & _ & ->)]; done.
  - apply log_src_dump_delete_effect in H as [->|(a & D & _ & _ & ->)]; done.
  - apply log_log_effect in H as (_ & Hc & _). by rewrite Hc.
  - apply log_raw_effect in H as (_ & Hc & _). by rewrite Hc.
Qed.

(** After the first successful [log_init] every later [log_init] is refused,
    whatever calls, [log_destroy] among them, were made in between. *)
Lemma log_init_only_once cs p u p' lvl ts ok :
  initialized (log_ctx p) = true ->
  exec_all cs p = Ok u p' ->
  exists p'', log_init lvl ts ok p' = Ok false p''.
Proof.
  intros Hi Hrun. apply log_init_fails_iff. right. right.
  revert p Hi Hrun. induction cs as [|c cs IH]; intros p Hi Hrun; cbn in Hrun.
  - unfold ret in Hrun. by simplify_eq.
  - unfold bind in Hrun. destruct (exec c p) as [v q|] eqn:Hq; [|done].
    eapply IH; [|exact Hrun]. by eapply exec_keeps_initialized.
Qed.

(** C2 (the code at the failing input). From the start of the process, in
    either threading mode: [log_init] with a real level succeeds,
    [log_destroy] succeeds, and the next [log_init] with a real level
    returns failure. *)
Theorem init_after_destroy_is_refused :
  forall is_thread_safe,
  exists p1 p2 p3,
    log_init LL_INFO is_thread_safe true (process_start []) = Ok true p1 /\
    log_destroy true p1 = Ok true p2 /\
    log_init LL_INFO is_thread_safe true p2 = Ok false p3.
Proof.
  intros [|]; eexists _, _, _; (split; [reflexivity|split; reflexivity]).
Qed.

(** *** Names of exactly [LOG_SRC_STORED_MAX_SIZE] characters *)

(** C4 (the code at the failing input). A name of 128 characters is accepted
    by [log_register], stored cut to 127 characters, and not found under the
    name that was registered. *)
Theorem name_of_128_is_cut_to_127 :
  exists p1 p2,
    strlen name128 = LOG_SRC_STORED_MAX_SIZE /\
    log_init LL_INFO false true (process_start [Some 1%positive]) = Ok true p1 /\
    log_register name128 LL_DEBUG p1 = Ok true p2 /\
    log_get_src_level name128 p2 = Ok LL_INVALID p2 /\
    log_get_src_level name127 p2 = Ok LL_DEBUG p2 /\
    heap p2 !! 1%positive =
      Some (ElementBlock {| source := name127; min_log_level := LL_DEBUG |}).
Proof.
  eexists _, _. split; [reflexivity|]. split; [reflexivity|]. split; [reflexivity|].
  split; [vm_compute; reflexivity|]. split; vm_compute; reflexivity.
Qed.

(** C7 (the code at the failing input). Registering a name of 128 characters
    twice with two levels succeeds twice and leaves two elements in the
    registry, both under the name cut to 127 characters, and none under the
    name that was registered. *)
Theorem name_of_128_registered_twice :
  exists p1 p2 p3,
    log_init LL_INFO false true (process_start [Some 1%positive; Some 2%positive]) = Ok true p1 /\
    log_register name128 LL_DEBUG p1 = Ok true p2 /\
    log_register name128 LL_ERROR p2 = Ok true p3 /\
    source_hm (log_ctx p3) = [1%positive; 2%positive] /\
    heap p3 !! 1%positive =
      Some (ElementBlock {| source := name127; min_log_level := LL_DEBUG |}) /\
    heap p3 !! 2%positive =
      Some (ElementBlock {| source := name127; min_log_level := LL_ERROR |}) /\
    entries_named p3 name128 = [] /\
    log_get_src_level name128 p3 = Ok LL_INVALID p3.
Proof.
  eexists _, _, _. split; [reflexivity|]. split; [reflexivity|]. split; [reflexivity|].
  repeat split; vm_compute; reflexivity.
Qed.

(** *** Dumps and later registry calls *)

Lemma register_effect_keeps_dump d D src lvl p r p' :
  register_effect src lvl p r p' ->
  heap p !! d = Some (DumpBlock D) -> heap p' !! d = Some (DumpBlock D).
Proof.
  intros H Hd. destruct H as [|rest Hal|a e Hl Hf Ha|a rest Hl Hs Hf Hal Ha]; cbn; try done.
  - rewrite lookup_insert_ne; [done|]. intros ->. congruence.
  - rewrite lookup_insert_ne; [done|]. intros ->. congruence.
Qed.

Lemma register_effect_keeps_name a name src lvl p r p' :
  register_effect src lvl p r p' -> names a name p -> names a name p'.
Proof.
  intros H (e & Ha & Hn).
  destruct H as [|rest Hal|b e' Hl Hf Hb|b rest Hl Hs Hf Hal Hb]; cbn.
  - by exists e.
  - by exists e.
  - destruct (decide (b = a)) as [->|Hne].
    + eexists. cbn. rewrite lookup_insert_eq. split; [done|]. cbn. congruence.
    + exists e. cbn. by rewrite lookup_insert_ne.
  - exists e. cbn. rewrite lookup_insert_ne; [done|]. intros ->. congruence.
Qed.

Lemma exec_registry_call_keeps_dump d D c p u p' :
  registry_call c -> exec c p = Ok u p' ->
  heap p !! d = Some (DumpBlock D) -> heap p' !! d = Some (DumpBlock D).
Proof.
  intros Hc H Hd. destruct c; try done; cbn in H; unfold forget, bind in H.
  - destruct (log_set_log_level _ p) as [r q|] eqn:Hq; [|done]. unfold ret in H. simplify_eq.
    apply log_set_log_level_effect in Hq as [[_ ->]|(_ & _ & _ & ->)]; done.
  - destruct (log_register _ _ p) as [r q|] eqn:Hq; [|done]. unfold ret in H. simplify_eq.
    eapply register_effect_keeps_dump; [|done]. by eapply log_register_effect.
  - destruct (log_register_ex _ _ p) as [r q|] eqn:Hq; [|done]. unfold ret in H. simplify_eq.
    eapply (log_register_ex_preserves (fun q => heap q !! d = Some (DumpBlock D))); [|done..].
    intros. by eapply register_effect_keeps_dump.
  - apply log_unregister_effect in H as [->|(a & Hf & ->)]; [done|]. cbn.
    rewrite lookup_delete_ne; [done|]. intros ->.
    apply hash_find_Some in Hf as (_ & e & He & _). congruence.
Qed.

Lemma exec_registry_call_keeps_name a name c p u p' :
  registry_call c -> c <> Call_log_unregister name -> exec c p = Ok u p' ->
  names a name p -> names a name p'.
Proof.
  intros Hc Hne H Hn. destruct c; try done; cbn in H; unfold forget, bind in H.
  - destruct (log_set_log_level _ p) as [r q|] eqn:Hq; [|done]. unfold ret in H. simplify_eq.
    apply log_set_log_level_effect in Hq as [[_ ->]|(_ & _ & _ & ->)]; done.
  - destruct (log_register _ _ p) as [r q|] eqn:Hq; [|done]. unfold ret in H. simplify_eq.
    eapply register_effect_keeps_name; [|done]. by eapply log_register_effect.
  - destruct (log_register_ex _ _ p) as [r q|] eqn:Hq; [|done]. unfold ret in H. simplify_eq.
    eapply (log_register_ex_preserves (names a name)); [|done..].
    intros. by eapply register_effect_keeps_name.
  - apply log_unregister_effect in H as [->|(b & Hf & ->)]; [done|].
    destruct Hn as (e & Ha & Hname). exists e. cbn. split; [|done].
    rewrite lookup_delete_ne; [done|]. intros ->.
    apply hash_find_Some in Hf as (_ & e' & He' & Hs). by simplify_eq.
Qed.

Lemma exec_all_registry_calls_keep cs : forall p p' d D,
  Forall registry_call cs -> exec_all cs p = Ok tt p' ->
  heap p !! d = Some (DumpBlock D) ->
  heap p' !! d = Some (DumpBlock D) /\
  forall a name, Forall (fun c => c <> Call_log_unregister name) cs ->
    names a name p -> names a name p'.
Proof.
  induction cs as [|c cs IH]; intros p p' d D Hcs H Hd.
  - cbn in H. unfold ret in H. by simplify_eq.
  - cbn in H. unfold bind in H. destruct (exec c p) as [u q|] eqn:Hq; [|done].
    apply Forall_cons in Hcs as [Hc Hcs].
    pose proof (exec_registry_call_keeps_dump d D c p u q Hc Hq Hd) as Hd'.
    destruct (IH q p' d D Hcs H Hd') as [IH1 IH2]. split; [done|].
    intros a name Hne Hn. apply Forall_cons in Hne as [Hne1 Hne].
    apply IH2; [done|]. by eapply exec_registry_call_keeps_name.
Qed.

Lemma read_entries_spec ds q es q' :
  read_entries ds q = Ok es q' <-> q' = q /\ Forall2 (reads q) ds es.
Proof.
  revert es q'. induction ds as [|x ds IH]; intros es q'; cbn.
  - unfold ret. split.
    + intros H. simplify_eq. split; [done|constructor].
    + intros [-> H]. by inversion H.
  - unfold bind at 1. split.
    + intros H. destruct (load_str _ q) as [name q1|] eqn:Hn; [|done].
      pose proof (load_str_effect _ _ _ _ Hn) as ->.
      unfold bind at 1 in H.
      remember (read_entries ds q) as rd eqn:Ho in H. symmetry in Ho.
      destruct rd as [others q2|]; [|done].
      apply IH in Ho as [-> Ho]. unfold ret in H. simplify_eq.
      split; [done|]. constructor; [|done]. by split.
    + intros [-> H]. inversion H as [|? e ? es' [Hx He] Hrest]; subst.
      rewrite Hx. unfold bind at 1.
      assert (read_entries ds q = Ok es' q) as -> by (apply IH; done).
      unfold ret. destruct e as [name lvl]. cbn in *. by subst.
Qed.

Lemma read_dump_spec d q v q' :
  read_dump d q = Ok v q' <->
  q' = q /\ exists D es, heap q !! d = Some (DumpBlock D) /\
    Forall2 (reads q) (log_src_descrs D) es /\
    v = (global_level D, num_log_src_descr D, es).
Proof.
  unfold read_dump, bind, get_heap. split.
  - intros H. destruct (heap q !! d) as [[e|D]|] eqn:Hd; try done.
    destruct (read_entries _ q) as [es q1|] eqn:He; [|done].
    apply read_entries_spec in He as [-> He]. unfold ret in H. simplify_eq.
    split; [done|]. by exists D, es.
  - intros (-> & D & es & Hd & He & ->). rewrite Hd.
    assert (read_entries (log_src_descrs D) q = Ok es q) as -> by (by apply read_entries_spec).
    done.
Qed.

Lemma reads_names q x e :
  reads q x e <->
  e.2 = descr_min_log_level x /\
  match descr_source x with
  | CallerString s => e.1 = s
  | ElementSource a => names a e.1 q
  end.
Proof.
  unfold reads, names. destruct (descr_source x) as [s|a]; cbn.
  - unfold ret. split; [intros [H ?]; by simplify_eq|intros [? ->]; done].
  - unfold bind, load_elt, ret. split.
    + intros [H ?]. split; [done|].
      destruct (heap q !! a) as [[e'|?]|]; try done. simplify_eq. by exists e'.
    + intros [? (e' & -> & <-)]. done.
Qed.

Lemma reads_transfer p1 p2 cs ds es :
  (forall a name, Forall (fun c => c <> Call_log_unregister name) cs ->
     names a name p1 -> names a name p2) ->
  Forall2 (reads p1) ds es ->
  Forall (fun e => Forall (fun c => c <> Call_log_unregister e.1) cs) es ->
  Forall2 (reads p2) ds es.
Proof.
  intros Hkeep H. induction H as [|x e ds es Hx _ IH]; intros Hes; [constructor|].
  apply Forall_cons in Hes as [He Hes]. constructor; [|by apply IH].
  apply reads_names in Hx as [Hl Hx]. apply reads_names. split; [done|].
  destruct (descr_source x); [done|]. by apply Hkeep.
Qed.

Lemma describes_reads p d D a x :
  heap p !! d = None -> describes (heap p) a x ->
  reads (set_heap (<[d := DumpBlock D]> (heap p)) p) x (entry_of (heap p) a).
Proof.
  intros Hd (Hs & e & Ha & Hl). apply reads_names. unfold entry_of. rewrite Ha, Hs. cbn.
  split; [done|]. exists e. cbn. split; [|done].
  rewrite lookup_insert_ne; [done|]. intros ->. congruence.
Qed.

(** C3, as the code has it. Right after [log_src_dump] the dump reads as the
    global level, the number of elements and the (name, level) pairs of the
    registry in list order. Later calls that register, unregister or change a
    level leave the dump block itself untouched: its global level, its count,
    and every entry's level and [source] pointer. The name of an entry is read
    through that pointer from the live element, entry by entry: each entry
    still reads the name it had at the dump as long as that one source is not
    unregistered, whatever happens to the other sources; and the dump as a
    whole reads the same as long as no dumped source is unregistered. *)
Theorem snapshot_frame p d p1 :
  log_src_dump p = Ok (Some d) p1 ->
  let v := (ctx_min_log_level (log_ctx p), length (source_hm (log_ctx p)),
            map (entry_of (heap p)) (source_hm (log_ctx p))) in
  read_dump d p1 = Ok v p1 /\
  forall cs p2,
    Forall registry_call cs -> exec_all cs p1 = Ok tt p2 ->
    heap p2 !! d = heap p1 !! d /\
    (exists D, heap p2 !! d = Some (DumpBlock D) /\
       global_level D = v.1.1 /\ num_log_src_descr D = v.1.2 /\
       Forall2 (entry_kept cs p2) (log_src_descrs D) v.2) /\
    ((forall e, e ∈ v.2 -> Forall (fun c => c <> Call_log_unregister e.1) cs) ->
     read_dump d p2 = Ok v p2).
Proof.
  intros H v.
  apply log_src_dump_effect in H as [[? _]|(d' & ds & rest & ? & Hal & Hd & Hds & ->)];
    [done|]. simplify_eq.
  set (D := {| global_level := ctx_min_log_level (log_ctx p);
               num_log_src_descr := length (source_hm (log_ctx p));
               log_src_descrs := ds |}).
  set (p1 := set_heap _ _).
  assert (heap p1 !! d' = Some (DumpBlock D)) as Hd1 by (cbn; by rewrite lookup_insert_eq).
  assert (Forall2 (reads p1) ds v.2) as Hreads.
  { subst v. cbn. apply Forall2_fmap_r, Forall2_flip.
    eapply Forall2_impl; [exact Hds|]. intros a x Hx. cbn.
    assert (reads (set_heap (<[d' := DumpBlock D]> (heap p)) p) x (entry_of (heap p) a)) as Hr
      by (by apply describes_reads).
    apply reads_names in Hr as [Hl Hn]. apply reads_names. split; [done|].
    destruct (descr_source x); done. }
  split.
  - apply read_dump_spec. split; [done|]. by exists D, v.2.
  - intros cs p2 Hcs Hrun.
    destruct (exec_all_registry_calls_keep cs p1 p2 d' D Hcs Hrun Hd1) as [Hd2 Hkeep].
    split; [congruence|]. split.
    + exists D. split; [done|]. split; [done|]. split; [done|].
      change (log_src_descrs D) with ds.
      eapply Forall2_impl; [exact Hreads|]. intros x e Hx.
      apply reads_names in Hx as [Hl Hx]. split; [done|]. intros Hne.
      assert (reads p2 x e) as [Hr _]; [|exact Hr].
      apply reads_names. split; [done|].
      destruct (descr_source x); [done|]. by apply Hkeep.
    + intros Hes.
      apply read_dump_spec. split; [done|]. exists D, v.2. split; [done|]. split; [|done].
      eapply reads_transfer; [exact Hkeep|exact Hreads|]. by apply Forall_forall.
Qed.

Lemma snapshot_frame_witness :
  (exists p1 p2,
     log_src_dump process_net = Ok (Some 2%positive) p1 /\
     exec_all calls_after_dump p1 = Ok tt p2 /\
     read_dump 2%positive p1 = Ok (LL_INFO, 1%nat, [("NET"%string, LL_DEBUG)]) p1 /\
     read_dump 2%positive p2 = Ok (LL_INFO, 1%nat, [("NET"%string, LL_DEBUG)]) p2 /\
     log_get_src_level "NET" p2 = Ok LL_ERROR p2 /\
     log_get_global_level p2 = Ok LL_NONE p2) /\
  (exists p1 p2,
     log_src_dump process_net_disk = Ok (Some 3%positive) p1 /\
     exec_all calls_after_dump_of_two p1 = Ok tt p2 /\
     read_dump 3%positive p1 =
       Ok (LL_INFO, 2%nat, [("NET"%string, LL_DEBUG); ("DISK"%string, LL_TRACE)]) p1 /\
     heap p2 !! 3%positive = heap p1 !! 3%positive /\
     read_dump 3%positive p2 = Fault Undefined /\
     heap p2 !! 3%positive =
       Some (DumpBlock
               {| global_level := LL_INFO; num_log_src_descr := 2;
                  log_src_descrs :=
                    [ {| descr_source := ElementSource 1%positive;
                         descr_min_log_level := LL_DEBUG |};
                      {| descr_source := ElementSource 2%positive;
                         descr_min_log_level := LL_TRACE |} ] |}) /\
     load_str (ElementSource 2%positive) p2 = Ok "DISK"%string p2 /\
     log_get_src_level "DISK" p2 = Ok LL_ERROR p2 /\
     log_get_src_level "NET" p2 = Ok LL_INVALID p2).
Proof.
  split.
  - eexists _, _. split; [reflexivity|]. split; [reflexivity|].
    pose proof (snapshot_frame process_net 2%positive _ eq_refl) as [Hread Hlater].
    split; [exact Hread|]. split; [|split; reflexivity].
    assert (Forall registry_call calls_after_dump) as Hcalls by (repeat constructor).
    apply (proj2 (proj2 (Hlater calls_after_dump _ Hcalls eq_refl))).
    intros e He. apply list_elem_of_singleton in He as ->.
    repeat constructor; discriminate.
  - eexists _, _. split; [reflexivity|]. split; [reflexivity|].
    pose proof (snapshot_frame process_net_disk 3%positive _ eq_refl) as [Hread Hlater].
    split; [exact Hread|].
    assert (Forall registry_call calls_after_dump_of_two) as Hcalls by (repeat constructor).
    destruct (Hlater calls_after_dump_of_two _ Hcalls eq_refl)
      as (Hblock & (D & HD & Hg & Hn & Hall) & _).
    split; [exact Hblock|]. split; [reflexivity|].
    assert (D = {| global_level := LL_INFO; num_log_src_descr := 2;
                   log_src_descrs :=
                     [ {| descr_source := ElementSource 1%positive;
                          descr_min_log_level := LL_DEBUG |};
                       {| descr_source := ElementSource 2%positive;
                          descr_min_log_level := LL_TRACE |} ] |}) as HDeq.
    { vm_compute in HD. by injection HD as <-. }
    split; [exact (eq_trans HD (f_equal (fun D' => Some (DumpBlock D')) HDeq))|].
    split; [|split; reflexivity].
    rewrite HDeq in Hall.
    apply Forall2_cons in Hall as [_ Hall].
    apply Forall2_cons in Hall as [[_ Hname] _].
    apply Hname. repeat constructor; discriminate.
Defined.

(** C3, as stated, fails: the dump taken in [process_net] reads the name
    ["NET"]; after [log_unregister("NET")] the entry's [source] pointer refers
    to freed memory and the dump can no longer be read. *)
Lemma snapshot_not_independent : ~ snapshot_is_independent.
Proof.
  intros H.
  assert (exists p1 p2,
            log_src_dump process_net = Ok (Some 2%positive) p1 /\
            exec_all [Call_log_unregister "NET"] p1 = Ok tt p2 /\
            read_dump 2%positive p1 = Ok (LL_INFO, 1%nat, [("NET"%string, LL_DEBUG)]) p1 /\
            read_dump 2%positive p2 = Fault Undefined)
    as (p1 & p2 & Hdump & Hrun & Hread & Hgone).
  { eexists _, _. split; [reflexivity|]. split; [reflexivity|]. split; reflexivity. }
  assert (Forall registry_call [Call_log_unregister "NET"]) as Hcalls by (repeat constructor).
  specialize (H process_net _ _ _ _ _ reachable_process_net Hdump Hcalls Hrun Hread).
  rewrite Hgone in H. discriminate.
Qed.

(** After the element is freed its memory can be handed out again: the dump
    taken while ["NET"] was registered then reads the name ["DISK"]. *)
Lemma snapshot_reads_reused_memory :
  exists p1 p2,
    log_src_dump process_net = Ok (Some 2%positive) p1 /\
    exec_all [Call_log_unregister "NET"; Call_log_register "DISK" LL_DEBUG] p1 = Ok tt p2 /\
    read_dump 2%positive p1 = Ok (LL_INFO, 1%nat, [("NET"%string, LL_DEBUG)]) p1 /\
    read_dump 2%positive p2 = Ok (LL_INFO, 1%nat, [("DISK"%string, LL_DEBUG)]) p2.
Proof.
  eexists _, _. split; [reflexivity|]. split; [reflexivity|]. split; reflexivity.
Qed.

(** ** The level table *)

Lemma tolower_idempotent c : tolower (tolower c) = tolower c.
Proof. destruct c as [[] [] [] [] [] [] [] []]; reflexivity. Qed.

Lemma strcasecmp_fold_case a c : strcasecmp (fold_case a) c = strcasecmp a c.
Proof.
  revert c. induction a as [|x a IH]; intros c; [done|].
  destruct c as [|y c]; cbn; rewrite tolower_idempotent; [done|].
  by rewrite IH.
Qed.

Lemma log_str_to_ll_from_fold_case a n ll :
  log_str_to_ll_from (fold_case a) ll n = log_str_to_ll_from a ll n.
Proof.
  revert ll. induction n as [|n IH]; intros ll; cbn; [done|].
  by rewrite strcasecmp_fold_case, IH.
Qed.

Lemma log_str_to_ll_fold_case a : log_str_to_ll (fold_case a) = log_str_to_ll a.
Proof. apply log_str_to_ll_from_fold_case. Qed.

Lemma log_str_to_ll_from_no_match str n ll :
  (forall l, ll <= l < LL_CNT -> strcasecmp str (log_level_map_at l) <> 0) ->
  log_str_to_ll_from str ll n = LL_INVALID.
Proof.
  revert ll. induction n as [|n IH]; intros ll Hno; cbn [log_str_to_ll_from]; [done|].
  destruct (Z.ltb_spec ll LL_CNT) as [Hlt|]; [|done].
  destruct (Z.eqb_spec (strcasecmp str (log_level_map_at ll)) 0) as [Heq|_].
  - exfalso. apply (Hno ll); [lia|done].
  - apply IH. intros l Hl. apply Hno. lia.
Qed.

(** C5. [log_str_to_ll (log_ll_to_str s) = s] for every real severity;
    a string that matches no name of the table, such as ["bogus"], gives
    [LL_INVALID]; and the case of the letters does not matter: two strings
    that agree once their letters are folded to lower case give the same
    level, so ["error"] and ["ERROR"] both give [LL_ERROR]. *)
Theorem level_names_round_trip :
  (forall s, LL_INVALID < s < LL_CNT -> log_str_to_ll (log_ll_to_str s) = s) /\
  (forall str, (forall l, LL_INVALID <= l < LL_CNT -> strcasecmp str (log_level_map_at l) <> 0) ->
     log_str_to_ll str = LL_INVALID) /\
  log_str_to_ll "bogus" = LL_INVALID /\
  (forall a b, fold_case a = fold_case b -> log_str_to_ll a = log_str_to_ll b) /\
  log_str_to_ll "error" = log_str_to_ll "ERROR" /\
  log_str_to_ll "error" = LL_ERROR.
Proof.
  split; [|split; [|split; [|split; [|split]]]].
  - intros s Hs. unfold LL_INVALID, LL_CNT in Hs.
    assert (s = 1 \/ s = 2 \/ s = 3 \/ s = 4 \/ s = 5 \/ s = 6 \/ s = 7) as Hcases by lia.
    destruct Hcases as [->|[->|[->|[->|[->|[->| ->]]]]]]; reflexivity.
  - intros str Hno. by apply log_str_to_ll_from_no_match.
  - reflexivity.
  - intros a b Hab.
    by rewrite <- (log_str_to_ll_fold_case a), <- (log_str_to_ll_fold_case b), Hab.
  - reflexivity.
  - reflexivity.
Qed.

Lemma level_names_round_trip_witness :
  log_str_to_ll (log_ll_to_str LL_WARNING) = LL_WARNING /\
  log_str_to_ll "Warning" = log_str_to_ll "wARNING".
Proof.
  destruct level_names_round_trip as (Hround & _ & _ & Hcase & _).
  split.
  - apply Hround. unfold LL_INVALID, LL_WARNING, LL_CNT. lia.
  - apply Hcase. reflexivity.
Defined.

(** ** The dump line *)

Lemma poke_app pre rest cs :
  (length cs <= length rest)%nat ->
  poke (pre ++ rest) (length pre) cs = Some (pre ++ cs ++ drop (length cs) rest).
Proof.
  revert pre rest. induction cs as [|c cs IH]; intros pre rest Hlen; cbn.
  - by rewrite drop_0.
  - destruct rest as [|r rest]; cbn in Hlen; [lia|].
    rewrite decide_True by (rewrite length_app; cbn; lia).
    rewrite insert_app_r_alt, Nat.sub_diag by lia. cbn.
    replace (pre ++ c :: rest) with ((pre ++ [c]) ++ rest) by (by rewrite <- app_assoc).
    replace (S (length pre)) with (length (pre ++ [c])) by (rewrite length_app; cbn; lia).
    rewrite IH by lia. by rewrite <- app_assoc.
Qed.

Lemma poke_length buf pos cs out : poke buf pos cs = Some out -> length out = length buf.
Proof.
  revert buf pos out. induction cs as [|c cs IH]; intros buf pos out H; cbn in H.
  - by simplify_eq.
  - case_decide; [|done]. apply IH in H. by rewrite length_insert in H.
Qed.

Lemma hex_digits_length fuel n acc :
  (length acc <= length (hex_digits fuel n acc) <= fuel + length acc)%nat.
Proof.
  revert n acc. induction fuel as [|fuel IH]; intros n acc; cbn; [lia|].
  destruct (n =? 0); [lia|]. specialize (IH (n / 16) (hex_digit (n mod 16) :: acc)).
  cbn in IH. lia.
Qed.

Lemma fmt_X_length prec n :
  (prec <= length (fmt_X prec n) <= Nat.max prec 16)%nat.
Proof.
  unfold fmt_X. pose proof (hex_digits_length 16 n []) as H. cbn [length] in H.
  rewrite length_app, repeat_length. lia.
Qed.

Lemma fmt_hhX_pair b : fmt_hhX b = hex_pair b.
Proof. destruct b as [[] [] [] [] [] [] [] []]; reflexivity. Qed.

Lemma hex_digit_not_NUL d : hex_digit d <> NUL.
Proof.
  unfold hex_digit. generalize (Z.to_nat d). intros n.
  do 17 (destruct n as [|n]; [discriminate|]). cbn. destruct n; discriminate.
Qed.

Lemma hex_digits_not_NUL fuel n acc :
  Forall (fun c => c <> NUL) acc -> Forall (fun c => c <> NUL) (hex_digits fuel n acc).
Proof.
  revert n acc. induction fuel as [|fuel IH]; intros n acc Hacc; cbn; [done|].
  destruct (n =? 0); [done|]. apply IH. constructor; [apply hex_digit_not_NUL|done].
Qed.

Lemma fmt_X_not_NUL prec n : Forall (fun c => c <> NUL) (fmt_X prec n).
Proof.
  unfold fmt_X. apply Forall_app. split.
  - apply Forall_forall. intros c Hc. apply list_elem_of_In, repeat_spec in Hc. by subst.
  - by apply hex_digits_not_NUL.
Qed.

Lemma text_char_not_NUL c : text_char c <> NUL.
Proof. destruct c as [[] [] [] [] [] [] [] []]; discriminate. Qed.

Lemma hex_groups_length row : length (hex_groups row) = (3 * length row)%nat.
Proof.
  induction row as [|b row IH]; [done|].
  unfold hex_groups in *. cbn [map concat]. rewrite length_app, IH. cbn. lia.
Qed.

Lemma hex_groups_not_NUL row : Forall (fun c => c <> NUL) (hex_groups row).
Proof.
  induction row as [|b row IH]; [constructor|].
  unfold hex_groups in *. cbn [map concat]. apply Forall_app. split; [|done].
  constructor; [discriminate|]. constructor; [apply hex_digit_not_NUL|].
  constructor; [apply hex_digit_not_NUL|constructor].
Qed.

Lemma c_str_terminated w tail :
  Forall (fun c => c <> NUL) w ->
  c_str (w ++ NUL :: tail) = Some (string_of_list_ascii w).
Proof.
  induction 1 as [|c w Hc _ IH]; cbn; [done|].
  apply Ascii.eqb_neq in Hc. by rewrite Hc, IH.
Qed.

Lemma take_drop_S {A} (l : list A) ptr n b :
  l !! ptr = Some b -> take (S n) (drop ptr l) = b :: take n (drop (S ptr) l).
Proof. intros H. by rewrite (drop_S _ _ _ H). Qed.

Lemma hex_loop_run buf_in n : forall ptr pre rest,
  (ptr + n <= length buf_in)%nat -> (3 * n + 1 <= length rest)%nat ->
  exists rest',
    hex_loop buf_in ptr n (pre ++ rest) (length pre) =
      Some (pre ++ hex_groups (take n (drop ptr buf_in)) ++ rest', (length pre + 3 * n)%nat) /\
    length rest' = (length rest - 3 * n)%nat.
Proof.
  induction n as [|n IH]; intros ptr pre rest Hin Hout.
  - exists rest. cbn. rewrite Nat.add_0_r. split; [done|lia].
  - destruct (lookup_lt_is_Some_2 buf_in ptr) as [b Hb]; [lia|].
    cbn [hex_loop]. rewrite Hb. cbn [mbind option_bind].
    rewrite fmt_hhX_pair. unfold sprintf, hex_pair.
    set (h1 := hex_digit _). set (h2 := hex_digit _).
    rewrite poke_app by (cbn; lia). cbn [mbind option_bind length app].
    replace (pre ++ SP :: h1 :: h2 :: NUL :: drop 4 rest)
      with ((pre ++ [SP; h1; h2]) ++ NUL :: drop 4 rest) by (by rewrite <- app_assoc).
    replace (length pre + 3)%nat with (length (pre ++ [SP; h1; h2]))
      by (rewrite length_app; cbn; lia).
    destruct (IH (S ptr) (pre ++ [SP; h1; h2]) (NUL :: drop 4 rest)) as (rest' & Hrun & Hlen).
    { lia. } { cbn. rewrite length_drop. lia. }
    exists rest'. rewrite Hrun. split.
    + rewrite (take_drop_S _ _ _ _ Hb). unfold hex_groups. cbn [map concat hex_pair].
      fold h1 h2. rewrite <- !app_assoc. cbn. do 2 f_equal. rewrite length_app. cbn. lia.
    + rewrite Hlen. cbn. rewrite length_drop. lia.
Qed.

Lemma pad_loop_run n : forall pre rest,
  (3 * n <= length rest)%nat ->
  pad_loop n (pre ++ rest) (length pre) =
    Some (pre ++ repeat SP (3 * n) ++ drop (3 * n) rest, (length pre + 3 * n)%nat).
Proof.
  induction n as [|n IH]; intros pre rest Hout.
  - cbn. by rewrite drop_0, Nat.add_0_r.
  - cbn [pad_loop]. rewrite poke_app by (cbn; lia). cbn [mbind option_bind length].
    replace (pre ++ [SP; SP; SP] ++ drop 3 rest)
      with ((pre ++ [SP; SP; SP]) ++ drop 3 rest) by (by rewrite <- app_assoc).
    replace (length pre + 3)%nat with (length (pre ++ [SP; SP; SP]))
      by (rewrite length_app; cbn; lia).
    rewrite IH by (rewrite length_drop; lia).
    rewrite drop_drop, <- !app_assoc, length_app. cbn [length].
    replace (3 * S n)%nat with (3 + 3 * n)%nat by lia. cbn [repeat Nat.add app].
    do 2 f_equal. lia.
Qed.

Lemma text_loop_run buf_in n : forall cptr pre rest,
  (cptr + n <= length buf_in)%nat -> (n <= length rest)%nat ->
  text_loop buf_in cptr n (pre ++ rest) (length pre) =
    Some (pre ++ map text_char (take n (drop cptr buf_in)) ++ drop n rest,
          (length pre + n)%nat).
Proof.
  induction n as [|n IH]; intros cptr pre rest Hin Hout.
  - cbn. by rewrite drop_0, Nat.add_0_r.
  - destruct (lookup_lt_is_Some_2 buf_in cptr) as [c Hc]; [lia|].
    cbn [text_loop]. rewrite Hc. cbn [mbind option_bind].
    rewrite poke_app by (cbn; lia). cbn [mbind option_bind length].
    fold (text_char c).
    replace (pre ++ [text_char c] ++ drop 1 rest)
      with ((pre ++ [text_char c]) ++ drop 1 rest) by (by rewrite <- app_assoc).
    replace (length pre + 1)%nat with (length (pre ++ [text_char c]))
      by (rewrite length_app; cbn; lia).
    rewrite IH by (rewrite ?length_drop; lia).
    rewrite (take_drop_S _ _ _ _ Hc), drop_drop, <- !app_assoc, length_app. cbn.
    do 2 f_equal. lia.
Qed.

Lemma line_text_length first row :
  (length row <= 16)%nat -> length (line_text first row) = (61 + length row)%nat.
Proof.
  intros Hrow. unfold line_text.
  pose proof (fmt_X_length LOG_RAW_ADDR_FIELD_WIDTH first) as Hx. unfold LOG_RAW_ADDR_FIELD_WIDTH in *.
  rewrite !length_app, length_take, length_app, hex_groups_length, repeat_length, length_map.
  cbn [length]. lia.
Qed.

Lemma line_text_not_NUL first row : Forall (fun c => c <> NUL) (line_text first row).
Proof.
  unfold line_text. repeat (apply Forall_app; split).
  - apply Forall_take, Forall_app. split; [apply fmt_X_not_NUL|].
    repeat constructor; discriminate.
  - apply hex_groups_not_NUL.
  - apply Forall_forall. intros c Hc. apply list_elem_of_In, repeat_spec in Hc. by subst.
  - repeat constructor; discriminate.
  - apply Forall_forall. intros c Hc. apply list_elem_of_fmap in Hc as (b & -> & _).
    apply text_char_not_NUL.
Qed.

Lemma row_bytes_length buf_in buf_in_size offset :
  0 <= offset -> offset * 16 < buf_in_size -> buf_in_size <= Z.of_nat (length buf_in) ->
  length (row_bytes buf_in buf_in_size offset) = Z.to_nat (Z.min 16 (buf_in_size - offset * 16)).
Proof.
  intros H0 H1 H2. unfold row_bytes. rewrite length_take, length_drop. lia.
Qed.

(** What [compose_hexdump_line] leaves in [buf_out]: the line, its NUL, and
    whatever the rest of the array held. No read leaves [buf_in] and no write
    leaves [buf_out] as soon as the array has 78 characters. *)
Lemma compose_hexdump_line_text buf_in buf_in_size offset buf_out :
  0 <= offset -> offset * 16 < buf_in_size ->
  buf_in_size <= Z.of_nat (length buf_in) -> buf_in_size < 2 ^ 64 ->
  (78 <= length buf_out)%nat ->
  exists out' tail,
    compose_hexdump_line buf_in buf_in_size offset buf_out = Some out' /\
    length out' = length buf_out /\
    out' = line_text (offset * 16) (row_bytes buf_in buf_in_size offset) ++ NUL :: tail.
Proof.
  intros H0 H1 H2 H3 Hout.
  pose proof (row_bytes_length buf_in buf_in_size offset H0 H1 H2) as Hrow.
  unfold compose_hexdump_line, line_text, row_bytes in *.
  unfold size_t_wrap. rewrite (Z.mod_small (offset * 16)) by lia.
  rewrite (Z.mod_small (buf_in_size - offset * 16)) by lia.
  set (first := offset * 16) in *.
  set (limit := if buf_in_size - first >? 16 then 16 else buf_in_size - first).
  assert (limit = Z.min 16 (buf_in_size - first)) as Hlimit.
  { subst limit. destruct (Z.gtb_spec (buf_in_size - first) 16); lia. }
  rewrite <- Hlimit in *. clearbody limit.
  set (n := Z.to_nat limit) in *.
  assert (Z.to_nat (16 - limit) = 16 - n)%nat as -> by lia.
  assert (n <= 16)%nat as Hn by lia.
  assert (Z.to_nat first + n <= length buf_in)%nat as Hin by lia.
  set (row := take n (drop (Z.to_nat first) buf_in)) in *.
  pose proof (fmt_X_length LOG_RAW_ADDR_FIELD_WIDTH first) as Hx.
  unfold LOG_RAW_ADDR_FIELD_WIDTH in *.
  set (digits := fmt_X 8 first) in *.
  (* the offset field *)
  unfold sprintf at 1.
  rewrite (poke_app [] buf_out) by (rewrite !length_app; cbn [length]; lia).
  cbn [mbind option_bind app length].
  set (b1 := (digits ++ [SP; SP]) ++ [NUL]).
  set (buf1 := b1 ++ drop (length b1) buf_out).
  assert (length buf1 = length buf_out) as Hlen1.
  { subst buf1 b1. rewrite !length_app, length_drop, ?length_app. cbn [length]. lia. }
  assert (take 10 buf1 = take 10 (digits ++ [SP; SP])) as Hpre.
  { subst buf1 b1. rewrite <- app_assoc. rewrite take_app_le; [done|].
    rewrite length_app. cbn [length]. lia. }
  rewrite <- (take_drop 10 buf1).
  set (pre1 := take 10 buf1) in *. set (rest1 := drop 10 buf1).
  assert (length pre1 = 10%nat) as Hpre1 by (subst pre1; rewrite length_take; lia).
  assert (length rest1 = (length buf_out - 10)%nat) as Hrest1
    by (subst rest1; rewrite length_drop; lia).
  (* the hex groups *)
  replace (8 + 2)%nat with (length pre1) by lia.
  destruct (hex_loop_run buf_in n (Z.to_nat first) pre1 rest1) as (rest2 & Hhex & Hrest2);
    [lia..|].
  rewrite Hhex. cbn [mbind option_bind].
  fold row. set (groups := hex_groups row).
  assert (length groups = (3 * n)%nat) as Hgroups
    by (subst groups; rewrite hex_groups_length; lia).
  (* the padding *)
  replace (pre1 ++ groups ++ rest2) with ((pre1 ++ groups) ++ rest2) by (by rewrite <- app_assoc).
  replace (length pre1 + 3 * n)%nat with (length (pre1 ++ groups)) by (rewrite length_app; lia).
  rewrite pad_loop_run by lia. cbn [mbind option_bind].
  set (pad := repeat SP (3 * (16 - n))).
  assert (length pad = (3 * (16 - n))%nat) as Hpad by (subst pad; apply repeat_length).
  set (rest3 := drop (3 * (16 - n)) rest2).
  assert (length rest3 = (length buf_out - 58)%nat) as Hrest3
    by (subst rest3; rewrite length_drop; lia).
  (* the separator *)
  replace ((pre1 ++ groups) ++ pad ++ rest3) with ((pre1 ++ groups ++ pad) ++ rest3)
    by (by rewrite <- !app_assoc).
  replace (length (pre1 ++ groups) + 3 * (16 - n))%nat with (length (pre1 ++ groups ++ pad))
    by (rewrite !length_app; lia).
  rewrite poke_app by (cbn [length]; lia). cbn [mbind option_bind length].
  set (sep := [SP; "|"%char; SP]).
  assert (length sep = 3%nat) as Hsep by done.
  (* the text *)
  replace ((pre1 ++ groups ++ pad) ++ sep ++ drop 3 rest3)
    with ((pre1 ++ groups ++ pad ++ sep) ++ drop 3 rest3) by (by rewrite <- !app_assoc).
  replace (length (pre1 ++ groups ++ pad) + 3)%nat with (length (pre1 ++ groups ++ pad ++ sep))
    by (rewrite !length_app; cbn; lia).
  rewrite text_loop_run by (rewrite ?length_drop; lia). cbn [mbind option_bind].
  fold row. set (text := map text_char row).
  (* the terminator *)
  replace ((pre1 ++ groups ++ pad ++ sep) ++ text ++ drop n (drop 3 rest3))
    with ((pre1 ++ groups ++ pad ++ sep ++ text) ++ drop n (drop 3 rest3))
    by (by rewrite <- !app_assoc).
  replace (length (pre1 ++ groups ++ pad ++ sep) + n)%nat
    with (length (pre1 ++ groups ++ pad ++ sep ++ text))
    by (subst text; rewrite !length_app, length_map; subst row;
        rewrite length_take, length_drop; cbn; lia).
  rewrite poke_app by (cbn; rewrite !length_drop; lia).
  eexists _, (drop 1 (drop n (drop 3 rest3))). split; [reflexivity|]. split.
  - subst text row. rewrite !length_app, length_map, !length_drop, length_take, length_drop.
    cbn [length]. lia.
  - rewrite Hpre, Hrow. fold n. subst pad. rewrite <- !app_assoc. reflexivity.
Qed.

Lemma string_of_list_ascii_length l : String.length (string_of_list_ascii l) = length l.
Proof. induction l as [|c l IH]; cbn; [done|]. by rewrite IH. Qed.

(** C9. For every input buffer, size and row offset with
    [offset * 16 < buf_in_size] (the rows [log_raw] asks for), with the buffer
    holding the bytes it is said to hold, [compose_hexdump_line] run on an
    array of 100 characters makes no write outside the array, and the string
    it leaves has [61 + limit <= 77] characters, so that with its NUL it takes
    at most 78 of the 100 bytes. *)
Theorem hexdump_line_fits buf_in buf_in_size offset buf_out :
  0 <= offset -> offset * 16 < buf_in_size ->
  buf_in_size <= Z.of_nat (length buf_in) -> buf_in_size < 2 ^ 64 ->
  length buf_out = 100%nat ->
  exists out' text,
    compose_hexdump_line buf_in buf_in_size offset buf_out = Some out' /\
    length out' = 100%nat /\
    c_str out' = Some text /\
    String.length text = (61 + Z.to_nat (Z.min 16 (buf_in_size - offset * 16)))%nat /\
    (String.length text + 1 <= 78)%nat.
Proof.
  intros H0 H1 H2 H3 Hout.
  destruct (compose_hexdump_line_text buf_in buf_in_size offset buf_out)
    as (out' & tail & Hrun & Hlen & ->); [lia..|].
  pose proof (row_bytes_length buf_in buf_in_size offset H0 H1 H2) as Hrow.
  eexists _, _. split; [exact Hrun|]. split; [congruence|].
  split; [apply c_str_terminated, line_text_not_NUL|].
  rewrite string_of_list_ascii_length, line_text_length by lia. lia.
Qed.

Lemma hexdump_line_fits_witness :
  exists out' text,
    compose_hexdump_line buffer20 20 1 stale_line = Some out' /\
    length out' = 100%nat /\
    c_str out' = Some text /\
    String.length text = (61 + Z.to_nat (Z.min 16 (20 - 1 * 16)))%nat /\
    (String.length text + 1 <= 78)%nat.
Proof.
  apply (hexdump_line_fits buffer20 20 1 stale_line).
  - lia.
  - lia.
  - cbn. lia.
  - lia.
  - reflexivity.
Defined.

(** ** [log_raw] on twenty bytes *)

Lemma row_bytes_20_first buf :
  length buf = 20%nat -> row_bytes buf 20 0 = take 16 buf.
Proof. intros H. unfold row_bytes. cbn. by rewrite drop_0. Qed.

Lemma row_bytes_20_second buf :
  length buf = 20%nat -> row_bytes buf 20 1 = drop 16 buf.
Proof.
  intros H. unfold row_bytes. cbn [Z.mul Z.sub Z.min Z.to_nat Z.compare Z.opp Z.add
    Z.pos_sub Pos.mul Pos.compare Pos.compare_cont Pos.to_nat Pos.iter_op Nat.add
    Pos.pred_double Z.double Z.succ_double Z.pred_double Pos.add Pos.succ Z.of_nat].
  change (Z.to_nat (16 `min` (20 - 1 * 16))) with 4%nat.
  change (Z.to_nat (1 * 16)) with 16%nat.
  apply take_ge. rewrite length_drop. lia.
Qed.

Lemma log_raw_loop_20 buf hexdump_line q :
  length buf = 20%nat -> length hexdump_line = 100%nat ->
  log_raw_loop buf 20 0 hexdump_line 3 q =
    Ok tt (set_stderr
             (stderr q ++
                [string_of_list_ascii (line_text 0 (take 16 buf)) +:+ LF;
                 string_of_list_ascii (line_text 16 (drop 16 buf)) +:+ LF]) q).
Proof.
  intros Hbuf Hline.
  destruct (compose_hexdump_line_text buf 20 0 hexdump_line)
    as (out1 & tail1 & Hrun1 & Hlen1 & Hout1); [lia..|].
  destruct (compose_hexdump_line_text buf 20 1 out1)
    as (out2 & tail2 & Hrun2 & Hlen2 & Hout2); [lia..|].
  rewrite row_bytes_20_first in Hout1 by done.
  rewrite row_bytes_20_second in Hout2 by done.
  subst out1 out2.
  cbn [log_raw_loop].
  change (0 <? 20) with true. change (0 / 16) with 0. cbv iota.
  rewrite Hrun1. rewrite c_str_terminated by apply line_text_not_NUL.
  unfold bind at 1. unfold fprintf_stderr at 1.
  change (size_t_wrap (0 + 16)) with 16.
  change (16 <? 20) with true. change (16 / 16) with 1. cbv iota.
  rewrite Hrun2. rewrite c_str_terminated by apply line_text_not_NUL.
  unfold bind at 1. unfold fprintf_stderr at 1.
  change (size_t_wrap (16 + 16)) with 32. change (32 <? 20) with false. cbv iota.
  unfold ret, set_stderr. cbn. by rewrite <- app_assoc.
Qed.

Lemma line_text_first_row row :
  length row = 16%nat ->
  line_text 0 row =
    list_ascii_of_string "00000000  " ++ hex_groups row ++ [SP; "|"%char; SP] ++ map text_char row.
Proof. intros H. unfold line_text. rewrite H. reflexivity. Qed.

Lemma line_text_second_row row :
  length row = 4%nat ->
  line_text 16 row =
    list_ascii_of_string "00000010  " ++ hex_groups row ++ repeat SP 36 ++
    [SP; "|"%char; SP] ++ map text_char row.
Proof. intros H. unfold line_text. rewrite H. reflexivity. Qed.

(** C8. [log_raw] on a buffer of 20 bytes, for a source the gate lets through
    at [LL_RAW], writes the prefix line and exactly two dump rows. Row 0 is
    the offset [00000000], two blanks, 16 groups of a blank and two
    upper-case hexadecimal digits, the separator and 16 characters of text.
    Row 1 is the offset [00000010] (16), two blanks, 4 such groups, 36 blanks
    in place of the 12 missing groups, the separator and exactly 4 characters
    of text, with nothing after them. In the text a byte that is not
    printable reads as a dot. *)
Theorem raw_dump_of_20_bytes cfg dt hexdump_line src file line function buf p :
  length buf = 20%nat -> length hexdump_line = 100%nat ->
  initialized (log_ctx p) = true -> mutex_usable p ->
  is_log_allowed src LL_RAW p = Ok true p ->
  let row0 := take 16 buf in
  let row1 := drop 16 buf in
  log_raw cfg dt hexdump_line src file line function (Some buf) 20 p =
    Ok tt
      (set_stderr
         (stderr p ++
            [snprintf (Z.to_nat 8192)
               (compose_log_prefix cfg dt 128 src file line function LL_RAW +:+ LF);
             string_of_list_ascii
               (list_ascii_of_string "00000000  " ++ hex_groups row0 ++
                [SP; "|"%char; SP] ++ map text_char row0) +:+ LF;
             string_of_list_ascii
               (list_ascii_of_string "00000010  " ++ hex_groups row1 ++ repeat SP 36 ++
                [SP; "|"%char; SP] ++ map text_char row1) +:+ LF]) p) /\
  length (hex_groups row0) = (16 * 3)%nat /\ length (map text_char row0) = 16%nat /\
  length (hex_groups row1) = (4 * 3)%nat /\ length (map text_char row1) = 4%nat.
Proof.
  intros Hbuf Hline Hi Hm Hgate row0 row1.
  assert (length row0 = 16%nat) as Hrow0 by (subst row0; rewrite length_take; lia).
  assert (length row1 = 4%nat) as Hrow1 by (subst row1; rewrite length_drop; lia).
  split; [|by rewrite !hex_groups_length, !length_map, Hrow0, Hrow1].
  rewrite <- line_text_first_row, <- line_text_second_row by done.
  assert (LL_INVALID < LL_RAW < LL_CNT) as Hraw by (unfold LL_INVALID, LL_RAW, LL_CNT; lia).
  rewrite is_log_allowed_run in Hgate by done. injection Hgate as Hgate.
  unfold log_raw.
  change (S (Z.to_nat (20 / 16 + 1))) with 3%nat.
  pose proof (fun q => log_raw_loop_20 buf hexdump_line q Hbuf Hline) as Hloop.
  set (loop := log_raw_loop buf 20 0 hexdump_line 3) in *. clearbody loop.
  set (prefix_line := snprintf _ _).
  unfold bind at 1. unfold get_ctx at 1. rewrite Hi. cbn [negb].
  open_process p. subst ini.
  split_mutex; unfold bind at 1; unfold_prims; cbn [mutex use_mutex log_ctx].
  all: unfold_setters; cbn [log_ctx heap allocator stderr source_hm ctx_min_log_level
                              mutex use_mutex initialized].
  all: rewrite is_log_allowed_run by done; unfold registered_level;
    cbn [log_ctx heap allocator stderr source_hm ctx_min_log_level
         mutex use_mutex initialized]; rewrite Hgate.
  all: unfold fprintf_stderr at 1; unfold_setters.
  all: rewrite Hloop.
  all: cbn [log_ctx heap allocator stderr source_hm ctx_min_log_level
            mutex use_mutex initialized].
  all: by rewrite <- app_assoc.
Qed.

Lemma raw_dump_of_20_bytes_witness :
  log_raw build_plain midnight stale_line "NET" "src/main.c" "42" "main" (Some buffer20) 20
    process_raw =
  Ok tt
    (set_stderr
       ["[R][NET             ][main.c              :   42]" +:+ LF;
        "00000000   48 65 6C 6C 6F 2C 20 77 6F 72 6C 64 21 20 31 32 | Hello, world! 12" +:+ LF;
        "00000010   33 34 35 01                                     | 345." +:+ LF]
       process_raw).
Proof.
  apply (proj1 (raw_dump_of_20_bytes build_plain midnight stale_line "NET" "src/main.c" "42"
                  "main" buffer20 process_raw eq_refl eq_refl eq_refl
                  (fun H : false = true => False_ind _ (Bool.diff_false_true H)) eq_refl)).
Defined.

(** ** Registering a name that fits, twice *)

(** With at most one element under a name that fits the stored array, a
    successful registration leaves exactly one, carrying the new level. *)
Lemma register_effect_single_entry src lvl p p' :
  strlen src < LOG_SRC_STORED_MAX_SIZE -> registry_ok p ->
  (length (entries_named p src) <= 1)%nat ->
  register_effect src lvl p true p' ->
  length (entries_named p' src) = 1%nat /\ registered_level p' src = Some lvl.
Proof.
  intros Hfit [_ Hlive] Hone H.
  split; [|by eapply register_effect_lookup].
  pose proof (hash_find_entries p src) as Hfind.
  inversion H as [|?|a e Hl Hf Ha|a rest Hl Hs Hf Hal Ha]; subst.
  - rewrite Hf in Hfind. rewrite (entries_named_same_keys p); cbn; [|done|].
    + destruct (entries_named p src) as [|x [|y l]]; cbn in *; [|done|lia].
      by apply elem_of_nil in Hfind.
    + intros b _. unfold key_matches. destruct (decide (a = b)) as [->|Hne].
      * by rewrite lookup_insert_eq, Ha.
      * by rewrite lookup_insert_ne.
  - rewrite Hf in Hfind. unfold entries_named in *. cbn. rewrite List.filter_app. cbn.
    unfold key_matches at 2. rewrite lookup_insert_eq. cbn.
    rewrite strncpy_terminated_fits, String.eqb_refl by done.
    rewrite length_app. cbn.
    erewrite filter_ext_in; [rewrite Hfind; done|].
    intros b Hb. unfold key_matches. rewrite lookup_insert_ne; [done|].
    intros ->. apply list_elem_of_In, Hlive in Hb as (e & He & _). congruence.
Qed.

(** Registering a name that fits the stored array twice, in a registry with
    at most one element under that name, leaves exactly one element under it,
    with the level of the second call. *)
Lemma log_register_twice_fitting src l1 l2 p p1 p2 :
  mutex_usable p -> strlen src < LOG_SRC_STORED_MAX_SIZE -> registry_ok p ->
  (length (entries_named p src) <= 1)%nat ->
  log_register src l1 p = Ok true p1 ->
  log_register src l2 p1 = Ok true p2 ->
  length (entries_named p2 src) = 1%nat /\ log_get_src_level src p2 = Ok l2 p2.
Proof.
  intros Hm Hfit Hok Hone H1 H2.
  pose proof (log_register_effect _ _ _ _ _ H1) as E1.
  pose proof (log_register_effect _ _ _ _ _ H2) as E2.
  destruct (register_effect_single_entry _ _ _ _ Hfit Hok Hone E1) as [Hone1 _].
  pose proof (register_effect_registry_ok _ _ _ _ _ E1 Hok) as Hok1.
  destruct (register_effect_single_entry src l2 p1 p2 Hfit Hok1) as [Hone2 _]; [lia|done|].
  split; [done|]. eapply log_register_then_lookup; [|done|exact H2].
  pose proof (register_effect_mutex _ _ _ _ _ E1) as (Hmx & Hum & _).
  unfold mutex_usable in *. by rewrite Hmx, Hum.
Qed.

(** * Further properties of the registry *)

Lemma rev_filter {A} (P : A -> Prop) `{forall x, Decision (P x)} (l : list A) :
  rev (filter P l) = filter P (rev l).
Proof.
  induction l as [|x l IH]; [done|]. cbn [rev]. rewrite filter_app, <- IH.
  rewrite filter_cons. destruct (decide (P x)).
  - by rewrite filter_cons_True.
  - rewrite filter_cons_False by done. by rewrite filter_nil, app_nil_r.
Qed.

Lemma find_filter_skip {A} `{EqDecision A} (f g : A -> bool) (a : A) (l : list A) :
  f a = false -> (forall x, x <> a -> g x = f x) ->
  find g (filter (fun x => x ≠ a) l) = find f l.
Proof.
  intros Ha Hg. induction l as [|x l IH]; [done|].
  rewrite filter_cons. destruct (decide (x ≠ a)) as [Hne|Heq]; cbn.
  - rewrite Hg by done. by destruct (f x).
  - apply dec_stable in Heq. subst. by rewrite Ha.
Qed.

Lemma registered_level_same p p' key :
  hash_find (heap p') (source_hm (log_ctx p')) key =
    hash_find (heap p) (source_hm (log_ctx p)) key ->
  (forall b, key_matches (heap p) key b = true -> heap p' !! b = heap p !! b) ->
  registered_level p' key = registered_level p key.
Proof.
  intros Hf Hh. unfold registered_level. rewrite Hf.
  destruct (hash_find (heap p) _ key) as [b|] eqn:Hb; [|done].
  rewrite Hh; [done|]. unfold hash_find in Hb. by apply find_some in Hb as [_ ?].
Qed.

Lemma key_matches_live h key b :
  key_matches h key b = true -> exists e, h !! b = Some (ElementBlock e) /\ source e = key.
Proof.
  unfold key_matches. destruct (h !! b) as [[e|]|]; try done.
  intros He. exists e. split; [done|]. by apply String.eqb_eq.
Qed.

Lemma register_effect_other_names src lvl p r p' key :
  register_effect src lvl p r p' ->
  key <> src -> key <> strncpy_terminated src (LOG_SRC_STORED_MAX_SIZE - 1) ->
  registered_level p' key = registered_level p key.
Proof.
  intros H Hk1 Hk2.
  destruct H as [|rest Hal|a e Hl Hf Ha|a rest Hl Hs Hf Hal Ha]; try done.
  - apply hash_find_Some in Hf as (_ & e0 & He0 & Hsrc).
    assert (e0 = e) as -> by congruence.
    assert (key_matches (heap p) key a = false) as Hka.
    { unfold key_matches. rewrite Ha. apply String.eqb_neq. congruence. }
    apply registered_level_same; cbn.
    + apply hash_find_same_keys. intros b _. unfold key_matches.
      destruct (decide (a = b)) as [->|Hne].
      * by rewrite lookup_insert_eq, Ha.
      * by rewrite lookup_insert_ne.
    + intros b Hb. rewrite lookup_insert_ne; [done|]. intros ->. congruence.
  - assert (key_matches (<[a := ElementBlock
                {| source := strncpy_terminated src (LOG_SRC_STORED_MAX_SIZE - 1);
                   min_log_level := lvl |}]> (heap p)) key a = false) as Hka.
    { unfold key_matches. rewrite lookup_insert_eq. cbn. by apply String.eqb_neq. }
    apply registered_level_same; cbn.
    + unfold hash_find at 1. rewrite rev_app_distr. cbn. rewrite Hka.
      fold (hash_find (<[a := ElementBlock
                {| source := strncpy_terminated src (LOG_SRC_STORED_MAX_SIZE - 1);
                   min_log_level := lvl |}]> (heap p)) (source_hm (log_ctx p)) key).
      apply hash_find_same_keys. intros b _.
      destruct (decide (a = b)) as [->|Hne].
      * rewrite Hka. unfold key_matches. by rewrite Ha.
      * unfold key_matches. by rewrite lookup_insert_ne.
    + intros b Hb. apply key_matches_live in Hb as (e & He & _).
      rewrite lookup_insert_ne; [done|]. intros ->. congruence.
Qed.

Lemma unregister_other_names src p a key :
  hash_find (heap p) (source_hm (log_ctx p)) src = Some a -> key <> src ->
  registered_level
    (set_heap (delete a (heap p))
       (set_log_ctx (set_source_hm (filter (fun x => x ≠ a) (source_hm (log_ctx p)))
                       (log_ctx p)) p)) key = registered_level p key.
Proof.
  intros Hf Hk. apply hash_find_Some in Hf as (_ & e & He & Hsrc).
  assert (key_matches (heap p) key a = false) as Hka.
  { unfold key_matches. rewrite He. apply String.eqb_neq. congruence. }
  apply registered_level_same; cbn.
  - unfold hash_find. rewrite rev_filter. apply find_filter_skip; [done|].
    intros x Hx. unfold key_matches. by rewrite lookup_delete_ne.
  - intros b Hb. rewrite lookup_delete_ne; [done|]. intros ->. congruence.
Qed.

Lemma log_unregister_run src p :
  mutex_usable p -> initialized (log_ctx p) = true ->
  log_unregister src p =
    Ok tt (match hash_find (heap p) (source_hm (log_ctx p)) src with
           | Some a =>
               set_heap (delete a (heap p))
                 (set_log_ctx (set_source_hm (filter (fun x => x ≠ a) (source_hm (log_ctx p)))
                                 (log_ctx p)) p)
           | None => p
           end).
Proof.
  intros Hm Hi. open_process p. subst. unfold log_unregister.
  split_mutex; run_fwd.
  all: destruct (hash_find h hm src) as [a|] eqn:Hf; cbn; [|done].
  all: apply hash_find_Some in Hf as (_ & e & Ha & _); by rewrite Ha.
Qed.

Lemma filter_not_elem {A} `{EqDecision A} (a : A) (l : list A) :
  a ∉ l -> filter (fun x => x ≠ a) l = l.
Proof.
  induction l as [|x l IH]; intros Ha; [done|].
  rewrite filter_cons_True by (intros ->; apply Ha; left).
  f_equal. apply IH. intros Hin. apply Ha. by right.
Qed.

Lemma two_members {A} (a b : A) (l : list A) :
  a ∈ l -> b ∈ l -> a <> b -> (2 <= length l)%nat.
Proof.
  intros Ha Hb Hne. destruct l as [|x [|y l]]; cbn; [| |lia].
  - by apply elem_of_nil in Ha.
  - apply list_elem_of_singleton in Ha, Hb. congruence.
Qed.

Lemma entries_named_elem p src b :
  b ∈ entries_named p src <->
  b ∈ source_hm (log_ctx p) /\ key_matches (heap p) src b = true.
Proof. unfold entries_named. by rewrite list_elem_of_In, filter_In, <- list_elem_of_In. Qed.

(** X1. A call of [log_register] for [src] leaves every other source as it
    was: for a name [key] that is neither [src] nor the 127 characters [src]
    is cut to, the lookup finds the same level before and after, and the
    global level stays; so the gate decides as before for those sources. *)
Theorem register_leaves_other_sources src lvl p r p' key :
  log_register src lvl p = Ok r p' ->
  key <> src -> key <> strncpy_terminated src (LOG_SRC_STORED_MAX_SIZE - 1) ->
  registered_level p' key = registered_level p key /\
  ctx_min_log_level (log_ctx p') = ctx_min_log_level (log_ctx p).
Proof.
  intros H Hk1 Hk2. apply log_register_effect in H. split.
  - by eapply register_effect_other_names.
  - by apply register_effect_mutex in H as (_ & _ & _ & ?).
Qed.

Lemma register_leaves_other_sources_witness :
  exists p',
    log_register "DISK" LL_TRACE process_net = Ok true p' /\
    registered_level p' "NET" = registered_level process_net "NET" /\
    ctx_min_log_level (log_ctx p') = ctx_min_log_level (log_ctx process_net).
Proof.
  eexists. split; [reflexivity|].
  apply (register_leaves_other_sources "DISK" LL_TRACE process_net true _ "NET" eq_refl).
  - discriminate.
  - vm_compute. discriminate.
Defined.

(** X2. In an initialised context whose lock can be taken, [log_unregister]
    of a source that has at most one element in the registry returns, the
    lookup of that source then gives [LL_INVALID], and every other source
    keeps the level the lookup found for it. *)
Theorem unregister_removes_source src p :
  mutex_usable p -> initialized (log_ctx p) = true ->
  (length (entries_named p src) <= 1)%nat ->
  exists p',
    log_unregister src p = Ok tt p' /\
    log_get_src_level src p' = Ok LL_INVALID p' /\
    forall key, key <> src -> registered_level p' key = registered_level p key.
Proof.
  intros Hm Hi Hone. pose proof (log_unregister_run src p Hm Hi) as Hrun.
  eexists. split; [exact Hrun|]. clear Hrun.
  destruct (hash_find (heap p) (source_hm (log_ctx p)) src) as [a|] eqn:Hf.
  - split.
    + rewrite log_get_src_level_run by (unfold mutex_usable in *; done).
      assert (registered_level
                (set_heap (delete a (heap p))
                   (set_log_ctx (set_source_hm (filter (fun x => x ≠ a) (source_hm (log_ctx p)))
                                   (log_ctx p)) p)) src = None) as ->; [|done].
      apply registered_level_None. intros (b & e & Hb & He & Hs). cbn in Hb, He.
      apply list_elem_of_filter in Hb as [Hne Hb].
      rewrite lookup_delete_ne in He by done.
      pose proof (hash_find_entries p src) as Ha. rewrite Hf in Ha.
      assert (b ∈ entries_named p src) as Hb'.
      { apply entries_named_elem. split; [done|]. unfold key_matches. rewrite He.
        by apply String.eqb_eq. }
      pose proof (two_members a b _ Ha Hb' ltac:(congruence)). lia.
    + intros key Hk. by apply (unregister_other_names src).
  - split; [|done]. rewrite log_get_src_level_run by done.
    unfold registered_level. by rewrite Hf.
Qed.

Lemma unregister_removes_source_witness :
  exists p',
    log_unregister "NET" process_net = Ok tt p' /\
    log_get_src_level "NET" p' = Ok LL_INVALID p' /\
    forall key, key <> "NET"%string -> registered_level p' key = registered_level process_net key.
Proof.
  apply (unregister_removes_source "NET" process_net).
  - unfold mutex_usable. cbn. discriminate.
  - reflexivity.
  - vm_compute. lia.
Defined.

(** X3. [log_unregister] of a source that has no element in the registry, or
    in a context that is not initialised, returns and changes nothing. *)
Theorem unregister_absent_changes_nothing src p :
  mutex_usable p ->
  initialized (log_ctx p) = false \/ ~ registered p src ->
  log_unregister src p = Ok tt p.
Proof.
  intros Hm [Hi|Hn].
  - open_process p. subst. unfold log_unregister. by run_fwd.
  - destruct (initialized (log_ctx p)) eqn:Hi.
    + rewrite log_unregister_run by done.
      apply registered_level_None in Hn. unfold registered_level in Hn.
      destruct (hash_find _ _ _) as [a|] eqn:Hf; [|done].
      apply hash_find_Some in Hf as (_ & e & He & _). by rewrite He in Hn.
    + open_process p. subst. unfold log_unregister. by run_fwd.
Qed.

Lemma unregister_absent_changes_nothing_witness :
  log_unregister "DISK" process_net = Ok tt process_net /\
  log_unregister "NET" (process_start []) = Ok tt (process_start []).
Proof.
  split.
  - apply (unregister_absent_changes_nothing "DISK" process_net).
    + unfold mutex_usable. cbn. discriminate.
    + right. apply registered_level_None. vm_compute. reflexivity.
  - apply (unregister_absent_changes_nothing "NET" (process_start [])).
    + unfold mutex_usable. cbn. discriminate.
    + left. reflexivity.
Defined.

Lemma log_ctx_eta c :
  {| source_hm := source_hm c; ctx_min_log_level := ctx_min_log_level c; mutex := mutex c;
     use_mutex := use_mutex c; initialized := initialized c |} = c.
Proof. by destruct c. Qed.

(** X4. Registering a source that is not yet in the registry, under a name
    that fits the stored array, and unregistering it again gives back the
    heap and the logging context the process had before; only the allocation
    has been used up. *)
Theorem register_then_unregister_restores src lvl p a rest :
  mutex_usable p -> initialized (log_ctx p) = true -> registry_ok p ->
  invalid_level lvl = false -> strlen src < LOG_SRC_STORED_MAX_SIZE ->
  ~ registered p src ->
  allocator p = Some a :: rest -> heap p !! a = None ->
  exists p1 p2,
    log_register src lvl p = Ok true p1 /\
    log_unregister src p1 = Ok tt p2 /\
    heap p2 = heap p /\ log_ctx p2 = log_ctx p /\ allocator p2 = rest.
Proof.
  intros Hm Hi [_ Hlive] Hl Hfit Hn Hal Ha.
  assert (hash_find (heap p) (source_hm (log_ctx p)) src = None) as Hf.
  { apply registered_level_None in Hn. unfold registered_level in Hn.
    destruct (hash_find _ _ _) as [b|] eqn:Hb; [|done].
    apply hash_find_Some in Hb as (_ & e & He & _). by rewrite He in Hn. }
  pose proof (log_register_insert_run src lvl p a rest Hm Hi Hl ltac:(lia) Hf Hal Ha) as Hreg.
  eexists _, _. split; [exact Hreg|].
  set (p1 := Build_process _ _ _ _) in *.
  assert (hash_find (heap p1) (source_hm (log_ctx p1)) src = Some a) as Hf1.
  { subst p1. cbn. unfold hash_find. rewrite rev_app_distr. cbn.
    unfold key_matches at 1. rewrite lookup_insert_eq. cbn.
    by rewrite strncpy_terminated_fits, String.eqb_refl. }
  rewrite log_unregister_run, Hf1 by (unfold mutex_usable in *; done).
  split; [reflexivity|]. subst p1. cbn.
  assert (a ∉ source_hm (log_ctx p)) as Hfresh.
  { intros Hin. apply Hlive in Hin as (e & He & _). congruence. }
  split; [by apply delete_insert_id|]. split; [|done].
  unfold set_source_hm. cbn. rewrite filter_app, filter_not_elem by done.
  rewrite filter_cons_False by (intros H; by apply H). rewrite filter_nil, app_nil_r.
  apply log_ctx_eta.
Qed.

Lemma register_then_unregister_restores_witness :
  exists p1 p2,
    log_register "DISK" LL_TRACE process_net = Ok true p1 /\
    log_unregister "DISK" p1 = Ok tt p2 /\
    heap p2 = heap process_net /\ log_ctx p2 = log_ctx process_net /\
    allocator p2 = [Some 1%positive].
Proof.
  apply (register_then_unregister_restores "DISK" LL_TRACE process_net 2%positive).
  - unfold mutex_usable. cbn. discriminate.
  - reflexivity.
  - apply reachable_registry_ok, reachable_process_net.
  - reflexivity.
  - vm_compute. reflexivity.
  - apply registered_level_None. vm_compute. reflexivity.
  - reflexivity.
  - vm_compute. reflexivity.
Defined.

Lemma log_get_global_level_run p :
  mutex_usable p -> log_get_global_level p = Ok (ctx_min_log_level (log_ctx p)) p.
Proof.
  intros Hm. open_process p. unfold log_get_global_level. split_mutex; by run_fwd.
Qed.

(** X5. In an initialised context whose lock can be taken,
    [log_set_log_level] with a real level succeeds, [log_get_global_level]
    then returns that level, and the registry and the heap are as before, so
    that no source changes its own level. *)
Theorem set_log_level_then_get lvl p :
  mutex_usable p -> initialized (log_ctx p) = true -> invalid_level lvl = false ->
  exists p',
    log_set_log_level lvl p = Ok true p' /\
    log_get_global_level p' = Ok lvl p' /\
    heap p' = heap p /\ source_hm (log_ctx p') = source_hm (log_ctx p) /\
    forall src, registered_level p' src = registered_level p src.
Proof.
  intros Hm Hi Hl.
  assert (log_set_log_level lvl p =
            Ok true (set_log_ctx (set_ctx_min_log_level lvl (log_ctx p)) p)) as Hrun.
  { open_process p. subst. unfold log_set_log_level. rewrite Hl. split_mutex; by run_fwd. }
  eexists. split; [exact Hrun|]. split; [|done].
  rewrite log_get_global_level_run; [done|]. unfold mutex_usable in *. done.
Qed.

Lemma set_log_level_then_get_witness :
  exists p',
    log_set_log_level LL_ERROR process_net = Ok true p' /\
    log_get_global_level p' = Ok LL_ERROR p' /\
    heap p' = heap process_net /\
    source_hm (log_ctx p') = source_hm (log_ctx process_net) /\
    forall src, registered_level p' src = registered_level process_net src.
Proof.
  apply (set_log_level_then_get LL_ERROR process_net).
  - unfold mutex_usable. cbn. discriminate.
  - reflexivity.
  - reflexivity.
Defined.

(** X6. Before [log_init] has succeeded nothing can be set up or written:
    [log_register], [log_register_ex] and [log_set_log_level] return failure,
    [log_src_dump] returns NULL, [log_unregister], [log_raw] and, for a level
    that passes its assertions, [log_log] return at once, [log_destroy]
    reports success, and each of them leaves the process as it was. *)
Theorem uninitialized_context_refuses p :
  initialized (log_ctx p) = false ->
  (forall src lvl, log_register src lvl p = Ok false p) /\
  (forall descr n, log_register_ex descr n p = Ok false p) /\
  (forall lvl, log_set_log_level lvl p = Ok false p) /\
  (forall src, log_unregister src p = Ok tt p) /\
  log_src_dump p = Ok None p /\
  (forall ok, log_destroy ok p = Ok true p) /\
  (forall cfg dt render src file line function lvl fmt,
     LL_INVALID < lvl < LL_CNT ->
     log_log cfg dt render src file line function lvl fmt p = Ok tt p) /\
  (forall cfg dt hexdump_line src file line function buffer len,
     log_raw cfg dt hexdump_line src file line function buffer len p = Ok tt p).
Proof.
  intros Hi. open_process p. subst.
  repeat match goal with |- _ /\ _ => split end; intros.
  - unfold log_register. by destruct (invalid_level lvl).
  - reflexivity.
  - unfold log_set_log_level. by destruct (invalid_level lvl).
  - reflexivity.
  - reflexivity.
  - reflexivity.
  - unfold log_log.
    assert ((lvl >? LL_INVALID) = true) as -> by (apply Z.gtb_gt; lia).
    assert ((lvl <? LL_CNT) = true) as -> by (apply Z.ltb_lt; lia).
    reflexivity.
  - reflexivity.
Qed.

Lemma uninitialized_context_refuses_witness :
  log_register "NET" LL_DEBUG (process_start [Some 1%positive]) =
    Ok false (process_start [Some 1%positive]) /\
  log_src_dump (process_start [Some 1%positive]) = Ok None (process_start [Some 1%positive]).
Proof.
  destruct (uninitialized_context_refuses (process_start [Some 1%positive]) eq_refl)
    as (Hreg & _ & _ & _ & Hdump & _).
  split; [apply Hreg|exact Hdump].
Defined.

Lemma hash_find_registered p src :
  hash_find (heap p) (source_hm (log_ctx p)) src = None <-> ~ registered p src.
Proof.
  rewrite <- registered_level_None. unfold registered_level.
  destruct (hash_find _ _ _) as [a|] eqn:Hf; [|done].
  apply hash_find_Some in Hf as (_ & e & He & _). by rewrite He.
Qed.

Lemma log_register_uninitialized src lvl p :
  initialized (log_ctx p) = false -> log_register src lvl p = Ok false p.
Proof.
  intros H. open_process p. cbn in H. subst. unfold log_register.
  destruct (invalid_level lvl); run_fwd; done.
Qed.

Lemma log_register_no_memory_run src lvl p :
  mutex_usable p -> initialized (log_ctx p) = true ->
  invalid_level lvl = false -> strlen src <= LOG_SRC_STORED_MAX_SIZE ->
  hash_find (heap p) (source_hm (log_ctx p)) src = None ->
  (forall a rest, allocator p <> Some a :: rest) ->
  log_register src lvl p = Ok false (set_allocator (tail (allocator p)) p).
Proof.
  intros Hm Hi Hl Hs Hf Hal. open_process p. subst.
  apply Z.ltb_ge in Hs. rewrite <- Z.gtb_ltb in Hs.
  unfold log_register.
  destruct al as [|[a|] rest]; [|by edestruct Hal|].
  all: split_mutex; by run_fwd.
Qed.

(** X7. Where the lock can be taken and the allocator hands out free memory,
    [log_register] always returns. It fails exactly when the level is not a
    real level, the context is not initialised, the name has more than 128
    characters, or the source is not in the registry and the allocator
    returns NULL; and a failed call leaves the heap and the logging context
    as they were. *)
Theorem register_fails_exactly_when src lvl p :
  mutex_usable p ->
  (forall a rest, allocator p = Some a :: rest -> heap p !! a = None) ->
  exists r p',
    log_register src lvl p = Ok r p' /\
    (r = false <->
       invalid_level lvl = true \/ initialized (log_ctx p) = false \/
       strlen src > LOG_SRC_STORED_MAX_SIZE \/
       (~ registered p src /\ forall a rest, allocator p <> Some a :: rest)) /\
    (r = false -> heap p' = heap p /\ log_ctx p' = log_ctx p).
Proof.
  intros Hm Hfree.
  destruct (invalid_level lvl) eqn:Hl.
  { exists false, p. rewrite log_register_invalid_level by done.
    split; [done|]. split; [|done]. split; [|done]. intros _. by left. }
  destruct (initialized (log_ctx p)) eqn:Hi; cycle 1.
  { exists false, p. rewrite log_register_uninitialized by done.
    split; [done|]. split; [|done]. split; [|done]. intros _. right. by left. }
  destruct (Z.gtb_spec (strlen src) LOG_SRC_STORED_MAX_SIZE) as [Hlong|Hs].
  { exists false, p. rewrite log_register_too_long by lia. split; [done|]. split; [|done].
    split; [|done]. intros _. right. right. left. lia. }
  destruct (hash_find (heap p) (source_hm (log_ctx p)) src) as [b|] eqn:Hf.
  { pose proof Hf as Hb. apply hash_find_Some in Hb as (Hin & e & He & Hsrc).
    eexists true, _. rewrite (log_register_overwrite_run src lvl p b e) by (done || lia).
    split; [done|]. split; [|done]. split; [done|].
    intros [?|[?|[?|[Hn _]]]]; try done; try lia.
    exfalso. apply Hn. by exists b, e. }
  pose proof (proj1 (hash_find_registered p src) Hf) as Hn.
  destruct (allocator p) as [|[a|] rest] eqn:Hal.
  - eexists false, _. rewrite log_register_no_memory_run by (done || lia || by rewrite Hal).
    split; [done|]. split; [|done]. split; [|done]. intros _.
    do 3 right. split; [done|]. done.
  - eexists true, _. rewrite (log_register_insert_run src lvl p a rest) by (done || lia || eauto).
    split; [done|]. split; [|done]. split; [done|].
    intros [?|[?|[?|[_ Hno]]]]; try done; try lia. by edestruct Hno.
  - eexists false, _. rewrite log_register_no_memory_run by (done || lia || by rewrite Hal).
    split; [done|]. split; [|done]. split; [|done]. intros _.
    do 3 right. split; [done|]. done.
Qed.

Lemma register_fails_exactly_when_witness :
  exists r p',
    log_register "DISK" LL_TRACE (set_allocator [None] process_net) = Ok r p' /\
    (r = false <->
       invalid_level LL_TRACE = true \/
       initialized (log_ctx (set_allocator [None] process_net)) = false \/
       strlen "DISK" > LOG_SRC_STORED_MAX_SIZE \/
       (~ registered (set_allocator [None] process_net) "DISK" /\
        forall a rest, allocator (set_allocator [None] process_net) <> Some a :: rest)) /\
    (r = false -> heap p' = heap (set_allocator [None] process_net) /\
                  log_ctx p' = log_ctx (set_allocator [None] process_net)).
Proof.
  apply (register_fails_exactly_when "DISK" LL_TRACE (set_allocator [None] process_net)).
  - unfold mutex_usable. cbn. discriminate.
  - cbn. discriminate.
Defined.

Lemma log_register_succeeds src lvl p :
  mutex_usable p -> initialized (log_ctx p) = true ->
  invalid_level lvl = false -> strlen src <= LOG_SRC_STORED_MAX_SIZE ->
  registered p src \/ (exists a rest, allocator p = Some a :: rest /\ heap p !! a = None) ->
  exists p', log_register src lvl p = Ok true p'.
Proof.
  intros Hm Hi Hl Hs Hroom.
  destruct (hash_find (heap p) (source_hm (log_ctx p)) src) as [b|] eqn:Hf.
  - pose proof Hf as Hb. apply hash_find_Some in Hb as (_ & e & He & _).
    eexists. by apply (log_register_overwrite_run src lvl p b e).
  - destruct Hroom as [Hr|(a & rest & Hal & Ha)].
    + by apply hash_find_registered in Hf.
    + eexists. by apply (log_register_insert_run src lvl p a rest).
Qed.

(** X8. Registering a source whose name fits the stored field, in an
    initialised context and with memory at hand where the source is new,
    succeeds; afterwards [log_get_src_level] answers the level just given,
    and [log_will_be_printed] lets a request through exactly when its level
    reaches both the global level and the level just given. *)
Theorem register_then_query src lvl s p :
  mutex_usable p -> initialized (log_ctx p) = true ->
  invalid_level lvl = false -> strlen src < LOG_SRC_STORED_MAX_SIZE ->
  registered p src \/ (exists a rest, allocator p = Some a :: rest /\ heap p !! a = None) ->
  LL_INVALID < s < LL_CNT ->
  exists p',
    log_register src lvl p = Ok true p' /\
    log_get_src_level src p' = Ok lvl p' /\
    log_will_be_printed src s p' =
      Ok (check_log_level s (ctx_min_log_level (log_ctx p)) && check_log_level s lvl) p'.
Proof.
  intros Hm Hi Hl Hs Hroom Hrange.
  destruct (log_register_succeeds src lvl p) as [p' Hrun]; [done..|lia|done|].
  exists p'. split; [done|].
  pose proof (log_register_effect _ _ _ _ _ Hrun) as Heff.
  pose proof (register_effect_mutex _ _ _ _ _ Heff) as (Hmx & Hum & _ & Hg).
  assert (mutex_usable p') as Hm'.
  { unfold mutex_usable in *. rewrite Hmx, Hum. done. }
  split; [by apply (log_register_then_lookup src lvl p)|].
  rewrite log_will_be_printed_run, is_log_allowed_run by done.
  by rewrite (register_effect_lookup src lvl p p'), Hg.
Qed.

Lemma register_then_query_witness :
  exists p',
    log_register "DISK" LL_WARNING process_net = Ok true p' /\
    log_get_src_level "DISK" p' = Ok LL_WARNING p' /\
    log_will_be_printed "DISK" LL_INFO p' =
      Ok (check_log_level LL_INFO (ctx_min_log_level (log_ctx process_net)) &&
          check_log_level LL_INFO LL_WARNING) p'.
Proof.
  apply (register_then_query "DISK" LL_WARNING LL_INFO process_net).
  - unfold mutex_usable. cbn. discriminate.
  - reflexivity.
  - reflexivity.
  - vm_compute. reflexivity.
  - right. exists 2%positive, [Some 1%positive]. split; reflexivity.
  - split; reflexivity.
Defined.

(** X9. Registering a name that the registry already finds takes no memory:
    the call succeeds whatever the allocator would answer, the allocator's
    script and the list of elements are untouched, and only the level of the
    found element is replaced. *)
Theorem reregister_takes_no_memory src lvl p :
  mutex_usable p -> initialized (log_ctx p) = true ->
  invalid_level lvl = false -> strlen src <= LOG_SRC_STORED_MAX_SIZE ->
  registered p src ->
  exists p' a e,
    log_register src lvl p = Ok true p' /\
    allocator p' = allocator p /\ log_ctx p' = log_ctx p /\ stderr p' = stderr p /\
    heap p !! a = Some (ElementBlock e) /\ source e = src /\
    heap p' = <[a := ElementBlock {| source := src; min_log_level := lvl |}]> (heap p).
Proof.
  intros Hm Hi Hl Hs Hr.
  destruct (hash_find (heap p) (source_hm (log_ctx p)) src) as [b|] eqn:Hf.
  - pose proof Hf as Hb. apply hash_find_Some in Hb as (_ & e & He & Hsrc).
    eexists _, b, e. rewrite (log_register_overwrite_run src lvl p b e) by done.
    rewrite Hsrc. by destruct p.
  - by apply hash_find_registered in Hf.
Qed.

Lemma reregister_takes_no_memory_witness :
  exists p' a e,
    log_register "NET" LL_ERROR (set_allocator [] process_net) = Ok true p' /\
    allocator p' = allocator (set_allocator [] process_net) /\
    log_ctx p' = log_ctx (set_allocator [] process_net) /\
    stderr p' = stderr (set_allocator [] process_net) /\
    heap (set_allocator [] process_net) !! a = Some (ElementBlock e) /\ source e = "NET"%string /\
    heap p' = <[a := ElementBlock {| source := "NET"; min_log_level := LL_ERROR |}]>
                (heap (set_allocator [] process_net)).
Proof.
  apply (reregister_takes_no_memory "NET" LL_ERROR (set_allocator [] process_net)).
  - unfold mutex_usable. cbn. discriminate.
  - reflexivity.
  - reflexivity.
  - vm_compute. discriminate.
  - exists 1%positive. eexists. split; [|split].
    + cbn. apply list_elem_of_here.
    + vm_compute. reflexivity.
    + reflexivity.
Defined.

(** * Further properties of the life cycle *)

Lemma destroy_iter_run l :
  NoDup l -> forall q, (forall a, a ∈ l -> is_Some (heap q !! a)) ->
  exists q',
    destroy_iter l q = Ok tt q' /\
    (forall a, a ∈ l -> heap q' !! a = None) /\
    (forall a, a ∉ l -> heap q' !! a = heap q !! a) /\
    allocator q' = allocator q /\ stderr q' = stderr q.
Proof.
  induction 1 as [|a l Hnotin Hnd IH]; intros q Hlive.
  - exists q. split; [done|]. split; [|done]. intros a Ha. by apply elem_of_nil in Ha.
  - destruct (Hlive a) as [b Hb]; [by left|].
    destruct q as [qh qc qal qerr]. cbn in Hb.
    set (q1 := {| heap := delete a qh;
                  log_ctx := set_source_hm (filter (fun x => x ≠ a) (source_hm qc)) qc;
                  allocator := qal; stderr := qerr |}).
    destruct (IH q1) as (q' & Hrun & Hgone & Hkept & Hal & Herr).
    { intros x Hx. cbn. rewrite lookup_delete_ne; [|by intros ->].
      apply (Hlive x). by right. }
    exists q'. split.
    { cbn. unfold bind at 1. unfold HASH_DEL. unfold_prims. cbn. rewrite Hb. exact Hrun. }
    split; [|split; [|done]].
    + intros x [->|Hx]%elem_of_cons; [|by apply Hgone].
      rewrite Hkept by done. cbn. apply lookup_delete_eq.
    + intros x Hx. apply not_elem_of_cons in Hx as [Hne Hx].
      rewrite Hkept by done. cbn. by apply lookup_delete_ne.
Qed.

Lemma log_destroy_run ok p :
  mutex_usable p -> initialized (log_ctx p) = true -> registry_ok p ->
  exists p',
    log_destroy ok p = Ok (negb (use_mutex (log_ctx p)) || ok) p' /\
    source_hm (log_ctx p') = [] /\
    (forall a, a ∈ source_hm (log_ctx p) -> heap p' !! a = None) /\
    (forall a, a ∉ source_hm (log_ctx p) -> heap p' !! a = heap p !! a) /\
    initialized (log_ctx p') = true /\
    ctx_min_log_level (log_ctx p') = ctx_min_log_level (log_ctx p).
Proof.
  intros Hm Hi [Hnd Hlive].
  destruct p as [h [hm g m um ini] al err]. unfold mutex_usable in Hm. cbn in *. subst ini.
  assert (forall q, heap q = h ->
            exists q', destroy_iter hm q = Ok tt q' /\
              (forall a, a ∈ hm -> heap q' !! a = None) /\
              (forall a, a ∉ hm -> heap q' !! a = h !! a)) as Hiter.
  { intros q <-. destruct (destroy_iter_run hm Hnd q) as (q' & Hrun & Hgone & Hkept & _).
    - intros a Ha. destruct (Hlive a Ha) as (e & -> & _). by eexists.
    - by exists q'. }
  unfold log_destroy. unfold_prims. cbn.
  destruct um; cbn.
  - rewrite (Hm eq_refl). cbn.
    edestruct Hiter as (q' & Hrun & Hgone & Hkept); [|rewrite Hrun]; [reflexivity|].
    pose proof (destroy_iter_flags _ _ _ _ Hrun) as (Hini & Hum & Hmx & Hg).
    destruct q' as [qh [qhm qg qm qum qini] qal qerr]. cbn in *. subst.
    destruct ok; cbn; eexists; (split; [reflexivity|]); cbn; done.
  - edestruct Hiter as (q' & Hrun & Hgone & Hkept); [|rewrite Hrun]; [reflexivity|].
    pose proof (destroy_iter_flags _ _ _ _ Hrun) as (Hini & Hum & Hmx & Hg).
    destruct q' as [qh [qhm qg qm qum qini] qal qerr]. cbn in *. subst.
    eexists; (split; [reflexivity|]); cbn; done.
Qed.

(** X10. [log_destroy] on an initialised context whose registry is in order
    returns, and what it returns is the answer of [pthread_mutex_destroy]
    (true where no mutex is in use). Whatever it returns, every element of
    the registry has been freed and the registry is empty, every other block
    of the heap is kept, and the context still counts as initialised with the
    global level it had. *)
Theorem destroy_frees_every_element ok p :
  mutex_usable p -> initialized (log_ctx p) = true -> registry_ok p ->
  exists p',
    log_destroy ok p = Ok (negb (use_mutex (log_ctx p)) || ok) p' /\
    source_hm (log_ctx p') = [] /\
    (forall a, a ∈ source_hm (log_ctx p) -> heap p' !! a = None) /\
    (forall a, a ∉ source_hm (log_ctx p) -> heap p' !! a = heap p !! a) /\
    initialized (log_ctx p') = true /\
    ctx_min_log_level (log_ctx p') = ctx_min_log_level (log_ctx p).
Proof. apply log_destroy_run. Qed.

Lemma destroy_frees_every_element_witness :
  exists p',
    log_destroy false process_net = Ok (negb (use_mutex (log_ctx process_net)) || false) p' /\
    source_hm (log_ctx p') = [] /\
    (forall a, a ∈ source_hm (log_ctx process_net) -> heap p' !! a = None) /\
    (forall a, a ∉ source_hm (log_ctx process_net) -> heap p' !! a = heap process_net !! a) /\
    initialized (log_ctx p') = true /\
    ctx_min_log_level (log_ctx p') = ctx_min_log_level (log_ctx process_net).
Proof.
  apply (destroy_frees_every_element false process_net).
  - unfold mutex_usable. cbn. discriminate.
  - reflexivity.
  - apply reachable_registry_ok, reachable_process_net.
Defined.

Lemma process_thread_safe_from_start :
  log_init LL_INFO true true (process_start [Some 1%positive]) = Ok true process_thread_safe.
Proof. reflexivity. Qed.

Lemma log_destroy_thread_safe ok p p' :
  initialized (log_ctx p) = true -> use_mutex (log_ctx p) = true ->
  log_destroy ok p = Ok true p' ->
  mutex (log_ctx p') = MutexDestroyed /\ use_mutex (log_ctx p') = true /\
  initialized (log_ctx p') = true.
Proof.
  open_process p. unfold log_destroy. intros -> -> H.
  unfold_prims. cbn in H.
  destruct m; cbn in H; try done.
  destruct (destroy_iter hm _) as [[] q1|] eqn:Hd; [|done].
  apply destroy_iter_flags in Hd as (Hi & Hu & Hm & _).
  destruct q1 as [qh [qhm qg qm qum qini] qal qerr]; cbn in *; subst.
  destruct ok; cbn in H; by simplify_eq.
Qed.

(** X11. Once [log_destroy] has succeeded on a thread-safe logger, the mutex
    is destroyed while the context still counts as initialised and
    thread-safe, so every entry point that takes the lock locks a destroyed
    mutex, which POSIX leaves undefined: querying, registering, unregistering,
    setting the level, dumping, logging and a second [log_destroy]. *)
Theorem thread_safe_logger_is_unusable_after_destroy ok p p' :
  initialized (log_ctx p) = true -> use_mutex (log_ctx p) = true ->
  log_destroy ok p = Ok true p' ->
  (forall src, log_get_src_level src p' = Fault Undefined) /\
  (forall src s, log_will_be_printed src s p' = Fault Undefined) /\
  log_get_global_level p' = Fault Undefined /\
  (forall src lvl, invalid_level lvl = false -> strlen src <= LOG_SRC_STORED_MAX_SIZE ->
     log_register src lvl p' = Fault Undefined) /\
  (forall src, log_unregister src p' = Fault Undefined) /\
  (forall lvl, invalid_level lvl = false -> log_set_log_level lvl p' = Fault Undefined) /\
  log_src_dump p' = Fault Undefined /\
  (forall cfg dt render src file line function lvl fmt, LL_INVALID < lvl < LL_CNT ->
     log_log cfg dt render src file line function lvl fmt p' = Fault Undefined) /\
  (forall cfg dt arr src file line function buffer len,
     log_raw cfg dt arr src file line function buffer len p' = Fault Undefined) /\
  (forall ok', log_destroy ok' p' = Fault Undefined).
Proof.
  intros Hi Hu Hrun.
  destruct (log_destroy_thread_safe ok p p' Hi Hu Hrun) as (Hm' & Hu' & Hi').
  clear Hrun Hi Hu. open_process p'. subst.
  repeat match goal with |- _ /\ _ => split end; intros.
  - reflexivity.
  - reflexivity.
  - reflexivity.
  - unfold log_register. rewrite H. apply Z.ltb_ge in H0. rewrite <- Z.gtb_ltb in H0.
    by run_fwd.
  - reflexivity.
  - unfold log_set_log_level. rewrite H. reflexivity.
  - reflexivity.
  - unfold log_log.
    assert ((lvl >? LL_INVALID) = true) as -> by (apply Z.gtb_gt; lia).
    assert ((lvl <? LL_CNT) = true) as -> by (apply Z.ltb_lt; lia).
    reflexivity.
  - reflexivity.
  - reflexivity.
Qed.

Lemma thread_safe_logger_is_unusable_after_destroy_witness :
  exists p',
    log_destroy true process_thread_safe = Ok true p' /\
    log_get_src_level "NET" p' = Fault Undefined /\
    log_register "NET" LL_DEBUG p' = Fault Undefined /\
    log_destroy true p' = Fault Undefined.
Proof.
  eexists. split; [reflexivity|].
  destruct (thread_safe_logger_is_unusable_after_destroy true process_thread_safe _
              eq_refl eq_refl eq_refl)
    as (Hget & _ & _ & Hreg & _ & _ & _ & _ & _ & Hdestroy).
  split; [apply Hget|]. split; [|apply Hdestroy].
  apply Hreg; [reflexivity|vm_compute; discriminate].
Defined.

Lemma context_ok_same_ctx p p' :
  log_ctx p' = log_ctx p -> context_ok p -> context_ok p'.
Proof. unfold context_ok. by intros ->. Qed.

Lemma log_init_context_ok lvl ts ok p r p' :
  log_init lvl ts ok p = Ok r p' -> context_ok p -> context_ok p'.
Proof.
  open_process p. unfold log_init, context_ok. intros H (H1 & H2 & H3 & H4). cbn in *.
  destruct ini; [by run_inv|].
  destruct (invalid_level lvl) eqn:Hl; [by run_inv|].
  apply invalid_level_false in Hl. destruct Hl as [Hl1 Hl2].
  destruct ts, ok; run_inv; split_ands; auto; done.
Qed.

Lemma log_destroy_context_ok ok p r p' :
  log_destroy ok p = Ok r p' -> context_ok p -> context_ok p'.
Proof.
  open_process p. unfold log_destroy, context_ok. intros H (H1 & H2 & H3 & H4). cbn in *.
  destruct ini; [|by run_inv].
  unfold_prims. cbn in H.
  destruct um, m; cbn in H; try done.
  all: destruct (destroy_iter hm _) as [[] q1|] eqn:Hd; [|done].
  all: apply destroy_iter_flags in Hd as (Hi & Hu & Hm & Hg).
  all: destruct q1 as [qh [qhm qg qm qum qini] qal qerr]; cbn in *; subst.
  all: destruct ok; cbn in H; simplify_eq; cbn; split_ands; auto; done.
Qed.

Lemma register_effect_context_ok src lvl p r p' :
  register_effect src lvl p r p' ->
  initialized (log_ctx p) = true /\ context_ok p ->
  initialized (log_ctx p') = true /\ context_ok p'.
Proof.
  intros He [Hi (H1 & H2 & H3 & H4)].
  apply register_effect_mutex in He as (Hm & Hu & Hini & Hg).
  unfold context_ok. rewrite Hm, Hu, Hini, Hg, Hi. split_ands; auto; done.
Qed.

Lemma log_register_ex_uninitialized ds n p :
  initialized (log_ctx p) = false -> log_register_ex ds n p = Ok false p.
Proof.
  intros H. open_process p. cbn in H. subst. reflexivity.
Qed.

Lemma exec_context_ok c p u p' :
  exec c p = Ok u p' -> context_ok p -> context_ok p'.
Proof.
  intros H Hok. destruct c; cbn in H; unfold forget, bind in H.
  - destruct (log_init _ _ _ p) as [r q|] eqn:Hq; [|done]. unfold ret in H. simplify_eq.
    by eapply log_init_context_ok.
  - destruct (log_set_log_level _ p) as [r q|] eqn:Hq; [|done]. unfold ret in H. simplify_eq.
    apply log_set_log_level_effect in Hq as [[_ ->]|(_ & Hl & Hi & ->)]; [done|].
    apply invalid_level_false in Hl. destruct Hok as (H1 & H2 & H3 & H4).
    unfold context_ok. cbn. split_ands; auto; done.
  - destruct (log_register _ _ p) as [r q|] eqn:Hq; [|done]. unfold ret in H. simplify_eq.
    destruct (initialized (log_ctx p)) eqn:Hi.
    + apply log_register_effect in Hq. by eapply register_effect_context_ok.
    + rewrite log_register_uninitialized in Hq by done. by simplify_eq.
  - destruct (log_register_ex _ _ p) as [r q|] eqn:Hq; [|done]. unfold ret in H. simplify_eq.
    destruct (initialized (log_ctx p)) eqn:Hi.
    + eapply (log_register_ex_preserves
                (fun q => initialized (log_ctx q) = true /\ context_ok q)); [|done..].
      intros. by eapply register_effect_context_ok.
    + rewrite log_register_ex_uninitialized in Hq by done. by simplify_eq.
  - apply log_unregister_effect in H as [->|(a & Hf & ->)]; [done|].
    destruct Hok as (H1 & H2 & H3 & H4). unfold context_ok. cbn.
    split_ands; auto. intros Hi. by rewrite (H2 Hi).
  - destruct (log_destroy _ p) as [r q|] eqn:Hq; [|done]. unfold ret in H. simplify_eq.
    by eapply log_destroy_context_ok.
  - destruct (log_will_be_printed _ _ p) as [r q|] eqn:Hq; [|done]. unfold ret in H. simplify_eq.
    by apply log_will_be_printed_effect in Hq as ->.
  - destruct (log_get_src_level _ p) as [r q|] eqn:Hq; [|done]. unfold ret in H. simplify_eq.
    by apply log_get_src_level_effect in Hq as ->.
  - destruct (log_get_global_level p) as [r q|] eqn:Hq; [|done]. unfold ret in H. simplify_eq.
    by apply log_get_global_level_effect in Hq as ->.
  - destruct (log_src_dump p) as [r q|] eqn:Hq; [|done]. unfold ret in H. simplify_eq.
    apply log_src_dump_effect in Hq
      as [(_ & [->|(rest & _ & ->)])|(d & ds & rest & _ & _ & _ & _ & ->)]; done.
  - apply log_src_dump_delete_effect in H as [->|(a & D & _ & _ & ->)]; done.
  - apply log_log_effect in H as (_ & Hc & _). by eapply context_ok_same_ctx.
  - apply log_raw_effect in H as (_ & Hc & _). by eapply context_ok_same_ctx.
Qed.

(** X12. In every state a program can reach from the start of the process,
    between two calls: the mutex is not held (every entry point that returns
    has released the lock it took); a context that was never initialised has
    an empty registry; an initialised context has a global level strictly
    between [LL_INVALID] and [LL_CNT]; and an initialised thread-safe context
    has a mutex that was initialised. *)
Theorem reachable_context_is_in_order p :
  reachable p ->
  mutex (log_ctx p) <> MutexLocked /\
  (initialized (log_ctx p) = false -> source_hm (log_ctx p) = []) /\
  (initialized (log_ctx p) = true ->
     LL_INVALID < ctx_min_log_level (log_ctx p) < LL_CNT) /\
  (initialized (log_ctx p) = true -> use_mutex (log_ctx p) = true ->
     mutex (log_ctx p) <> MutexUninit).
Proof.
  induction 1 as [script|p c p' _ IH H].
  - cbn. split_ands; done.
  - by eapply (exec_context_ok c p tt p').
Qed.

Lemma reachable_context_is_in_order_witness :
  mutex (log_ctx process_net) <> MutexLocked /\
  (initialized (log_ctx process_net) = false -> source_hm (log_ctx process_net) = []) /\
  (initialized (log_ctx process_net) = true ->
     LL_INVALID < ctx_min_log_level (log_ctx process_net) < LL_CNT) /\
  (initialized (log_ctx process_net) = true -> use_mutex (log_ctx process_net) = true ->
     mutex (log_ctx process_net) <> MutexUninit).
Proof.
  apply (reachable_context_is_in_order process_net).
  eapply (reachable_call _ (Call_log_register "NET" LL_DEBUG)).
  - eapply (reachable_call _ (Call_log_init LL_INFO false true)).
    + apply (reachable_start [Some 1%positive; Some 2%positive; Some 1%positive]).
    + reflexivity.
  - reflexivity.
Defined.

(** * Further properties of the output *)

(** The section both logging functions share: the lock, the gate, the output
    if the gate allows it, the unlock. *)
Lemma gated_section_run src lvl (body : M unit) out p :
  mutex_usable p -> LL_INVALID < lvl < LL_CNT ->
  (forall q, body q = Ok tt (set_stderr (stderr q ++ out) q)) ->
  bind lock_mutex_if_it_needs (fun _ =>
    bind (is_log_allowed src lvl) (fun allowed =>
      bind (if allowed then body else ret tt) (fun _ => unlock_mutex_if_it_needs))) p =
  Ok tt (if gate p src lvl then set_stderr (stderr p ++ out) p else p).
Proof.
  intros Hm Hl Hbody. unfold gate.
  open_process p.
  split_mutex;
    (unfold bind at 1; unfold_prims; cbn [mutex use_mutex log_ctx];
     unfold_setters;
     cbn [log_ctx heap allocator stderr source_hm ctx_min_log_level
          mutex use_mutex initialized];
     rewrite is_log_allowed_run by done; unfold registered_level;
     cbn [log_ctx heap allocator stderr source_hm ctx_min_log_level
          mutex use_mutex initialized];
     match goal with |- context [if ?b then body else _] => destruct b end;
     rewrite ?Hbody; unfold_setters;
     cbn [log_ctx heap allocator stderr source_hm ctx_min_log_level
          mutex use_mutex initialized]; reflexivity).
Qed.

Lemma set_stderr_twice out1 out2 q :
  set_stderr (stderr (set_stderr (stderr q ++ out1) q) ++ out2) (set_stderr (stderr q ++ out1) q) =
  set_stderr (stderr q ++ out1 ++ out2) q.
Proof. unfold set_stderr. cbn. by rewrite <- app_assoc. Qed.

Lemma set_stderr_nothing q : set_stderr (stderr q ++ []) q = q.
Proof. unfold set_stderr. rewrite app_nil_r. by destruct q. Qed.

(** The loop of [log_raw] from row [k] on, [m] rows to go. *)
Lemma log_raw_loop_rows buf len :
  0 <= len <= Z.of_nat (length buf) -> len + 16 < 2 ^ 64 ->
  forall m k fuel hexdump_line q,
    length hexdump_line = 100%nat ->
    (k + m)%nat = Z.to_nat ((len + 15) / 16) -> (m < fuel)%nat ->
    log_raw_loop buf len (Z.of_nat k * 16) hexdump_line fuel q =
      Ok tt (set_stderr (stderr q ++ map (dump_row buf len) (seq k m)) q).
Proof.
  intros Hlen Hbig. induction m as [|m IH]; intros k fuel arr q Harr Hk Hfuel.
  - destruct fuel as [|fuel]; [lia|]. cbn [log_raw_loop seq map].
    assert (len <= Z.of_nat k * 16) as Hdone.
    { assert ((len + 15) / 16 <= Z.of_nat k) by lia.
      pose proof (Z.mul_div_le (len + 15) 16). pose proof (Z.mod_pos_bound (len + 15) 16).
      pose proof (Z_div_mod_eq_full (len + 15) 16). lia. }
    apply Z.ltb_ge in Hdone. rewrite Hdone. unfold ret. by rewrite set_stderr_nothing.
  - destruct fuel as [|fuel]; [lia|]. cbn [log_raw_loop seq map].
    assert (Z.of_nat k * 16 < len) as Hmore.
    { assert (Z.of_nat k < (len + 15) / 16) as Hlt by lia.
      pose proof (Z_div_mod_eq_full (len + 15) 16). pose proof (Z.mod_pos_bound (len + 15) 16).
      lia. }
    pose proof Hmore as Hb. apply Z.ltb_lt in Hb. rewrite Hb.
    rewrite Z.div_mul by done.
    destruct (compose_hexdump_line_text buf len (Z.of_nat k) arr)
      as (out' & tail & Hrun & Hlen' & Hout); [lia..|].
    rewrite Hrun. subst out'. rewrite c_str_terminated by apply line_text_not_NUL.
    unfold bind at 1. unfold fprintf_stderr at 1.
    replace (size_t_wrap (Z.of_nat k * 16 + 16)) with (Z.of_nat (S k) * 16).
    2:{ unfold size_t_wrap. rewrite Z.mod_small; lia. }
    rewrite IH; [|congruence|lia|lia].
    fold (dump_row buf len k).
    change (dump_row buf len k :: map (dump_row buf len) (seq (S k) m))
      with ([dump_row buf len k] ++ map (dump_row buf len) (seq (S k) m)).
    by rewrite set_stderr_twice.
Qed.

Lemma log_raw_run cfg dt hexdump_line src file line function buffer len p out :
  initialized (log_ctx p) = true -> mutex_usable p ->
  (forall q,
     match buffer with
     | Some buf => log_raw_loop buf len 0 hexdump_line (S (Z.to_nat (len / 16 + 1)))
     | None => fprintf_stderr ("NULL" +:+ LF)
     end q = Ok tt (set_stderr (stderr q ++ out) q)) ->
  log_raw cfg dt hexdump_line src file line function buffer len p =
    Ok tt (if gate p src LL_RAW
           then set_stderr
                  (stderr p ++
                     snprintf (Z.to_nat 8192)
                       (compose_log_prefix cfg dt 128 src file line function LL_RAW +:+ LF)
                     :: out) p
           else p).
Proof.
  intros Hi Hm Hout. unfold log_raw.
  unfold bind at 1. unfold get_ctx at 1. rewrite Hi. cbn [negb].
  apply gated_section_run; [done|unfold LL_INVALID, LL_RAW, LL_CNT; lia|].
  intros q. unfold bind at 1. unfold fprintf_stderr at 1.
  rewrite Hout. by rewrite set_stderr_twice.
Qed.

(** X13. [log_raw] on the first [len] bytes of a buffer, in an initialised
    context: if the gate lets [LL_RAW] through for the source, it appends to
    the standard error stream the prefix line and then one dump line for
    every 16 bytes begun, [(len + 15) / 16] lines in all and none for
    [len = 0], each of them the row's offset, hex groups, padding, separator
    and text; if the gate denies it, nothing at all is written. Nothing but
    the stream changes, and the content the local line array starts with
    does not show. *)
Theorem raw_dump_writes_a_row_per_16_bytes cfg dt hexdump_line src file line function
    buf len p :
  initialized (log_ctx p) = true -> mutex_usable p ->
  0 <= len <= Z.of_nat (length buf) -> len + 16 < 2 ^ 64 ->
  length hexdump_line = 100%nat ->
  log_raw cfg dt hexdump_line src file line function (Some buf) len p =
    Ok tt (if gate p src LL_RAW
           then set_stderr
                  (stderr p ++
                     snprintf (Z.to_nat 8192)
                       (compose_log_prefix cfg dt 128 src file line function LL_RAW +:+ LF)
                     :: dump_rows buf len) p
           else p) /\
  length (dump_rows buf len) = Z.to_nat ((len + 15) / 16) /\
  (len = 0 -> dump_rows buf len = []).
Proof.
  intros Hi Hm Hlen Hbig Harr. split; [|split].
  - apply log_raw_run; [done..|]. intros q.
    pose proof (log_raw_loop_rows buf len Hlen Hbig (Z.to_nat ((len + 15) / 16)) 0
                  (S (Z.to_nat (len / 16 + 1))) hexdump_line q Harr) as Hloop.
    change (Z.of_nat 0 * 16) with 0 in Hloop. apply Hloop; [lia|].
    assert ((len + 15) / 16 <= len / 16 + 1).
    { pose proof (Z_div_mod_eq_full (len + 15) 16). pose proof (Z.mod_pos_bound (len + 15) 16).
      pose proof (Z_div_mod_eq_full len 16). pose proof (Z.mod_pos_bound len 16). lia. }
    assert (0 <= len / 16) by (apply Z.div_pos; lia). lia.
  - unfold dump_rows. by rewrite length_map, length_seq.
  - intros ->. reflexivity.
Qed.

Lemma raw_dump_writes_a_row_per_16_bytes_witness :
  log_raw build_plain midnight stale_line "NET" "src/main.c" "42" "main" (Some buffer20) 17
    process_raw =
  Ok tt (if gate process_raw "NET" LL_RAW
         then set_stderr
                (stderr process_raw ++
                   snprintf (Z.to_nat 8192)
                     (compose_log_prefix build_plain midnight 128 "NET" "src/main.c" "42" "main"
                        LL_RAW +:+ LF)
                   :: dump_rows buffer20 17) process_raw
         else process_raw) /\
  length (dump_rows buffer20 17) = Z.to_nat ((17 + 15) / 16) /\
  (17 = 0 -> dump_rows buffer20 17 = []).
Proof.
  apply (raw_dump_writes_a_row_per_16_bytes build_plain midnight stale_line "NET" "src/main.c"
           "42" "main" buffer20 17 process_raw).
  - reflexivity.
  - unfold mutex_usable. cbn. discriminate.
  - vm_compute. split; discriminate.
  - vm_compute. reflexivity.
  - reflexivity.
Defined.

(** X14. [log_raw] with a NULL buffer, in an initialised context: whatever
    length it is given, if the gate lets [LL_RAW] through for the source it
    writes the prefix line and the line [NULL], and if not it writes
    nothing; nothing but the stream changes. *)
Theorem raw_dump_of_null_buffer cfg dt hexdump_line src file line function len p :
  initialized (log_ctx p) = true -> mutex_usable p ->
  log_raw cfg dt hexdump_line src file line function None len p =
    Ok tt (if gate p src LL_RAW
           then set_stderr
                  (stderr p ++
                     [snprintf (Z.to_nat 8192)
                        (compose_log_prefix cfg dt 128 src file line function LL_RAW +:+ LF);
                      "NULL" +:+ LF]) p
           else p).
Proof.
  intros Hi Hm. by apply log_raw_run.
Qed.

Lemma raw_dump_of_null_buffer_witness :
  log_raw build_plain midnight stale_line "NET" "src/main.c" "42" "main" None 20 process_raw =
    Ok tt (if gate process_raw "NET" LL_RAW
           then set_stderr
                  (stderr process_raw ++
                     [snprintf (Z.to_nat 8192)
                        (compose_log_prefix build_plain midnight 128 "NET" "src/main.c" "42"
                           "main" LL_RAW +:+ LF);
                      "NULL" +:+ LF]) process_raw
           else process_raw).
Proof.
  apply (raw_dump_of_null_buffer build_plain midnight stale_line "NET" "src/main.c" "42" "main"
           20 process_raw).
  - reflexivity.
  - unfold mutex_usable. cbn. discriminate.
Defined.

(** X15. [log_log] for a level strictly between [LL_INVALID] and [LL_CNT],
    in an initialised context, does what [log_will_be_printed] announces for
    the same source and level: if the answer is yes it appends exactly one
    text to the standard error stream, what [vfprintf] makes of the prefix,
    the separator, the caller's format and a line feed, cut to the 8191
    characters of the line buffer; if the answer is no it writes nothing.
    Either way the heap, the context and the allocator are as before. *)
Theorem log_log_prints_what_the_gate_announces cfg dt render src file line function
    lvl fmt p :
  initialized (log_ctx p) = true -> mutex_usable p -> LL_INVALID < lvl < LL_CNT ->
  exists announced,
    log_will_be_printed src lvl p = Ok announced p /\
    log_log cfg dt render src file line function lvl fmt p =
      Ok tt (if announced
             then set_stderr
                    (stderr p ++
                       [render (snprintf (Z.to_nat 8192)
                                  (compose_log_prefix cfg dt 128 src file line function lvl
                                   +:+ " | " +:+ fmt +:+ LF))]) p
             else p).
Proof.
  intros Hi Hm Hl. exists (gate p src lvl). split.
  - by rewrite log_will_be_printed_run, is_log_allowed_run.
  - unfold log_log.
    assert ((lvl >? LL_INVALID) = true) as -> by (apply Z.gtb_gt; lia).
    assert ((lvl <? LL_CNT) = true) as -> by (apply Z.ltb_lt; lia).
    unfold assert. unfold bind at 1. unfold ret at 1. unfold bind at 1. unfold ret at 1.
    unfold bind at 1. unfold get_ctx at 1. rewrite Hi. cbn [negb].
    by apply gated_section_run.
Qed.

Lemma log_log_prints_what_the_gate_announces_witness :
  exists announced,
    log_will_be_printed "NET" LL_WARNING process_net = Ok announced process_net /\
    log_log build_plain midnight (fun s => s) "NET" "src/main.c" "42" "main" LL_WARNING "up"
      process_net =
      Ok tt (if announced
             then set_stderr
                    (stderr process_net ++
                       [snprintf (Z.to_nat 8192)
                          (compose_log_prefix build_plain midnight 128 "NET" "src/main.c" "42"
                             "main" LL_WARNING +:+ " | " +:+ "up" +:+ LF)]) process_net
             else process_net).
Proof.
  apply (log_log_prints_what_the_gate_announces build_plain midnight (fun s => s) "NET"
           "src/main.c" "42" "main" LL_WARNING "up" process_net).
  - reflexivity.
  - unfold mutex_usable. cbn. discriminate.
  - split; reflexivity.
Defined.

(** * Further properties of the gate *)

Lemma reachable_context_ok p : reachable p -> context_ok p.
Proof.
  induction 1 as [script|p c p' _ IH H].
  - unfold context_ok. cbn. split_ands; done.
  - by eapply (exec_context_ok c p tt p').
Qed.

Lemma registered_level_valid p src :
  registry_ok p -> registered p src ->
  exists lvl, registered_level p src = Some lvl /\ valid_level lvl.
Proof.
  intros [_ Hlive] Hr.
  destruct (hash_find (heap p) (source_hm (log_ctx p)) src) as [a|] eqn:Hf.
  - unfold registered_level. rewrite Hf.
    apply hash_find_Some in Hf as (Hin & e & He & _).
    destruct (Hlive a Hin) as (e' & He' & Hv). rewrite He in He'. simplify_eq.
    rewrite He. eauto.
  - by apply hash_find_registered in Hf.
Qed.

(** X16. The gate is monotone in the level of the request: what
    [is_log_allowed] lets through at one level it lets through at every
    higher level below [LL_CNT], for the same source in the same state. *)
Theorem gate_is_monotone src s s' p :
  LL_INVALID < s -> s <= s' < LL_CNT ->
  is_log_allowed src s p = Ok true p ->
  is_log_allowed src s' p = Ok true p.
Proof.
  intros Hs Hs' H.
  rewrite is_log_allowed_run in H by lia. rewrite is_log_allowed_run by lia.
  destruct (registered_level p src) as [lvl|]; [|done].
  injection H as H. apply andb_true_iff in H as [Hg Hl]. f_equal.
  unfold check_log_level in *. rewrite Z.geb_leb in Hg, Hl. rewrite !Z.geb_leb.
  apply Z.leb_le in Hg, Hl. apply andb_true_iff. split; apply Z.leb_le; lia.
Qed.

Lemma gate_is_monotone_witness :
  is_log_allowed "NET" LL_INFO process_net = Ok true process_net /\
  is_log_allowed "NET" LL_ERROR process_net = Ok true process_net.
Proof.
  split; [reflexivity|].
  apply (gate_is_monotone "NET" LL_INFO LL_ERROR process_net).
  - reflexivity.
  - split; [discriminate|reflexivity].
  - reflexivity.
Defined.

(** X17. In a reachable state with the context initialised, a request at
    level [LL_NONE] from a registered source is always let through, whatever
    the global level and the level of the source are, [LL_NONE] included:
    [LL_NONE] as a threshold silences every level below it but not a request
    made at [LL_NONE] itself, and no level below [LL_NONE] passes a
    threshold of [LL_NONE]. *)
Theorem request_at_none_is_never_silenced src p :
  reachable p -> initialized (log_ctx p) = true -> registered p src ->
  is_log_allowed src LL_NONE p = Ok true p /\
  (forall s lvl, LL_INVALID < s < LL_NONE -> registered_level p src = Some lvl ->
     ctx_min_log_level (log_ctx p) = LL_NONE \/ lvl = LL_NONE ->
     is_log_allowed src s p = Ok false p).
Proof.
  intros Hr Hi Hreg.
  pose proof (reachable_registry_ok p Hr) as Hok.
  pose proof (reachable_context_ok p Hr) as (_ & _ & Hg & _).
  specialize (Hg Hi).
  destruct (registered_level_valid p src Hok Hreg) as (lvl & Hlvl & Hv).
  unfold valid_level, LL_INVALID, LL_CNT in *.
  split.
  - rewrite is_log_allowed_run by (unfold LL_INVALID, LL_NONE, LL_CNT; lia).
    rewrite Hlvl. f_equal. unfold check_log_level, LL_NONE. rewrite !Z.geb_leb.
    apply andb_true_iff. split; apply Z.leb_le; lia.
  - intros s l Hs Hl Hnone. unfold LL_INVALID, LL_NONE in *.
    rewrite is_log_allowed_run by (unfold LL_INVALID, LL_CNT; lia).
    rewrite Hl. f_equal. unfold check_log_level. rewrite !Z.geb_leb.
    apply andb_false_iff. destruct Hnone as [Hn|Hn]; [left|right]; apply Z.leb_gt; lia.
Qed.

Lemma request_at_none_is_never_silenced_witness :
  is_log_allowed "NET" LL_NONE process_net = Ok true process_net /\
  (forall s lvl, LL_INVALID < s < LL_NONE -> registered_level process_net "NET" = Some lvl ->
     ctx_min_log_level (log_ctx process_net) = LL_NONE \/ lvl = LL_NONE ->
     is_log_allowed "NET" s process_net = Ok false process_net).
Proof.
  apply (request_at_none_is_never_silenced "NET" process_net).
  - apply reachable_process_net.
  - reflexivity.
  - exists 1%positive. eexists. split; [|split].
    + cbn. apply list_elem_of_here.
    + vm_compute. reflexivity.
    + reflexivity.
Defined.

(** * Further properties of the dump *)

Lemma dump_loop_run l : forall sz q,
  (forall a, a ∈ l -> exists e, heap q !! a = Some (ElementBlock e)) ->
  exists ds, dump_loop sz l q = Ok ds q.
Proof.
  induction l as [|a l IH]; intros sz q Hlive.
  - exists []. by destruct sz.
  - destruct sz as [|sz]; [by exists []|].
    destruct (Hlive a) as [e He]; [by left|].
    destruct (IH sz q) as [ds Hds]; [intros b Hb; apply Hlive; by right|].
    eexists. cbn [dump_loop]. unfold bind at 1. unfold load_elt at 1. rewrite He.
    unfold bind at 1. rewrite Hds. reflexivity.
Qed.

Lemma log_src_dump_run p d rest :
  mutex_usable p -> initialized (log_ctx p) = true -> registry_ok p ->
  allocator p = Some d :: rest -> heap p !! d = None ->
  exists D,
    log_src_dump p = Ok (Some d) (set_heap (<[d := DumpBlock D]> (heap p)) (set_allocator rest p)) /\
    global_level D = ctx_min_log_level (log_ctx p) /\
    num_log_src_descr D = length (source_hm (log_ctx p)) /\
    length (log_src_descrs D) = length (source_hm (log_ctx p)).
Proof.
  intros Hm Hi [_ Hlive] Hal Hd.
  assert (exists r p1, log_src_dump p = Ok r p1 /\ r <> None) as (r & p1 & Hrun & Hr).
  { open_process p. subst. unfold log_src_dump.
    set (blank := DumpBlock _).
    set (q := fun m => {| heap := <[d := blank]> h;
                          log_ctx := {| source_hm := hm; ctx_min_log_level := g; mutex := m;
                                        use_mutex := um; initialized := true |};
                          allocator := rest; stderr := err |}).
    assert (forall m, exists ds, dump_loop (length hm) hm (q m) = Ok ds (q m)) as Hloop.
    { intros m0. apply dump_loop_run. intros a Ha. destruct (Hlive a Ha) as (e & He & _).
      exists e. cbn. rewrite lookup_insert_ne; [done|]. intros ->. congruence. }
    split_mutex.
    - destruct (Hloop MutexLocked) as [ds Hds]. subst q. cbn in Hds.
      unfold_prims. cbn. rewrite Hd. cbn. unfold_setters. cbn. rewrite Hds. cbn.
      eexists _, _. split; [reflexivity|done].
    - destruct (Hloop m) as [ds Hds]. subst q. cbn in Hds.
      unfold_prims. cbn. rewrite Hd. cbn. unfold_setters. cbn. rewrite Hds. cbn.
      eexists _, _. split; [reflexivity|done]. }
  pose proof Hrun as Heff.
  apply log_src_dump_effect in Heff
    as [[-> _]|(d' & ds & rest' & -> & Hal' & _ & Hds & ->)]; [done|].
  rewrite Hal in Hal'. simplify_eq.
  eexists. split; [exact Hrun|]. cbn. split; [done|]. split; [done|].
  by apply Forall2_length in Hds.
Qed.

(** X18. In an initialised context whose registry is in order, with memory
    for the block, [log_src_dump] returns a block that carries the global
    level and as many entries as the registry has elements; handing that
    block to [log_src_dump_delete] then puts the heap back as it was before
    the dump, with the logging context unchanged throughout; and
    [log_src_dump_delete] of NULL does nothing. *)
Theorem dump_then_delete_restores p d rest :
  mutex_usable p -> initialized (log_ctx p) = true -> registry_ok p ->
  allocator p = Some d :: rest -> heap p !! d = None ->
  exists p1 p2 D,
    log_src_dump p = Ok (Some d) p1 /\
    heap p1 !! d = Some (DumpBlock D) /\
    global_level D = ctx_min_log_level (log_ctx p) /\
    num_log_src_descr D = length (source_hm (log_ctx p)) /\
    length (log_src_descrs D) = length (source_hm (log_ctx p)) /\
    log_src_dump_delete (Some d) p1 = Ok tt p2 /\
    heap p2 = heap p /\ log_ctx p2 = log_ctx p /\ log_ctx p1 = log_ctx p /\
    log_src_dump_delete None p = Ok tt p.
Proof.
  intros Hm Hi Hok Hal Hd.
  destruct (log_src_dump_run p d rest Hm Hi Hok Hal Hd) as (D & Hrun & Hg & Hn & Hlen).
  eexists _, _, D. split; [exact Hrun|].
  split; [cbn; by rewrite lookup_insert_eq|].
  split; [done|]. split; [done|]. split; [done|].
  split.
  { unfold log_src_dump_delete. unfold_prims. cbn. rewrite lookup_insert_eq. cbn.
    rewrite lookup_insert_eq. reflexivity. }
  cbn. split; [|done].
  rewrite delete_insert_eq. by apply delete_id.
Qed.

Lemma dump_then_delete_restores_witness :
  exists p1 p2 D,
    log_src_dump process_net = Ok (Some 2%positive) p1 /\
    heap p1 !! 2%positive = Some (DumpBlock D) /\
    global_level D = ctx_min_log_level (log_ctx process_net) /\
    num_log_src_descr D = length (source_hm (log_ctx process_net)) /\
    length (log_src_descrs D) = length (source_hm (log_ctx process_net)) /\
    log_src_dump_delete (Some 2%positive) p1 = Ok tt p2 /\
    heap p2 = heap process_net /\ log_ctx p2 = log_ctx process_net /\
    log_ctx p1 = log_ctx process_net /\
    log_src_dump_delete None process_net = Ok tt process_net.
Proof.
  apply (dump_then_delete_restores process_net 2%positive [Some 1%positive]).
  - unfold mutex_usable. cbn. discriminate.
  - reflexivity.
  - apply reachable_registry_ok, reachable_process_net.
  - reflexivity.
  - reflexivity.
Defined.

(** * Further properties of the prefix *)

Lemma length_append (s1 s2 : string) :
  String.length (s1 +:+ s2) = (String.length s1 + String.length s2)%nat.
Proof.
  induction s1 as [|c s1 IH]; [done|].
  change (String c s1 +:+ s2) with (String c (s1 +:+ s2)).
  cbn [String.length]. by rewrite IH.
Qed.

Lemma length_substring_0 n (s : string) :
  String.length (substring 0 n s) = Nat.min n (String.length s).
Proof.
  revert n. induction s as [|c s IH]; intros [|n]; cbn; try done. by rewrite IH.
Qed.

Lemma length_spaces n : String.length (spaces n) = n.
Proof. unfold spaces. by rewrite string_of_list_ascii_length, repeat_length. Qed.

Lemma length_snprintf size text :
  String.length (snprintf size text) = Nat.min (size - 1) (String.length text).
Proof. apply length_substring_0. Qed.

Lemma length_fmt_s_left w s : String.length (fmt_s_left w w s) = w.
Proof.
  unfold fmt_s_left. rewrite length_append, length_spaces, length_substring_0. lia.
Qed.

Lemma length_fmt_s_right w s :
  String.length (fmt_s_right w s) = Nat.max w (String.length s).
Proof. unfold fmt_s_right. rewrite length_append, length_spaces. lia. Qed.

Lemma length_dec_digits fuel : forall k n acc,
  0 <= n < 10 ^ Z.of_nat k ->
  (length (dec_digits fuel n acc) <= length acc + k)%nat.
Proof.
  induction fuel as [|fuel IH]; intros k n acc Hn; cbn [dec_digits]; [lia|].
  destruct (n =? 0) eqn:Hz; [lia|]. apply Z.eqb_neq in Hz.
  destruct k as [|k]; [cbn in Hn; lia|].
  etransitivity; [apply (IH k)|cbn [length]; lia].
  rewrite Nat2Z.inj_succ, Z.pow_succ_r in Hn by lia.
  split; [apply Z.div_pos; lia|]. apply Z.div_lt_upper_bound; lia.
Qed.

Lemma length_fmt_d prec z :
  0 <= z < 10 ^ Z.of_nat prec -> String.length (fmt_d prec z) = prec.
Proof.
  intros Hz. unfold fmt_d.
  assert ((z <? 0) = false) as -> by (apply Z.ltb_ge; lia).
  rewrite Z.abs_eq by lia.
  pose proof (length_dec_digits 10 prec z [] Hz) as Hlen. cbn [length] in Hlen.
  rewrite length_append, string_of_list_ascii_length, length_app, repeat_length.
  cbn [String.length]. lia.
Qed.

(** X19. The width of the prefix, for every input: one column for the level
    letter, 16 for the source, 20 for the file name and at least 5 for the
    line number, each in its brackets, which makes 44 characters and the
    line number; before them the time stamp and a colon where the build has
    the time, after them 26 characters for the function where the build has
    the function name; the whole cut to the 127 characters that the buffer of
    128 holds. Names longer than their columns are cut and shorter ones
    padded, so that only the line number can widen the prefix. *)
Theorem prefix_width cfg dt src file line function lvl :
  String.length (compose_log_prefix cfg dt 128 src file line function lvl) =
    Nat.min 127
      ((if DO_LOG_CURRENT_TIME cfg then String.length (print_current_time dt 32) + 1 else 0) +
       44 + Nat.max 5 (String.length line) +
       (if DO_LOG_FUNCTION_NAME cfg then 26 else 0))%nat /\
  (String.length (print_current_time dt 32) <= 31)%nat.
Proof.
  split.
  - unfold compose_log_prefix. rewrite length_snprintf. f_equal.
    rewrite !length_append, !length_fmt_s_left, length_fmt_s_right.
    unfold LOG_SRC_MAX_SIZE, LOG_FILE_NAME_MAX_SIZE.
    destruct (DO_LOG_CURRENT_TIME cfg), (DO_LOG_FUNCTION_NAME cfg);
      rewrite ?length_append, ?length_fmt_s_left; unfold LOG_FUNCTION_NAME_MAX_SIZE;
      cbn [String.length]; lia.
  - unfold print_current_time. rewrite length_snprintf. lia.
Qed.

(** X20. For a clock reading with a year of at most four digits, the other
    fields of at most two, and microseconds below a million, the time stamp
    is 24 characters wide: the date and the time each in their digits, three
    digits of milliseconds and the blank that pads them to four columns. It
    fits the buffer of 32 and is not cut. *)
Theorem time_stamp_width dt :
  0 <= year dt < 10000 -> 0 <= month dt < 100 -> 0 <= day dt < 100 ->
  0 <= hour dt < 100 -> 0 <= min dt < 100 -> 0 <= sec dt < 100 ->
  0 <= usec dt < 1000000 ->
  String.length (print_current_time dt 32) = 24%nat /\
  print_current_time dt 32 =
    (fmt_d 4 (year dt) +:+ "." +:+ fmt_d 2 (month dt) +:+ "." +:+ fmt_d 2 (day dt) +:+ "-" +:+
     fmt_d 2 (hour dt) +:+ ":" +:+ fmt_d 2 (min dt) +:+ ":" +:+ fmt_d 2 (sec dt) +:+ ":" +:+
     fmt_d 3 (usec dt / 1000) +:+ " ")%string.
Proof.
  intros Hy Hmo Hd Hh Hmi Hs Hu.
  assert (0 <= usec dt / 1000 < 10 ^ Z.of_nat 3) as Hms.
  { split; [apply Z.div_pos; lia|]. apply Z.div_lt_upper_bound; [lia|]. cbn. lia. }
  assert (Z.quot (usec dt) 1000 = usec dt / 1000) as Hq by (apply Z.quot_div_nonneg; lia).
  assert (print_current_time dt 32 =
    (fmt_d 4 (year dt) +:+ "." +:+ fmt_d 2 (month dt) +:+ "." +:+ fmt_d 2 (day dt) +:+ "-" +:+
     fmt_d 2 (hour dt) +:+ ":" +:+ fmt_d 2 (min dt) +:+ ":" +:+ fmt_d 2 (sec dt) +:+ ":" +:+
     fmt_d 3 (usec dt / 1000) +:+ " ")%string) as Heq.
  { unfold print_current_time. rewrite Hq. rewrite (length_fmt_d 3) by done.
    change (spaces (4 - 3)) with " "%string.
    unfold snprintf. apply substring_whole.
    rewrite !length_append, (length_fmt_d 4), !(length_fmt_d 2), (length_fmt_d 3);
      cbn [String.length]; (done || lia). }
  split; [|done]. rewrite Heq.
  rewrite !length_append, (length_fmt_d 4), !(length_fmt_d 2), (length_fmt_d 3);
    cbn [String.length]; (done || lia).
Qed.

Lemma time_stamp_width_witness :
  String.length (print_current_time midnight 32) = 24%nat /\
  print_current_time midnight 32 =
    (fmt_d 4 (year midnight) +:+ "." +:+ fmt_d 2 (month midnight) +:+ "." +:+
     fmt_d 2 (day midnight) +:+ "-" +:+
     fmt_d 2 (hour midnight) +:+ ":" +:+ fmt_d 2 (min midnight) +:+ ":" +:+
     fmt_d 2 (sec midnight) +:+ ":" +:+
     fmt_d 3 (usec midnight / 1000) +:+ " ")%string.
Proof.
  apply (time_stamp_width midnight); cbn; lia.
Defined.

Lemma after_last_None c s :
  after_last c s = None -> ~ In c (list_ascii_of_string s).
Proof.
  induction s as [|x s IH]; cbn; [tauto|].
  destruct (after_last c s) as [t|]; [done|].
  destruct (Ascii.eqb_spec x c) as [->|Hne]; [done|].
  intros _ [->|Hin]; [done|]. by apply IH.
Qed.

Lemma after_last_Some c s t :
  after_last c s = Some t ->
  (exists pre, s = pre +:+ String c t) /\ ~ In c (list_ascii_of_string t).
Proof.
  revert t. induction s as [|x s IH]; intros t; cbn; [done|].
  destruct (after_last c s) as [t'|] eqn:Ht.
  - intros [= <-]. destruct (IH t' eq_refl) as [[pre ->] Hno].
    split; [|done]. by exists (String x pre).
  - destruct (Ascii.eqb_spec x c) as [->|Hne]; [|done].
    intros [= <-]. split; [by exists EmptyString|]. by apply after_last_None.
Qed.

Lemma after_last_In c s :
  In c (list_ascii_of_string s) -> exists t, after_last c s = Some t.
Proof.
  intros Hin. destruct (after_last c s) as [t|] eqn:Ht; [by exists t|].
  by apply after_last_None in Ht.
Qed.

(** X21. [extract_file_name] returns what follows the last separator of the
    path it is given. On a path that holds a slash, the path is a directory
    part, a slash and the result, and the result holds no slash: the result
    is what follows the last slash. On a path without a slash that holds a
    backslash, the path is a directory part, a backslash and the result, and
    the result holds no backslash. A path without either is returned as it
    is. The backslash counts only where there is no slash at all: the file
    name of [dir\sub/a\b.c] is [a\b.c]. *)
Theorem extract_file_name_is_the_last_component path :
  (In "/"%char (list_ascii_of_string path) ->
   exists dir, path = dir +:+ String "/" (extract_file_name path)) /\
  ~ In "/"%char (list_ascii_of_string (extract_file_name path)) /\
  (~ In "/"%char (list_ascii_of_string path) ->
   In "\"%char (list_ascii_of_string path) ->
   exists dir, path = dir +:+ String "\" (extract_file_name path)) /\
  (~ In "/"%char (list_ascii_of_string path) ->
   ~ In "\"%char (list_ascii_of_string (extract_file_name path))) /\
  (~ In "/"%char (list_ascii_of_string path) ->
   ~ In "\"%char (list_ascii_of_string path) -> extract_file_name path = path) /\
  extract_file_name "dir\sub/a\b.c" = "a\b.c"%string.
Proof.
  unfold extract_file_name. split_ands.
  - intros Hin. apply after_last_In in Hin as [t Ht]. rewrite Ht.
    by apply after_last_Some in Ht as [Hpre _].
  - destruct (after_last "/" path) as [t|] eqn:Hs.
    { by apply after_last_Some in Hs as [_ Hno]. }
    apply after_last_None in Hs.
    destruct (after_last "\" path) as [t|] eqn:Hb; [|done].
    apply after_last_Some in Hb as [[pre ->] _].
    intros Hin. apply Hs. clear Hs.
    induction pre as [|c pre IH]; [by right|]. right. exact IH.
  - intros Hno Hin.
    destruct (after_last "/" path) as [t|] eqn:Hs.
    { apply after_last_Some in Hs as [[pre ->] _]. exfalso. apply Hno. clear.
      induction pre as [|c pre IH]; [by left|]. right. exact IH. }
    apply after_last_In in Hin as [t Ht]. rewrite Ht.
    by apply after_last_Some in Ht as [Hpre _].
  - intros Hno.
    destruct (after_last "/" path) as [t|] eqn:Hs.
    { apply after_last_Some in Hs as [[pre ->] _]. exfalso. apply Hno. clear.
      induction pre as [|c pre IH]; [by left|]. right. exact IH. }
    destruct (after_last "\" path) as [t|] eqn:Hb.
    + by apply after_last_Some in Hb as [_ Hnb].
    + by apply after_last_None in Hb.
  - intros Hno Hnb.
    destruct (after_last "/" path) as [t|] eqn:Hs.
    { apply after_last_Some in Hs as [[pre ->] _]. exfalso. apply Hno. clear.
      induction pre as [|c pre IH]; [by left|]. right. exact IH. }
    destruct (after_last "\" path) as [t|] eqn:Hb; [|done].
    apply after_last_Some in Hb as [[pre ->] _]. exfalso. apply Hnb. clear.
    induction pre as [|c pre IH]; [by left|]. right. exact IH.
  - reflexivity.
Qed.

(** * Further properties of the level names *)

Lemma log_str_to_ll_from_sound str n : forall ll,
  LL_INVALID <= ll ->
  log_str_to_ll_from str ll n = LL_INVALID \/
  (ll <= log_str_to_ll_from str ll n < LL_CNT /\
   strcasecmp str (log_level_map_at (log_str_to_ll_from str ll n)) = 0).
Proof.
  induction n as [|n IH]; intros ll Hll; cbn [log_str_to_ll_from]; [by left|].
  destruct (ll <? LL_CNT) eqn:Hlt; [|by left]. apply Z.ltb_lt in Hlt.
  destruct (strcasecmp str (log_level_map_at ll) =? 0) eqn:Hcmp.
  - apply Z.eqb_eq in Hcmp. right. split; [lia|done].
  - destruct (IH (ll + 1)) as [->|[Hr Hc]]; [lia|by left|]. right. split; [lia|done].
Qed.

Lemma log_str_to_ll_of_name l :
  log_str_to_ll (log_ll_to_str l) =
    if (LL_INVALID <=? l) && (l <? LL_CNT) then l else LL_INVALID.
Proof.
  unfold log_ll_to_str. rewrite Z.geb_leb.
  destruct (LL_INVALID <=? l) eqn:Hlo; [|reflexivity].
  destruct (l <? LL_CNT) eqn:Hhi; [|reflexivity].
  apply Z.leb_le in Hlo. apply Z.ltb_lt in Hhi. unfold LL_INVALID, LL_CNT in *.
  assert (l = 0 \/ l = 1 \/ l = 2 \/ l = 3 \/ l = 4 \/ l = 5 \/ l = 6 \/ l = 7) as Hcases by lia.
  destruct Hcases as [->|[->|[->|[->|[->|[->|[->| ->]]]]]]]; reflexivity.
Qed.

(** X22. What [log_str_to_ll] returns is always a level of the table, from
    [LL_INVALID] to [LL_NONE]; when it is not [LL_INVALID], the string is the
    name of that level up to the case of its letters; a level that came out
    of [log_str_to_ll] survives the way through [log_ll_to_str] and back;
    and for every integer, [log_ll_to_str] followed by [log_str_to_ll] gives
    the level back if it is in the table and [LL_INVALID] if not, the name
    of a level outside the table being the one of [LL_INVALID]. *)
Theorem level_of_string_is_sound str :
  LL_INVALID <= log_str_to_ll str < LL_CNT /\
  (log_str_to_ll str <> LL_INVALID ->
   strcasecmp str (log_ll_to_str (log_str_to_ll str)) = 0) /\
  log_str_to_ll (log_ll_to_str (log_str_to_ll str)) = log_str_to_ll str /\
  (forall l, log_str_to_ll (log_ll_to_str l) =
             if (LL_INVALID <=? l) && (l <? LL_CNT) then l else LL_INVALID) /\
  (forall l, l < LL_INVALID \/ LL_CNT <= l -> log_ll_to_str l = log_ll_to_str LL_INVALID).
Proof.
  assert (LL_INVALID <= log_str_to_ll str < LL_CNT) as Hrange.
  { unfold log_str_to_ll.
    destruct (log_str_to_ll_from_sound str (Z.to_nat (LL_CNT - LL_INVALID)) LL_INVALID)
      as [->|[Hr _]]; [done|done|done]. }
  split_ands.
  - lia.
  - lia.
  - intros Hne. unfold log_ll_to_str. rewrite Z.geb_leb.
    rewrite (proj2 (Z.leb_le _ _)), (proj2 (Z.ltb_lt _ _)) by lia. cbn [andb].
    unfold log_str_to_ll in *.
    by destruct (log_str_to_ll_from_sound str (Z.to_nat (LL_CNT - LL_INVALID)) LL_INVALID)
      as [?|[_ Hc]].
  - rewrite log_str_to_ll_of_name.
    by rewrite (proj2 (Z.leb_le _ _)), (proj2 (Z.ltb_lt _ _)) by lia.
  - apply log_str_to_ll_of_name.
  - intros l Hl. unfold log_ll_to_str. rewrite Z.geb_leb.
    destruct Hl as [Hl|Hl].
    + by rewrite (proj2 (Z.leb_gt _ _)) by lia.
    + rewrite (proj2 (Z.ltb_ge _ _)) by lia. by rewrite andb_false_r.
Qed.

(** * Further properties of the dump line *)

Lemma length_hex_digits_bound fuel : forall k n acc,
  0 <= n < 16 ^ Z.of_nat k ->
  (length (hex_digits fuel n acc) <= length acc + k)%nat.
Proof.
  induction fuel as [|fuel IH]; intros k n acc Hn; cbn [hex_digits]; [lia|].
  destruct (n =? 0) eqn:Hz; [lia|]. apply Z.eqb_neq in Hz.
  destruct k as [|k]; [cbn in Hn; lia|].
  etransitivity; [apply (IH k)|cbn [length]; lia].
  rewrite Nat2Z.inj_succ, Z.pow_succ_r in Hn by lia.
  split; [apply Z.div_pos; lia|]. apply Z.div_lt_upper_bound; lia.
Qed.

Lemma fmt_X_8_length n :
  0 <= n < 2 ^ 32 -> length (fmt_X LOG_RAW_ADDR_FIELD_WIDTH n) = 8%nat.
Proof.
  intros Hn. unfold fmt_X, LOG_RAW_ADDR_FIELD_WIDTH.
  pose proof (length_hex_digits_bound 16 8 n [] Hn) as Hlen. cbn [length] in Hlen.
  rewrite length_app, repeat_length. lia.
Qed.

Lemma hex_digit_isprint d : isprint (hex_digit d) = true.
Proof.
  unfold hex_digit. generalize (Z.to_nat d). intros n.
  do 17 (destruct n as [|n]; [reflexivity|]). cbn. by destruct n.
Qed.

Lemma hex_digits_isprint fuel n acc :
  Forall (fun c => isprint c = true) acc ->
  Forall (fun c => isprint c = true) (hex_digits fuel n acc).
Proof.
  revert n acc. induction fuel as [|fuel IH]; intros n acc Hacc; cbn; [done|].
  destruct (n =? 0); [done|]. apply IH. constructor; [apply hex_digit_isprint|done].
Qed.

Lemma text_char_isprint c : isprint (text_char c) = true.
Proof. unfold text_char. by destruct (isprint c) eqn:Hc. Qed.

Lemma hex_groups_isprint row : Forall (fun c => isprint c = true) (hex_groups row).
Proof.
  induction row as [|b row IH]; [constructor|].
  unfold hex_groups in *. cbn [map concat]. apply Forall_app. split; [|done].
  constructor; [reflexivity|]. constructor; [apply hex_digit_isprint|].
  constructor; [apply hex_digit_isprint|constructor].
Qed.

Lemma line_text_isprint first row : Forall (fun c => isprint c = true) (line_text first row).
Proof.
  unfold line_text. repeat (apply Forall_app; split).
  - apply Forall_take, Forall_app. split.
    + unfold fmt_X. apply Forall_app. split.
      * apply Forall_forall. intros c Hc. apply list_elem_of_In, repeat_spec in Hc. by subst.
      * by apply hex_digits_isprint.
    + by repeat constructor.
  - apply hex_groups_isprint.
  - apply Forall_forall. intros c Hc. apply list_elem_of_In, repeat_spec in Hc. by subst.
  - by repeat constructor.
  - apply Forall_forall. intros c Hc. apply list_elem_of_In, in_map_iff in Hc as (x & <- & _).
    apply text_char_isprint.
Qed.

Lemma line_text_columns first row :
  (length row <= 16)%nat ->
  take (3 * length row) (drop 10 (line_text first row)) = hex_groups row /\
  take 3 (drop 58 (line_text first row)) = [SP; "|"%char; SP] /\
  drop 61 (line_text first row) = map text_char row.
Proof.
  intros Hrow. unfold line_text.
  pose proof (fmt_X_length LOG_RAW_ADDR_FIELD_WIDTH first) as Hx.
  unfold LOG_RAW_ADDR_FIELD_WIDTH in *.
  set (A := take 10 _).
  assert (length A = 10%nat) as HA.
  { subst A. rewrite length_take, length_app. cbn [length]. lia. }
  pose proof (hex_groups_length row) as HB.
  set (B := hex_groups row) in *.
  set (C := repeat SP _).
  assert (length C = (3 * (16 - length row))%nat) as HC by (subst C; apply repeat_length).
  split_ands.
  - rewrite drop_app_length' by done. by rewrite take_app_length'.
  - rewrite !app_assoc. rewrite <- (app_assoc _ [SP; "|"%char; SP]).
    rewrite drop_app_length'; [done|]. rewrite !length_app. lia.
  - rewrite !app_assoc. rewrite drop_app_length'; [done|]. rewrite !length_app. cbn [length]. lia.
Qed.

(** X23. The dump line of a row that [log_raw] asks for, whatever the line
    array held before: the text that [compose_hexdump_line] leaves is the
    same for any two arrays of 100 characters it starts from, so nothing of
    the old content shows; every character of it is printable; from column
    10 come the hex groups of the row's bytes, columns 58 to 60 hold the
    separator whether the row is full or not, and from column 61 comes the
    text of the row's bytes, a dot for each byte that is not printable; and
    for offsets below 2^32 the first ten columns are the eight digits of the
    offset and two blanks. *)
Theorem hexdump_line_layout buf_in buf_in_size offset arr1 arr2 :
  0 <= offset -> offset * 16 < buf_in_size ->
  buf_in_size <= Z.of_nat (length buf_in) -> buf_in_size < 2 ^ 64 ->
  length arr1 = 100%nat -> length arr2 = 100%nat ->
  exists out1 out2 text,
    compose_hexdump_line buf_in buf_in_size offset arr1 = Some out1 /\
    compose_hexdump_line buf_in buf_in_size offset arr2 = Some out2 /\
    c_str out1 = Some text /\ c_str out2 = Some text /\
    let l := list_ascii_of_string text in
    let row := row_bytes buf_in buf_in_size offset in
    Forall (fun c => isprint c = true) l /\
    take (3 * length row) (drop 10 l) = hex_groups row /\
    take 3 (drop 58 l) = [SP; "|"%char; SP] /\
    drop 61 l = map text_char row /\
    (offset * 16 < 2 ^ 32 ->
     take 10 l = fmt_X LOG_RAW_ADDR_FIELD_WIDTH (offset * 16) ++ [SP; SP] /\
     length (fmt_X LOG_RAW_ADDR_FIELD_WIDTH (offset * 16)) = 8%nat).
Proof.
  intros H0 H1 H2 H3 Harr1 Harr2.
  destruct (compose_hexdump_line_text buf_in buf_in_size offset arr1)
    as (out1 & tail1 & Hrun1 & _ & ->); [lia..|].
  destruct (compose_hexdump_line_text buf_in buf_in_size offset arr2)
    as (out2 & tail2 & Hrun2 & _ & ->); [lia..|].
  pose proof (row_bytes_length buf_in buf_in_size offset H0 H1 H2) as Hrow.
  assert (length (row_bytes buf_in buf_in_size offset) <= 16)%nat as Hrow16 by lia.
  eexists _, _, _. split; [exact Hrun1|]. split; [exact Hrun2|].
  split; [apply c_str_terminated, line_text_not_NUL|].
  split; [apply c_str_terminated, line_text_not_NUL|].
  cbn zeta. rewrite list_ascii_of_string_of_list_ascii.
  destruct (line_text_columns (offset * 16) (row_bytes buf_in buf_in_size offset) Hrow16)
    as (Hhex & Hsep & Htext).
  split; [apply line_text_isprint|]. split; [done|]. split; [done|]. split; [done|].
  intros Hsmall.
  assert (length (fmt_X LOG_RAW_ADDR_FIELD_WIDTH (offset * 16)) = 8%nat) as Hlen
    by (apply fmt_X_8_length; lia).
  split; [|done]. unfold line_text.
  rewrite take_app_length'.
  - apply take_ge. rewrite length_app, Hlen. cbn [length]. lia.
  - rewrite length_take, length_app, Hlen. cbn [length]. lia.
Qed.

Lemma hexdump_line_layout_witness :
  exists out1 out2 text,
    compose_hexdump_line buffer20 20 1 stale_line = Some out1 /\
    compose_hexdump_line buffer20 20 1 (repeat NUL 100) = Some out2 /\
    c_str out1 = Some text /\ c_str out2 = Some text /\
    let l := list_ascii_of_string text in
    let row := row_bytes buffer20 20 1 in
    Forall (fun c => isprint c = true) l /\
    take (3 * length row) (drop 10 l) = hex_groups row /\
    take 3 (drop 58 l) = [SP; "|"%char; SP] /\
    drop 61 l = map text_char row /\
    (1 * 16 < 2 ^ 32 ->
     take 10 l = fmt_X LOG_RAW_ADDR_FIELD_WIDTH (1 * 16) ++ [SP; SP] /\
     length (fmt_X LOG_RAW_ADDR_FIELD_WIDTH (1 * 16)) = 8%nat).
Proof.
  apply (hexdump_line_layout buffer20 20 1 stale_line (repeat NUL 100)).
  - lia.
  - lia.
  - vm_compute. discriminate.
  - lia.
  - reflexivity.
  - reflexivity.
Defined.

(** * Further properties of the batch registration *)

Lemma log_register_ex_loop_levels nls : forall p p',
  mutex_usable p ->
  Forall (fun nl => strlen nl.1 < LOG_SRC_STORED_MAX_SIZE) nls ->
  NoDup (map fst nls) ->
  log_register_ex_loop (map (fun nl => descr_of nl.1 nl.2) nls) (length nls) p = Ok true p' ->
  mutex_usable p' /\
  (forall name lvl, (name, lvl) ∈ nls -> registered_level p' name = Some lvl) /\
  (forall key, key ∉ map fst nls -> registered_level p' key = registered_level p key).
Proof.
  induction nls as [|[n l] nls IH]; intros p p' Hm Hfit Hnd Hrun.
  - cbn in Hrun. unfold ret in Hrun. simplify_eq. split; [done|]. split; [|done].
    intros name lvl Hin. by apply elem_of_nil in Hin.
  - cbn [map length fst snd] in Hrun. rewrite log_register_ex_loop_cons in Hrun.
    change (register_descr (descr_of n l) p) with (log_register n l p) in Hrun.
    destruct (log_register n l p) as [[] q|] eqn:Hreg; [|done|done].
    apply Forall_cons in Hfit as [Hn Hfit]. cbn [map fst] in Hnd.
    apply NoDup_cons in Hnd as [Hnotin Hnd]. cbn [fst] in Hn.
    pose proof (log_register_effect _ _ _ _ _ Hreg) as Heff.
    pose proof (register_effect_mutex _ _ _ _ _ Heff) as (Hmx & Hum & _ & _).
    assert (mutex_usable q) as Hmq by (unfold mutex_usable in *; by rewrite Hmx, Hum).
    destruct (IH q p' Hmq Hfit Hnd Hrun) as (Hm' & Hin & Hout).
    split; [done|]. split.
    + intros name lvl [Heq|Htl]%elem_of_cons.
      * simplify_eq. rewrite Hout by done. by eapply register_effect_lookup.
      * by apply Hin.
    + intros key Hkey. cbn [map fst] in Hkey. apply not_elem_of_cons in Hkey as [Hne Hkey].
      rewrite Hout by done.
      eapply register_effect_other_names; [exact Heff|done|].
      by rewrite strncpy_terminated_fits.
Qed.

(** X24. A batch of entries with pairwise different names that fit the
    stored field, registered by one call of [log_register_ex] that reports
    success: afterwards [log_get_src_level] answers for every name of the
    batch the level the batch gave it, and every name outside the batch has
    the level it had before, or none as before. *)
Theorem batch_registers_every_entry nls p p' :
  mutex_usable p ->
  Forall (fun nl => strlen nl.1 < LOG_SRC_STORED_MAX_SIZE) nls ->
  NoDup (map fst nls) ->
  log_register_ex (Some (map (fun nl => descr_of nl.1 nl.2) nls)) (length nls) p = Ok true p' ->
  (forall name lvl, (name, lvl) ∈ nls -> log_get_src_level name p' = Ok lvl p') /\
  (forall key, key ∉ map fst nls ->
     log_get_src_level key p' = Ok (default LL_INVALID (registered_level p key)) p').
Proof.
  intros Hm Hfit Hnd Hrun.
  unfold log_register_ex in Hrun. unfold bind at 1 in Hrun. unfold get_ctx at 1 in Hrun.
  destruct (negb (initialized (log_ctx p))); [unfold ret in Hrun; by simplify_eq|].
  destruct (log_register_ex_loop_levels nls p p' Hm Hfit Hnd Hrun) as (Hm' & Hin & Hout).
  split.
  - intros name lvl Hnl. rewrite log_get_src_level_run by done. by rewrite (Hin name lvl).
  - intros key Hkey. rewrite log_get_src_level_run by done. by rewrite Hout.
Qed.

Lemma batch_registers_every_entry_witness :
  exists p',
    log_register_ex (Some [descr_of "DISK" LL_WARNING; descr_of "NET" LL_ERROR]) 2 process_net
      = Ok true p' /\
    log_get_src_level "DISK" p' = Ok LL_WARNING p' /\
    log_get_src_level "NET" p' = Ok LL_ERROR p'.
Proof.
  eexists. split; [reflexivity|].
  assert (NoDup (map fst [("DISK"%string, LL_WARNING); ("NET"%string, LL_ERROR)])) as Hnd.
  { cbn. apply NoDup_cons. split; [|apply NoDup_singleton].
    intros H%list_elem_of_singleton. discriminate. }
  assert (Forall (fun nl : string * log_level_t => strlen nl.1 < LOG_SRC_STORED_MAX_SIZE)
            [("DISK"%string, LL_WARNING); ("NET"%string, LL_ERROR)]) as Hfit.
  { repeat constructor. }
  destruct (batch_registers_every_entry
              [("DISK"%string, LL_WARNING); ("NET"%string, LL_ERROR)] process_net _
              (fun H : false = true => False_ind _ (Bool.diff_false_true H))
              Hfit Hnd eq_refl) as [Hin _].
  split; apply Hin.
  - apply list_elem_of_here.
  - apply list_elem_of_further, list_elem_of_here.
Defined.

(** * Further properties of the initialisation *)

(** X25. A thread-safe [log_init] whose [pthread_mutex_init] fails reports
    failure and leaves the context uninitialised, but not as it found it: the
    global level and the thread-safe flag are already stored, while the heap,
    the registry and the mutex are untouched. The context can then still be
    initialised: the next [log_init] with a real level whose mutex, if it
    wants one, can be set up succeeds, stores its own level and flag, and
    leaves a context whose lock can be taken. *)
Theorem failed_mutex_init_can_be_retried lvl lvl2 ts2 p :
  initialized (log_ctx p) = false ->
  invalid_level lvl = false -> invalid_level lvl2 = false ->
  exists p1 p2,
    log_init lvl true false p = Ok false p1 /\
    initialized (log_ctx p1) = false /\
    ctx_min_log_level (log_ctx p1) = lvl /\ use_mutex (log_ctx p1) = true /\
    mutex (log_ctx p1) = mutex (log_ctx p) /\
    heap p1 = heap p /\ source_hm (log_ctx p1) = source_hm (log_ctx p) /\
    log_init lvl2 ts2 true p1 = Ok true p2 /\
    initialized (log_ctx p2) = true /\
    ctx_min_log_level (log_ctx p2) = lvl2 /\ use_mutex (log_ctx p2) = ts2 /\
    mutex_usable p2 /\ heap p2 = heap p.
Proof.
  intros Hi Hl Hl2. open_process p. subst ini.
  unfold log_init. cbn. rewrite Hl, Hl2. unfold_prims. cbn.
  destruct ts2; cbn; eexists _, _; split_ands; try reflexivity; cbn; done.
Qed.

Lemma failed_mutex_init_can_be_retried_witness :
  exists p1 p2,
    log_init LL_INFO true false (process_start []) = Ok false p1 /\
    initialized (log_ctx p1) = false /\
    ctx_min_log_level (log_ctx p1) = LL_INFO /\ use_mutex (log_ctx p1) = true /\
    mutex (log_ctx p1) = mutex (log_ctx (process_start [])) /\
    heap p1 = heap (process_start []) /\
    source_hm (log_ctx p1) = source_hm (log_ctx (process_start [])) /\
    log_init LL_DEBUG false true p1 = Ok true p2 /\
    initialized (log_ctx p2) = true /\
    ctx_min_log_level (log_ctx p2) = LL_DEBUG /\ use_mutex (log_ctx p2) = false /\
    mutex_usable p2 /\ heap p2 = heap (process_start []).
Proof.
  apply (failed_mutex_init_can_be_retried LL_INFO LL_DEBUG false (process_start []));
    reflexivity.
Defined.

Lemma exec_all_keeps_initialized cs : forall p u p',
  exec_all cs p = Ok u p' ->
  initialized (log_ctx p) = true -> initialized (log_ctx p') = true.
Proof.
  induction cs as [|c cs IH]; intros p u p' Hrun Hi; cbn in Hrun.
  - unfold ret in Hrun. by simplify_eq.
  - unfold bind in Hrun. destruct (exec c p) as [v q|] eqn:Hq; [|done].
    eapply IH; [exact Hrun|]. by eapply exec_keeps_initialized.
Qed.

(** X26. No sequence of calls of the interface brings an initialised context
    back to the uninitialised state, [log_destroy] included: after any such
    sequence the context is still initialised, and a call of [log_init],
    whatever its arguments, returns failure and changes nothing. *)
Theorem initialised_context_stays_initialised cs p u p' lvl ts ok :
  initialized (log_ctx p) = true ->
  exec_all cs p = Ok u p' ->
  initialized (log_ctx p') = true /\ log_init lvl ts ok p' = Ok false p'.
Proof.
  intros Hi Hrun.
  assert (initialized (log_ctx p') = true) as Hi' by (by eapply exec_all_keeps_initialized).
  split; [done|]. open_process p'. subst. reflexivity.
Qed.

Lemma initialised_context_stays_initialised_witness :
  exists p',
    exec_all [Call_log_unregister "NET"; Call_log_destroy true] process_net = Ok tt p' /\
    initialized (log_ctx p') = true /\ log_init LL_DEBUG false true p' = Ok false p'.
Proof.
  eexists. split; [reflexivity|].
  apply (initialised_context_stays_initialised
           [Call_log_unregister "NET"; Call_log_destroy true] process_net tt _
           LL_DEBUG false true eq_refl eq_refl).
Defined.

(** X27. A new name that fits the stored field, registered twice in a row
    in an initialised context whose registry is in order: both calls
    succeed, only the first takes memory, the registry grows by exactly one
    element, and the source has the level of the second call. *)
Theorem fitting_name_registered_twice src l1 l2 p a rest :
  mutex_usable p -> initialized (log_ctx p) = true -> registry_ok p ->
  invalid_level l1 = false -> invalid_level l2 = false ->
  strlen src < LOG_SRC_STORED_MAX_SIZE -> ~ registered p src ->
  allocator p = Some a :: rest -> heap p !! a = None ->
  exists p1 p2,
    log_register src l1 p = Ok true p1 /\ log_register src l2 p1 = Ok true p2 /\
    allocator p1 = rest /\ allocator p2 = rest /\
    source_hm (log_ctx p2) = source_hm (log_ctx p) ++ [a] /\
    length (entries_named p2 src) = 1%nat /\
    log_get_src_level src p2 = Ok l2 p2.
Proof.
  intros Hm Hi Hok Hl1 Hl2 Hfit Hnew Hal Ha.
  pose proof (proj2 (hash_find_registered p src) Hnew) as Hf.
  pose proof (log_register_insert_run src l1 p a rest Hm Hi Hl1 ltac:(lia) Hf Hal Ha) as Hrun1.
  set (p1 := {| heap := _ |}) in Hrun1.
  assert (mutex_usable p1) as Hm1 by exact Hm.
  assert (registered p1 src) as Hreg1.
  { exists a. eexists. split; [|split].
    - cbn. apply elem_of_app. right. apply list_elem_of_here.
    - cbn. apply lookup_insert_eq.
    - cbn. by apply strncpy_terminated_fits. }
  destruct (log_register_succeeds src l2 p1 Hm1 Hi Hl2 ltac:(lia) (or_introl Hreg1))
    as [p2 Hrun2].
  pose proof (log_register_effect _ _ _ _ _ Hrun2) as Heff.
  assert (allocator p2 = rest /\ source_hm (log_ctx p2) = source_hm (log_ctx p) ++ [a])
    as [Hal2 Hhm2].
  { inversion Heff as [|?|b e _ Hfb Hb|b rest' _ _ Hfb _ _]; subst.
    - done.
    - by apply hash_find_registered in Hfb. }
  assert (length (entries_named p src) <= 1)%nat as Hone.
  { pose proof (hash_find_entries p src) as Hfe. rewrite Hf in Hfe.
    rewrite Hfe. cbn. lia. }
  destruct (log_register_twice_fitting src l1 l2 p p1 p2 Hm Hfit Hok Hone Hrun1 Hrun2)
    as [Hlen Hget].
  exists p1, p2. split_ands; done.
Qed.

Lemma fitting_name_registered_twice_witness :
  exists p1 p2,
    log_register "DISK" LL_TRACE process_net = Ok true p1 /\
    log_register "DISK" LL_ERROR p1 = Ok true p2 /\
    allocator p1 = [Some 1%positive] /\ allocator p2 = [Some 1%positive] /\
    source_hm (log_ctx p2) = source_hm (log_ctx process_net) ++ [2%positive] /\
    length (entries_named p2 "DISK") = 1%nat /\
    log_get_src_level "DISK" p2 = Ok LL_ERROR p2.
Proof.
  apply (fitting_name_registered_twice "DISK" LL_TRACE LL_ERROR process_net 2%positive
           [Some 1%positive]).
  - unfold mutex_usable. cbn. discriminate.
  - reflexivity.
  - apply reachable_registry_ok, reachable_process_net.
  - reflexivity.
  - reflexivity.
  - vm_compute. reflexivity.
  - intros (b & e & Hb & He & Hsrc). cbn in Hb.
    apply list_elem_of_singleton in Hb as ->.
    vm_compute in He. injection He as <-. discriminate.
  - reflexivity.
  - reflexivity.
Defined.

(** * Further properties of the end of the life cycle *)

(** X28. [log_destroy] on a logger that is not thread-safe, initialised and
    with its registry in order, succeeds and leaves a logger that is empty
    but still in use: no source has a level, nothing is let through, and a
    source can be registered again without a new [log_init], after which it
    has the level given. *)
Theorem destroyed_plain_logger_is_empty_but_usable ok p src s :
  use_mutex (log_ctx p) = false -> initialized (log_ctx p) = true -> registry_ok p ->
  LL_INVALID < s < LL_CNT ->
  exists p',
    log_destroy ok p = Ok true p' /\
    log_get_src_level src p' = Ok LL_INVALID p' /\
    log_will_be_printed src s p' = Ok false p' /\
    (forall lvl a rest,
       invalid_level lvl = false -> strlen src < LOG_SRC_STORED_MAX_SIZE ->
       allocator p' = Some a :: rest -> heap p' !! a = None ->
       exists p'', log_register src lvl p' = Ok true p'' /\
                   log_get_src_level src p'' = Ok lvl p'').
Proof.
  intros Hu Hi Hok Hs.
  assert (mutex_usable p) as Hm by (unfold mutex_usable; rewrite Hu; discriminate).
  destruct (log_destroy_run ok p Hm Hi Hok) as (p' & Hrun & Hhm & _ & _ & Hi' & _).
  rewrite Hu in Hrun. cbn in Hrun.
  assert (use_mutex (log_ctx p') = false) as Hu'.
  { clear -Hrun Hu Hi. open_process p. subst. unfold log_destroy in Hrun.
    unfold_prims. cbn in Hrun.
    destruct (destroy_iter hm _) as [[] q1|] eqn:Hd; [|done].
    apply destroy_iter_flags in Hd as (_ & Hum & _ & _).
    destruct q1 as [qh [qhm qg qm qum qini] qal qerr]; cbn in *; subst.
    by simplify_eq. }
  assert (mutex_usable p') as Hm' by (unfold mutex_usable; rewrite Hu'; discriminate).
  assert (registered_level p' src = None) as Hnone.
  { unfold registered_level, hash_find. by rewrite Hhm. }
  exists p'. split; [done|]. split; [|split].
  - rewrite log_get_src_level_run by done. by rewrite Hnone.
  - rewrite log_will_be_printed_run, is_log_allowed_run by done. by rewrite Hnone.
  - intros lvl a rest Hl Hfit Hal Ha.
    destruct (log_register_succeeds src lvl p' Hm' Hi' Hl ltac:(lia)
                (or_intror (ex_intro _ a (ex_intro _ rest (conj Hal Ha))))) as [p'' Hreg].
    exists p''. split; [done|]. by apply (log_register_then_lookup src lvl p').
Qed.

Lemma destroyed_plain_logger_is_empty_but_usable_witness :
  exists p',
    log_destroy true process_net = Ok true p' /\
    log_get_src_level "NET" p' = Ok LL_INVALID p' /\
    log_will_be_printed "NET" LL_ERROR p' = Ok false p' /\
    (forall lvl a rest,
       invalid_level lvl = false -> strlen "NET" < LOG_SRC_STORED_MAX_SIZE ->
       allocator p' = Some a :: rest -> heap p' !! a = None ->
       exists p'', log_register "NET" lvl p' = Ok true p'' /\
                   log_get_src_level "NET" p'' = Ok lvl p'').
Proof.
  apply (destroyed_plain_logger_is_empty_but_usable true process_net "NET" LL_ERROR).
  - reflexivity.
  - reflexivity.
  - apply reachable_registry_ok, reachable_process_net.
  - split; reflexivity.
Defined.

(** X29. [log_src_dump] in an initialised context when [malloc] returns
    NULL: the call returns NULL, the lock it took is released, and the heap
    and the logging context are as they were, so that the registry can still
    be queried. *)
Theorem dump_without_memory_returns_null p rest src :
  mutex_usable p -> initialized (log_ctx p) = true ->
  allocator p = None :: rest ->
  exists p',
    log_src_dump p = Ok None p' /\
    heap p' = heap p /\ log_ctx p' = log_ctx p /\ allocator p' = rest /\
    log_get_src_level src p' = Ok (default LL_INVALID (registered_level p src)) p'.
Proof.
  intros Hm Hi Hal.
  assert (log_src_dump p = Ok None (set_allocator rest p)) as Hrun.
  { clear src. open_process p. subst. unfold log_src_dump. split_mutex; by run_fwd. }
  exists (set_allocator rest p). split; [done|]. split; [done|]. split; [done|].
  split; [done|]. by rewrite log_get_src_level_run.
Qed.

Lemma dump_without_memory_returns_null_witness :
  exists p',
    log_src_dump (set_allocator [None] process_net) = Ok None p' /\
    heap p' = heap (set_allocator [None] process_net) /\
    log_ctx p' = log_ctx (set_allocator [None] process_net) /\ allocator p' = [] /\
    log_get_src_level "NET" p' =
      Ok (default LL_INVALID (registered_level (set_allocator [None] process_net) "NET")) p'.
Proof.
  apply (dump_without_memory_returns_null (set_allocator [None] process_net) [] "NET").
  - unfold mutex_usable. cbn. discriminate.
  - reflexivity.
  - reflexivity.
Defined.
